(** * Rat25S front end (main.py): lexer, symbol table, instruction stream,
      recursive-descent parser with inline code generation.

    The Python program keeps its compiler state in module globals
    ([symbol_table], [Memory_Address], [instructions], [instr_ptr]) and in the
    fields of one [Parser] object.  The embedding threads one [State] record
    through a small exception monad; every method of [Parser] becomes a
    function of the same name, and a raised exception carries the state it
    was raised in.  Loops and recursion take a [fuel] argument;
    [parse_total] shows that a fuel proportional to the number of tokens is
    always enough, [run] fixes it, and [run_fuel_irrelevant] shows that more
    fuel changes nothing.

    [print_assembly] and [print_symbol_table] are functions from the state
    to the lines they print.

    Not modelled: what the parser prints to stdout (production rules, token
    echo), the file handling of [main], and the interpreter's recursion
    limit. *)

From Stdlib Require Import ZArith Lia Bool Sorted.
From Stdlib Require Import Ascii String DecimalString.
From stdpp Require Import base list.

Local Open Scope string_scope.
Local Open Scope Z_scope.

(* ===================================================================== *)
(** ** Python text primitives used by the program *)
(* ===================================================================== *)

Module Py.

(** [str(n)] for an integer. *)
Definition str_int (z : Z) : string := NilZero.string_of_int (Z.to_int z).

(** [sys.get_int_max_str_digits()]: the default limit of CPython on the
    number of digits of a string that [int] converts. *)
Definition int_max_str_digits : nat := 4300.

(** [int(s)] on a string of decimal digits (the only strings the lexer
    classifies as "integer"); [None] stands for [ValueError], which [int]
    raises on the empty string, on a character that is not a digit and on
    more than [int_max_str_digits] digits. *)
Definition int_of_digits (s : string) : option Z :=
  match s with
  | EmptyString => None
  | _ =>
      if (String.length s <=? int_max_str_digits)%nat
      then option_map Z.of_uint (NilEmpty.uint_of_string s)
      else None
  end.

Fixpoint spaces (n : nat) : string :=
  match n with
  | O => EmptyString
  | S k => String " " (spaces k)
  end.

(** [f"{s:<w}"]: left-justified in a field of width [w]. *)
Definition ljust (w : nat) (s : string) : string :=
  s ++ spaces (w - String.length s).

(** [f"{n:wd}"]: right-justified in a field of width [w]. *)
Definition rjust (w : nat) (s : string) : string :=
  spaces (w - String.length s) ++ s.

(** [sep.join(parts)]. *)
Fixpoint join (sep : string) (parts : list string) : string :=
  match parts with
  | [] => EmptyString
  | [p] => p
  | p :: ps => p ++ sep ++ join sep ps
  end.

(** [x in xs] for strings. *)
Definition mem (x : string) (xs : list string) : bool :=
  existsb (String.eqb x) xs.

(** [l[i] = v] on a list: a negative index counts from the end, and an
    index outside [-len, len) raises [IndexError] ([None]). *)
Definition setitem {A} (l : list A) (i : Z) (v : A) : option (list A) :=
  let n := Z.of_nat (length l) in
  if (0 <=? i) && (i <? n) then Some (<[Z.to_nat i := v]> l)
  else if (- n <=? i) && (i <? 0) then Some (<[Z.to_nat (n + i) := v]> l)
  else None.

(** [c.isspace()] for a character below 256: tab to carriage return, the
    four separators 28 to 31, the space, NEL and the no-break space. *)
Definition is_space (c : ascii) : bool :=
  let n := N_of_ascii c in
  (N.leb 9 n && N.leb n 13) || (N.leb 28 n && N.leb n 32)
  || N.eqb n 133 || N.eqb n 160.

Fixpoint lstrip (s : string) : string :=
  match s with
  | String c r => if is_space c then lstrip r else s
  | EmptyString => EmptyString
  end.

Fixpoint rstrip (s : string) : string :=
  match s with
  | String c r =>
      match rstrip r with
      | EmptyString => if is_space c then EmptyString else String c EmptyString
      | r' => String c r'
      end
  | EmptyString => EmptyString
  end.

(** [s.strip()] *)
Definition strip (s : string) : string := rstrip (lstrip s).

(** The longest prefix without white space, and what follows it. *)
Fixpoint field (s : string) : string * string :=
  match s with
  | String c r =>
      if is_space c then (EmptyString, s)
      else let '(w, rest) := field r in (String c w, rest)
  | EmptyString => (EmptyString, EmptyString)
  end.

(** [s.split(None, maxsplit)]: fields separated by runs of white space;
    once [maxsplit] fields are cut, what is left, without its leading white
    space, is the last element if it is not empty. *)
Fixpoint split_ws (maxsplit : nat) (s : string) : list string :=
  match lstrip s with
  | EmptyString => []
  | s' =>
      match maxsplit with
      | O => [s']
      | S k => let '(w, rest) := field s' in w :: split_ws k rest
      end
  end.

(** [s.split(sep, 1)] where [sep in s]: the text before the first [sep] and
    the text after it; [None] where [sep] does not occur. *)
Fixpoint split_once (sep : ascii) (s : string) : option (string * string) :=
  match s with
  | String c r =>
      if Ascii.eqb c sep then Some (EmptyString, r)
      else match split_once sep r with
           | Some (a, b) => Some (String c a, b)
           | None => None
           end
  | EmptyString => None
  end.

End Py.

(* ===================================================================== *)
(** ** Tokens and the lexer *)
(* ===================================================================== *)

(** [class Token]; the [line] field is never set by the program. *)
Record Token := mkToken { token_type : string; lexeme : string }.

(** [Token.__str__]: f"{self.token_type:<10} {self.lexeme}". *)
Definition Token_str (t : Token) : string :=
  Py.ljust 10 (token_type t) ++ " " ++ lexeme t.

Definition KEYWORDS : list string :=
  ["while"; "endwhile"; "if"; "endif"; "else";
   "integer"; "boolean"; "true"; "false";
   "return"; "print"; "scan"].
Definition OPERATORS : list string :=
  ["="; "+"; "-"; "*"; "/"; "<"; "<="; ">"; ">="; "=="; "!="; "=>"].
Definition SEPARATORS : list string :=
  ["("; ")"; "{"; "}"; ";"; ","; "["; "]"; "$$"].

Module Lex.

Definition chars := list ascii.

Fixpoint to_chars (s : string) : chars :=
  match s with
  | EmptyString => []
  | String c r => c :: to_chars r
  end.

Fixpoint of_chars (l : chars) : string :=
  match l with
  | [] => EmptyString
  | c :: r => String c (of_chars r)
  end.

Definition between (lo hi c : ascii) : bool :=
  (N.leb (N_of_ascii lo) (N_of_ascii c)) && (N.leb (N_of_ascii c) (N_of_ascii hi)).

(** [[a-zA-Z]], [[0-9]], [[a-zA-Z0-9_]] *)
Definition is_letter (c : ascii) : bool := between "a" "z" c || between "A" "Z" c.
Definition is_digit (c : ascii) : bool := between "0" "9" c.
Definition is_word (c : ascii) : bool :=
  is_letter c || is_digit c || Ascii.eqb c "_".
(** [[=+\-*/<>!]] and [[();,{}]] *)
Definition is_opchar (c : ascii) : bool :=
  existsb (Ascii.eqb c) ["="; "+"; "-"; "*"; "/"; "<"; ">"; "!"]%char.
Definition is_sepchar (c : ascii) : bool :=
  existsb (Ascii.eqb c) ["("; ")"; ";"; ","; "{"; "}"]%char.

(** Longest prefix of characters satisfying [p] (a greedy [p*]). *)
Fixpoint span (p : ascii -> bool) (l : chars) : chars * chars :=
  match l with
  | c :: r => if p c then let '(a, b) := span p r in (c :: a, b) else ([], l)
  | [] => ([], [])
  end.

(** One attempt of [token_pattern] at the head of [l]: the alternatives are
    tried in the order they are written and the first that matches wins.
      \$\$ | => | [a-zA-Z][a-zA-Z0-9_]* | [0-9]+\.[0-9]+ | [0-9]+
      | [=+\-*/<>!]=? | [();,{}]                                       *)
Definition match_token (l : chars) : option chars :=
  match l with
  | [] => None
  | c :: r =>
      if Ascii.eqb c "$" then
        match r with
        | c2 :: _ => if Ascii.eqb c2 "$" then Some [c; c2] else None
        | [] => None
        end
      else if Ascii.eqb c "=" && match r with c2 :: _ => Ascii.eqb c2 ">" | [] => false end
      then Some ["="; ">"]%char
      else if is_letter c then Some (c :: fst (span is_word r))
      else if is_digit c then
        let '(ds, rest) := span is_digit l in
        match rest with
        | dot :: rest' =>
            if Ascii.eqb dot "." then
              match span is_digit rest' with
              | ([], _) => Some ds
              | (fs, _) => Some (ds ++ dot :: fs)%list
              end
            else Some ds
        | [] => Some ds
        end
      else if is_opchar c then
        match r with
        | c2 :: _ => if Ascii.eqb c2 "=" then Some [c; c2] else Some [c]
        | [] => Some [c]
        end
      else if is_sepchar c then Some [c]
      else None
  end.

(** [re.findall(token_pattern, text)]: non-overlapping matches from left to
    right; a character at which no alternative matches is skipped.  [skip]
    counts the characters of the current match still to be passed. *)
Fixpoint findall (l : chars) (skip : nat) : list string :=
  match l with
  | [] => []
  | _ :: r =>
      match skip with
      | S k => findall r k
      | O =>
          match match_token l with
          | Some w => of_chars w :: findall r (length w - 1)
          | None => findall r 0
          end
      end
  end.

(** Number of characters from the head of [l] up to and including the first
    "*]" in it. *)
Fixpoint find_close (l : chars) : option nat :=
  match l with
  | [] => None
  | c :: r =>
      match r with
      | c2 :: _ =>
          if Ascii.eqb c "*" && Ascii.eqb c2 "]" then Some 2%nat
          else option_map S (find_close r)
      | [] => None
      end
  end.

(** [re.sub(COMMENT_RE, "", text)] with COMMENT_RE = \[\*.*?\*\] (DOTALL):
    at "[*" followed, anywhere later, by "*]", everything through the first
    such "*]" is removed. *)
Fixpoint strip_comments (l : chars) (skip : nat) : chars :=
  match l with
  | [] => []
  | c :: r =>
      match skip with
      | S k => strip_comments r k
      | O =>
          match r with
          | c2 :: r2 =>
              if Ascii.eqb c "[" && Ascii.eqb c2 "*" then
                match find_close r2 with
                | Some n => strip_comments r (S n)
                | None => c :: strip_comments r 0
                end
              else c :: strip_comments r 0
          | [] => [c]
          end
      end
  end.

(** [re.fullmatch] against the three classification patterns. *)
Definition full_identifier (w : string) : bool :=
  match to_chars w with
  | c :: r => is_letter c && forallb is_word r
  | [] => false
  end.
Definition full_integer (w : string) : bool :=
  match to_chars w with
  | [] => false
  | l => forallb is_digit l
  end.
Definition full_real (w : string) : bool :=
  match span is_digit (to_chars w) with
  | (_ :: _, dot :: fs) =>
      Ascii.eqb dot "." && match fs with [] => false | _ => forallb is_digit fs end
  | _ => false
  end.

Definition classify (word : string) : Token :=
  if Py.mem word KEYWORDS then mkToken "keyword" word
  else if Py.mem word OPERATORS then mkToken "operator" word
  else if Py.mem word SEPARATORS then mkToken "separator" word
  else if full_identifier word then mkToken "identifier" word
  else if full_integer word then mkToken "integer" word
  else if full_real word then mkToken "real" word
  else mkToken "unknown" word.

End Lex.

Definition lexer (source_code : string) : list Token :=
  let text := Lex.strip_comments (Lex.to_chars source_code) 0 in
  map Lex.classify (Lex.findall text 0).

(* ===================================================================== *)
(** ** Compiler state and the exception monad *)
(* ===================================================================== *)

(** An operand passed to [emit]: an integer (literal, address, label) or a
    name.  [Arg_str] is Python's [str(a)]. *)
Inductive Arg := AInt (z : Z) | AStr (s : string).

Definition Arg_str (a : Arg) : string :=
  match a with
  | AInt z => Py.str_int z
  | AStr s => s
  end.

(** The module globals and the fields of the [Parser] object.
    [symbol_table] is a Python dict: keys are unique and iteration follows
    insertion order, so it is an association list in insertion order.
    [current_token] is not a field here: the program keeps it equal to
    [tokens[current_token_index]], or [None] past the end. *)
Record State := mkState {
  tokens : list Token;
  current_token_index : nat;
  symbol_table : list (string * (Z * string));
  Memory_Address : Z;
  instructions : list (option string);
  instr_ptr : Z
}.

Definition MAX_INSTR : nat := 1000.

(** The reset at the top of each test case in [main], followed by
    [Parser(tokens)]. *)
Definition reset (toks : list Token) : State :=
  {| tokens := toks; current_token_index := 0;
     symbol_table := []; Memory_Address := 10000;
     instructions := replicate MAX_INSTR None; instr_ptr := 1 |}.

(** Python exceptions the program can raise.  [Exception] is the generic one
    raised by [Parser.error] and [insert_identifier], with its message. *)
Inductive Exn :=
| Exception (message : string)
| KeyError (key : string)
| IndexError
| AttributeError
| ValueError.

Inductive Result (A : Type) :=
| Ok (a : A) (s : State)
| Raise (e : Exn) (s : State)
| OutOfFuel.
Arguments Ok {A} a s.
Arguments Raise {A} e s.
Arguments OutOfFuel {A}.

Definition M (A : Type) : Type := State -> Result A.

Definition ret {A} (a : A) : M A := fun s => Ok a s.
Definition bind {A B} (m : M A) (k : A -> M B) : M B :=
  fun s => match m s with
           | Ok a s' => k a s'
           | Raise e s' => Raise e s'
           | OutOfFuel => OutOfFuel
           end.
Definition raise {A} (e : Exn) : M A := fun s => Raise e s.
Definition out_of_fuel {A} : M A := fun _ => OutOfFuel.
Definition gets {A} (f : State -> A) : M A := fun s => Ok (f s) s.
Definition modify (f : State -> State) : M unit := fun s => Ok tt (f s).

Declare Scope py_scope.
Delimit Scope py_scope with py.
Notation "x <- m ;; k" := (bind m (fun x => k))
  (at level 100, m at next level, k at level 200, right associativity) : py_scope.
Notation "m ;; k" := (bind m (fun _ => k))
  (at level 100, k at level 200, right associativity) : py_scope.
Bind Scope py_scope with M.
Local Open Scope py_scope.

(** [while c: body], at most [fuel] tests of the condition. *)
Fixpoint while_ (fuel : nat) (c : State -> bool) (body : M unit) : M unit :=
  match fuel with
  | O => out_of_fuel
  | S fuel' => fun s => if c s then (body ;; while_ fuel' c body) s else Ok tt s
  end.

(* ===================================================================== *)
(** ** Instruction stream *)
(* ===================================================================== *)

(** The text [emit] stores in the slot. *)
Definition instr_text (ip : Z) (op : string) (args : list Arg)
    (comment : option string) : string :=
  Py.join "  "
    ([Py.rjust 4 (Py.str_int ip); Py.ljust 6 op]
     ++ (match args with [] => [] | _ => [Py.join " " (map Arg_str args)] end)
     ++ (match comment with
         | Some c => if String.eqb c "" then [] else [("; " ++ c)%string]
         | None => []
         end))%list.

Definition set_instruction (i : Z) (text : string) : M unit :=
  fun s => match Py.setitem (instructions s) i (Some text) with
           | Some l => Ok tt (mkState (tokens s) (current_token_index s)
                                (symbol_table s) (Memory_Address s) l (instr_ptr s))
           | None => Raise IndexError s
           end.

Definition emit (op : string) (args : list Arg) (comment : option string) : M unit :=
  ip <- gets instr_ptr ;;
  set_instruction (ip - 1) (instr_text ip op args comment) ;;
  modify (fun s => mkState (tokens s) (current_token_index s) (symbol_table s)
                     (Memory_Address s) (instructions s) (instr_ptr s + 1)).

(** The text the back-patch in [while_statement] stores:
    f"{patch_slot} JMP0 {exit_target}". *)
Definition patch_text (patch_slot exit_target : Z) : string :=
  Py.str_int patch_slot ++ " JMP0 " ++ Py.str_int exit_target.

(* ===================================================================== *)
(** ** Symbol table *)
(* ===================================================================== *)

Fixpoint dict_get {V} (d : list (string * V)) (k : string) : option V :=
  match d with
  | [] => None
  | (k', v) :: r => if String.eqb k k' then Some v else dict_get r k
  end.

(** [d[k] = v]: an existing key keeps its place, a new key goes last. *)
Fixpoint dict_set {V} (d : list (string * V)) (k : string) (v : V) : list (string * V) :=
  match d with
  | [] => [(k, v)]
  | (k', v') :: r => if String.eqb k k' then (k', v) :: r else (k', v') :: dict_set r k v
  end.

Definition is_declared_in {V} (d : list (string * V)) (lexeme : string) : bool :=
  match dict_get d lexeme with Some _ => true | None => false end.

Definition is_declared (lexeme : string) : M bool :=
  gets (fun s => is_declared_in (symbol_table s) lexeme).

Definition insert_identifier (lexeme var_type : string) : M unit :=
  declared <- is_declared lexeme ;;
  if declared then
    raise (Exception ("Semantic Error: Identifier '" ++ lexeme ++ "' is already declared."))
  else
    modify (fun s => mkState (tokens s) (current_token_index s)
                       (dict_set (symbol_table s) lexeme (Memory_Address s, var_type))
                       (Memory_Address s + 1) (instructions s) (instr_ptr s)).

(** [symbol_table[name][0]] *)
Definition lookup_address (name : string) : M Z :=
  fun s => match dict_get (symbol_table s) name with
           | Some (addr, _) => Ok addr s
           | None => Raise (KeyError name) s
           end.

(* ===================================================================== *)
(** ** The parser *)
(* ===================================================================== *)

Definition current_token (s : State) : option Token :=
  tokens s !! current_token_index s.

(** [str(self.current_token)] *)
Definition found_str (t : option Token) : string :=
  match t with
  | Some t => Token_str t
  | None => "None"
  end.

Definition is_tok (ty lx : string) (t : Token) : bool :=
  String.eqb (token_type t) ty && String.eqb (lexeme t) lx.

(** [self.current_token and self.current_token.token_type == ty and
     self.current_token.lexeme in lexemes] *)
Definition at_token (ty : string) (lexemes : list string) (s : State) : bool :=
  match current_token s with
  | Some t => String.eqb (token_type t) ty && Py.mem (lexeme t) lexemes
  | None => false
  end.

Module Parser.

Definition advance : M unit :=
  modify (fun s => mkState (tokens s) (current_token_index s + 1) (symbol_table s)
                     (Memory_Address s) (instructions s) (instr_ptr s)).

Definition error {A} (message : string) : M A :=
  fun s =>
    Raise (Exception ("Syntax Error: " ++ message ++ " (at token index "
                      ++ Py.str_int (Z.of_nat (current_token_index s)) ++ ": "
                      ++ found_str (current_token s) ++ ")")) s.

(** An attribute read on [self.current_token]: [AttributeError] on [None]. *)
Definition current : M Token :=
  fun s => match current_token s with
           | Some t => Ok t s
           | None => Raise AttributeError s
           end.

Definition match_ (expected_type : string) (expected_lexeme : option string) : M unit :=
  cur <- gets current_token ;;
  idx <- gets current_token_index ;;
  let ok :=
    match cur with
    | Some t =>
        String.eqb (token_type t) expected_type
        && match expected_lexeme with
           | None => true
           | Some l => String.eqb (lexeme t) l
           end
    | None => false
    end in
  if ok then advance
  else
    error ("Expected " ++ expected_type
           ++ (match expected_lexeme with
               | Some l => if String.eqb l "" then "" else " '" ++ l ++ "'"
               | None => ""
               end)
           ++ ", found " ++ found_str cur
           ++ (if Nat.eqb idx 0
                  && match expected_lexeme with Some l => String.eqb l "$$" | None => false end
               then ". The program must begin with the '$$' delimiter."
               else "")).

Definition undeclared_message (name : string) : string :=
  "Semantic Error: Identifier '" ++ name ++ "' used without declaration.".

(** [ids]: the [while True] loop ends at the [break]. *)
Fixpoint ids (fuel : nat) (var_type : option string) : M unit :=
  match fuel with
  | O => out_of_fuel
  | S fuel' =>
      cur <- gets current_token ;;
      match cur with
      | Some t =>
          if String.eqb (token_type t) "identifier" then
            let name := lexeme t in
            match var_type with
            | Some (String c r) => insert_identifier name (String c r)
            | _ =>
                declared <- is_declared name ;;
                if declared then ret tt else error (undeclared_message name)
            end ;;
            match_ "identifier" None
          else error "Expected identifier"
      | None => error "Expected identifier"
      end ;;
      cur <- gets current_token ;;
      match cur with
      | Some t =>
          if is_tok "separator" "," t
          then match_ "separator" (Some ",") ;; ids fuel' var_type
          else ret tt
      | None => ret tt
      end
  end.

Definition qualifier : M unit :=
  t <- current ;;
  if Py.mem (lexeme t) ["integer"; "boolean"] then match_ "keyword" None
  else error "Expected type qualifier".

Definition declaration (fuel : nat) : M unit :=
  t <- current ;;
  let var_type := lexeme t in
  qualifier ;;
  ids fuel (Some var_type).

Definition declaration_list (fuel : nat) : M unit :=
  declaration fuel ;;
  match_ "separator" (Some ";") ;;
  while_ fuel (at_token "keyword" ["integer"; "boolean"; "real"])
    (declaration fuel ;; match_ "separator" (Some ";")).

Definition opt_declaration_list (fuel : nat) : M unit :=
  here <- gets (at_token "keyword" ["integer"; "boolean"]) ;;
  if here then declaration_list fuel else ret tt.

(** The arithmetic instruction after the right operand; an operator outside
    the four emits nothing. *)
Definition emit_arith (op : string) : M unit :=
  if String.eqb op "+" then emit "A" [] None
  else if String.eqb op "-" then emit "S" [] None
  else if String.eqb op "*" then emit "M" [] None
  else if String.eqb op "/" then emit "D" [] None
  else ret tt.

Fixpoint expression (fuel : nat) : M unit :=
  match fuel with
  | O => out_of_fuel
  | S fuel' =>
      t <- current ;;
      (if String.eqb (token_type t) "integer" then
         match Py.int_of_digits (lexeme t) with
         | Some val => match_ "integer" None ;; emit "PUSHI" [AInt val] None
         | None => raise ValueError
         end
       else if String.eqb (token_type t) "identifier" then
         let name := lexeme t in
         declared <- is_declared name ;;
         (if declared then ret tt else error (undeclared_message name)) ;;
         addr <- lookup_address name ;;
         match_ "identifier" None ;;
         emit "PUSHM" [AInt addr] None
       else if String.eqb (token_type t) "keyword"
               && Py.mem (lexeme t) ["true"; "false"] then
         let lit := if String.eqb (lexeme t) "true" then 1 else 0 in
         match_ "keyword" None ;;
         emit "PUSHI" [AInt lit] None
       else
         error ("Syntax Error: Expected expression, found " ++ Token_str t)) ;;
      while_ fuel' (at_token "operator" ["+"; "-"; "*"; "/"])
        (t <- current ;;
         let op := lexeme t in
         match_ "operator" None ;;
         expression fuel' ;;
         emit_arith op)
  end.

(** [primary], [factor] and [term]: defined by the program, called by no
    routine that [parse_rat25s] reaches. *)
Definition primary (fuel : nat) : M unit :=
  cur <- gets current_token ;;
  match cur with
  | None => error "Unexpected end of input in primary"
  | Some t =>
      if String.eqb (token_type t) "identifier" then
        next <- gets (fun s => tokens s !! (current_token_index s + 1)%nat) ;;
        match next with
        | Some t' =>
            if is_tok "separator" "(" t' then
              match_ "identifier" None ;;
              match_ "separator" (Some "(") ;;
              ids fuel None ;;
              match_ "separator" (Some ")")
            else match_ "identifier" None
        | None => match_ "identifier" None
        end
      else if String.eqb (token_type t) "integer" then match_ "integer" None
      else if String.eqb (token_type t) "real" then match_ "real" None
      else if String.eqb (token_type t) "keyword"
              && Py.mem (lexeme t) ["true"; "false"] then match_ "keyword" None
      else if is_tok "separator" "(" t then
        match_ "separator" (Some "(") ;;
        expression fuel ;;
        match_ "separator" (Some ")")
      else error "Expected primary expression"
  end.

Definition factor (fuel : nat) : M unit :=
  cur <- gets current_token ;;
  match cur with
  | Some t =>
      if String.eqb (lexeme t) "-" then
        match_ "operator" (Some "-") ;;
        primary fuel ;;
        emit "NEG" [] (Some "unary -")
      else primary fuel
  | None => primary fuel
  end.

Definition term (fuel : nat) : M unit :=
  factor fuel ;;
  while_ fuel
    (fun s => match current_token s with
              | Some t => Py.mem (lexeme t) ["*"; "/"]
              | None => false
              end)
    (t <- current ;;
     let op := lexeme t in
     match_ "operator" None ;;
     factor fuel ;;
     emit (if String.eqb op "*" then "MUL" else "DIV") [] (Some ("op " ++ op))).

Definition cmp_map : list (string * string) :=
  [("<", "CMP_LT"); (">", "CMP_GT"); ("==", "CMP_EQ"); ("!=", "CMP_NE");
   ("<=", "CMP_LE"); (">=", "CMP_GE")].

Definition condition (fuel : nat) : M unit :=
  expression fuel ;;
  t <- current ;;
  let relop := lexeme t in
  match_ "operator" None ;;
  expression fuel ;;
  match dict_get cmp_map relop with
  | Some op => emit op [] (Some ("compare " ++ relop))
  | None => raise (KeyError relop)
  end.

Definition assignment (fuel : nat) : M unit :=
  t <- current ;;
  let var_name := lexeme t in
  match_ "identifier" None ;;
  match_ "operator" (Some "=") ;;
  expression fuel ;;
  match_ "separator" (Some ";") ;;
  emit "STO" [AStr var_name] (Some (var_name ++ " = <expr>")).

Definition scan_statement : M unit :=
  match_ "keyword" (Some "scan") ;;
  match_ "separator" (Some "(") ;;
  t <- current ;;
  let scanned_name := lexeme t in
  match_ "identifier" None ;;
  match_ "separator" (Some ")") ;;
  match_ "separator" (Some ";") ;;
  addr <- lookup_address scanned_name ;;
  emit "SIN" [] None ;;
  emit "POPM" [AInt addr] None.

Definition print_statement (fuel : nat) : M unit :=
  match_ "keyword" (Some "print") ;;
  match_ "separator" (Some "(") ;;
  expression fuel ;;
  match_ "separator" (Some ")") ;;
  match_ "separator" (Some ";") ;;
  emit "SOUT" [] None.

Definition return_statement (fuel : nat) : M unit :=
  match_ "keyword" (Some "return") ;;
  cur <- gets current_token ;;
  match cur with
  | Some t => if String.eqb (lexeme t) ";" then ret tt else expression fuel
  | None => ret tt
  end ;;
  match_ "separator" (Some ";").

(** [self.current_token and self.current_token.lexeme not in terminators] *)
Definition more_statements (terminators : list string) (s : State) : bool :=
  match current_token s with
  | Some t => negb (Py.mem (lexeme t) terminators)
  | None => false
  end.

Fixpoint statement (fuel : nat) : M unit :=
  match fuel with
  | O => out_of_fuel
  | S fuel' =>
      t <- current ;;
      if is_tok "separator" "{" t then compound_statement fuel'
      else if String.eqb (token_type t) "keyword" then
        if String.eqb (lexeme t) "if" then if_statement fuel'
        else if String.eqb (lexeme t) "while" then while_statement fuel'
        else if String.eqb (lexeme t) "return" then return_statement fuel'
        else if String.eqb (lexeme t) "print" then print_statement fuel'
        else if String.eqb (lexeme t) "scan" then scan_statement
        else error ("Unexpected keyword in statement: " ++ lexeme t)
      else if String.eqb (token_type t) "identifier" then assignment fuel'
      else error ("Unexpected token in statement: " ++ Token_str t)
  end

with statement_list (fuel : nat) (terminators : list string) : M unit :=
  match fuel with
  | O => out_of_fuel
  | S fuel' => while_ fuel' (more_statements terminators) (statement fuel')
  end

with compound_statement (fuel : nat) : M unit :=
  match fuel with
  | O => out_of_fuel
  | S fuel' =>
      match_ "separator" (Some "{") ;;
      statement_list fuel' ["}"] ;;
      match_ "separator" (Some "}")
  end

with while_statement (fuel : nat) : M unit :=
  match fuel with
  | O => out_of_fuel
  | S fuel' =>
      match_ "keyword" (Some "while") ;;
      match_ "separator" (Some "(") ;;
      condition fuel' ;;
      match_ "separator" (Some ")") ;;
      start_label <- gets instr_ptr ;;
      emit "LABEL" [] None ;;
      patch_slot <- gets instr_ptr ;;
      emit "JMP0" [AInt 0] None ;;
      match_ "separator" (Some "{") ;;
      statement_list fuel' ["}"] ;;
      match_ "separator" (Some "}") ;;
      emit "JMP" [AInt start_label] None ;;
      exit_target <- gets instr_ptr ;;
      set_instruction (patch_slot - 1) (patch_text patch_slot exit_target) ;;
      match_ "keyword" (Some "endwhile")
  end

with if_statement (fuel : nat) : M unit :=
  match fuel with
  | O => out_of_fuel
  | S fuel' =>
      match_ "keyword" (Some "if") ;;
      match_ "separator" (Some "(") ;;
      condition fuel' ;;
      match_ "separator" (Some ")") ;;
      statement fuel' ;;
      cur <- gets current_token ;;
      match cur with
      | Some t =>
          if String.eqb (lexeme t) "else"
          then match_ "keyword" (Some "else") ;; statement fuel'
          else ret tt
      | None => ret tt
      end ;;
      match_ "keyword" (Some "endif")
  end.

Definition at_delimiter : State -> bool := at_token "separator" ["$$"].

Definition parse_rat25s (fuel : nat) : M unit :=
  match_ "separator" (Some "$$") ;;
  while_ fuel at_delimiter (match_ "separator" (Some "$$")) ;;
  opt_declaration_list fuel ;;
  here <- gets at_delimiter ;;
  (if here then match_ "separator" (Some "$$") else ret tt) ;;
  statement_list fuel ["$$"] ;;
  match_ "separator" (Some "$$").

End Parser.

(** One compilation run of [main] on an already tokenized program: reset,
    build the parser, parse.  The fuel is the bound of [parse_total]. *)
Definition run_fuel (toks : list Token) : nat := 3 * length toks + 8.

Definition run (toks : list Token) : Result unit :=
  Parser.parse_rat25s (run_fuel toks) (reset toks).

Definition compile (source_code : string) : Result unit := run (lexer source_code).

(** The instructions emitted so far: slots [0 .. instr_ptr - 2]. *)
Definition code (s : State) : list (option string) :=
  take (Z.to_nat (instr_ptr s - 1)) (instructions s).

(* ===================================================================== *)
(** ** Vocabulary of the statements *)
(* ===================================================================== *)

(** From here on [++] is list concatenation. *)
Local Open Scope list_scope.

(** What holds of the state a computation stops in, whether it returns or
    raises. *)
Definition post {A} (Q : A -> State -> Prop) (E : State -> Prop) (r : Result A) : Prop :=
  match r with
  | Ok a s => Q a s
  | Raise _ s => E s
  | OutOfFuel => True
  end.

(** [keeps I m]: from a state in [I], [m] stops in a state in [I]. *)
Definition keeps (I : State -> Prop) {A} (m : M A) : Prop :=
  forall s, I s -> post (fun _ => I) I (m s).

(** [evolves s0 s]: [s] can follow [s0] in a run.  The tokens are the same,
    the cursor and the program counter have not moved back, the symbol table
    has only grown at its end, and the instructions emitted before [s0] are
    untouched. *)
Record evolves (s0 s : State) : Prop := {
  ev_tokens : tokens s = tokens s0;
  ev_index : (current_token_index s0 <= current_token_index s)%nat;
  ev_index_end :
    (current_token_index s0 <= length (tokens s0) ->
     current_token_index s <= length (tokens s0))%nat;
  ev_table : symbol_table s0 `prefix_of` symbol_table s;
  ev_length : length (instructions s) = length (instructions s0);
  ev_ptr : instr_ptr s0 <= instr_ptr s;
  ev_room :
    instr_ptr s0 - 1 <= Z.of_nat (length (instructions s0)) ->
    instr_ptr s - 1 <= Z.of_nat (length (instructions s0));
  ev_frame : take (Z.to_nat (instr_ptr s0 - 1)) (instructions s) = code s0
}.

Definition addresses (s : State) : list Z :=
  map (fun entry => fst (snd entry)) (symbol_table s).

(** The addresses in the table, in insertion order, are 10000, 10001, ...,
    and [Memory_Address] is the next one. *)
Definition table_ok (s : State) : Prop :=
  addresses s = seqZ 10000 (Z.of_nat (length (symbol_table s)))
  /\ Memory_Address s = 10000 + Z.of_nat (length (symbol_table s)).

Definition remaining (s : State) : nat := length (tokens s) - current_token_index s.

(** [tame b m]: with at most [b] tokens left, [m] does not run out of fuel
    and does not give tokens back.  [eats b m]: moreover a successful [m]
    consumes at least one token. *)
Definition tame (b : nat) {A} (m : M A) : Prop :=
  forall s, (remaining s <= b)%nat ->
    match m s with
    | Ok _ s' => (remaining s' <= remaining s)%nat
    | Raise _ _ => True
    | OutOfFuel => False
    end.

Definition eats (b : nat) {A} (m : M A) : Prop :=
  forall s, (remaining s <= b)%nat ->
    match m s with
    | Ok _ s' => (remaining s' < remaining s)%nat
    | Raise _ _ => True
    | OutOfFuel => False
    end.

(** The state a run stops in, whether it returned or raised. *)
Definition final_state {A} (r : Result A) : option State :=
  match r with
  | Ok _ s => Some s
  | Raise _ s => Some s
  | OutOfFuel => None
  end.

(** A state with the program counter inside the instruction array (or just
    past its end, when the array is full). *)
Definition wf (s : State) : Prop :=
  1 <= instr_ptr s <= Z.of_nat (length (instructions s)) + 1.

(** The state with the cursor moved [n] tokens on. *)
Definition skip (n : nat) (s : State) : State :=
  mkState (tokens s) (current_token_index s + n) (symbol_table s)
    (Memory_Address s) (instructions s) (instr_ptr s).

(** The state after [emit] wrote [text] at the program counter. *)
Definition emitted (text : string) (s : State) : State :=
  mkState (tokens s) (current_token_index s) (symbol_table s) (Memory_Address s)
    (<[Z.to_nat (instr_ptr s - 1) := Some text]> (instructions s)) (instr_ptr s + 1).



(** The tokens from the cursor on. *)
Definition upcoming (s : State) : list Token :=
  drop (current_token_index s) (tokens s).

(** The comparison instruction [condition] ends with. *)
Definition is_comparison (ip : Z) (text : string) : Prop :=
  exists relop cmp,
    dict_get Parser.cmp_map relop = Some cmp
    /\ text = instr_text ip cmp [] (Some ("compare " ++ relop)%string).

(** The expression grammar as the specification words it:
    Expression -> Primary { (+|-|*|/) Expression }, the right operand of an
    operator being a full expression. *)
Inductive Expr :=
| Operand (t : Token)
| Binary (left : Token) (op : Token) (right : Expr).

Fixpoint Expr_tokens (e : Expr) : list Token :=
  match e with
  | Operand t => [t]
  | Binary t op r => t :: op :: Expr_tokens r
  end.

Fixpoint Expr_operators (e : Expr) : nat :=
  match e with
  | Operand _ => 0
  | Binary _ _ r => S (Expr_operators r)
  end.

(** An instruction before it is numbered: opcode and operands. *)
Definition Proto : Type := string * list Arg.

(** The push of one operand, as the specification words it: an integer
    literal pushes its value, a declared identifier its address, `true` 1
    and `false` 0. *)
Definition operand_push (table : list (string * (Z * string))) (t : Token) : option Proto :=
  if String.eqb (token_type t) "integer" then
    match Py.int_of_digits (lexeme t) with
    | Some v => Some ("PUSHI", [AInt v])
    | None => None
    end
  else if String.eqb (token_type t) "identifier" then
    match dict_get table (lexeme t) with
    | Some (addr, _) => Some ("PUSHM", [AInt addr])
    | None => None
    end
  else if String.eqb (token_type t) "keyword" then
    if String.eqb (lexeme t) "true" then Some ("PUSHI", [AInt 1])
    else if String.eqb (lexeme t) "false" then Some ("PUSHI", [AInt 0])
    else None
  else None.

Definition arith_opcode (op : Token) : option string :=
  if String.eqb (token_type op) "operator" then
    if String.eqb (lexeme op) "+" then Some "A"
    else if String.eqb (lexeme op) "-" then Some "S"
    else if String.eqb (lexeme op) "*" then Some "M"
    else if String.eqb (lexeme op) "/" then Some "D"
    else None
  else None.

(** Code of an expression as the specification words it: the left operand,
    then the whole right expression, then the operator's instruction. *)
Fixpoint Expr_code (table : list (string * (Z * string))) (e : Expr) : option (list Proto) :=
  match e with
  | Operand t =>
      match operand_push table t with
      | Some p => Some [p]
      | None => None
      end
  | Binary t op r =>
      match operand_push table t, arith_opcode op, Expr_code table r with
      | Some p, Some a, Some c => Some (p :: c ++ [(a, [])])
      | _, _, _ => None
      end
  end.

Definition is_arith (p : Proto) : bool := Py.mem (fst p) ["A"; "S"; "M"; "D"].

(** The stored texts of a run of instructions numbered from [ip]. *)
Fixpoint listing (ip : Z) (l : list Proto) : list (option string) :=
  match l with
  | [] => []
  | (op, args) :: r => Some (instr_text ip op args None) :: listing (ip + 1) r
  end.

Definition starts_with_binop (l : list Token) : bool :=
  match l with
  | t :: _ => String.eqb (token_type t) "operator" && Py.mem (lexeme t) ["+"; "-"; "*"; "/"]
  | [] => false
  end.

(** The two inline parts of [Parser.expression], named for the proofs. *)
Definition expression_operand (t : Token) : M unit :=
  if String.eqb (token_type t) "integer" then
    match Py.int_of_digits (lexeme t) with
    | Some val => Parser.match_ "integer" None ;; emit "PUSHI" [AInt val] None
    | None => raise ValueError
    end
  else if String.eqb (token_type t) "identifier" then
    let name := lexeme t in
    declared <- is_declared name ;;
    (if declared then ret tt else Parser.error (Parser.undeclared_message name)) ;;
    addr <- lookup_address name ;;
    Parser.match_ "identifier" None ;;
    emit "PUSHM" [AInt addr] None
  else if String.eqb (token_type t) "keyword"
          && Py.mem (lexeme t) ["true"; "false"] then
    let lit := if String.eqb (lexeme t) "true" then 1 else 0 in
    Parser.match_ "keyword" None ;;
    emit "PUSHI" [AInt lit] None
  else
    Parser.error ("Syntax Error: Expected expression, found " ++ Token_str t)%string.

Definition expression_operator (fuel : nat) : M unit :=
  t <- Parser.current ;;
  let op := lexeme t in
  Parser.match_ "operator" None ;;
  Parser.expression fuel ;;
  Parser.emit_arith op.

(** `a * b + c` with a, b, c declared at 10000, 10001, 10002. *)
Definition abc_state : State :=
  {| tokens := lexer "a * b + c;"; current_token_index := 0;
     symbol_table := [("a", (10000, "integer")); ("b", (10001, "integer"));
                      ("c", (10002, "integer"))];
     Memory_Address := 10003;
     instructions := replicate MAX_INSTR None; instr_ptr := 1 |}.

Definition abc_expr : Expr :=
  Binary (mkToken "identifier" "a") (mkToken "operator" "*")
    (Binary (mkToken "identifier" "b") (mkToken "operator" "+")
       (Operand (mkToken "identifier" "c"))).

Definition abc_code : list Proto :=
  [("PUSHM", [AInt 10000]); ("PUSHM", [AInt 10001]); ("PUSHM", [AInt 10002]);
   ("A", []); ("M", [])].

(** A state at the head of a statement, with [i] declared and two
    instructions already emitted. *)
Definition at_statement (source : string) : State :=
  {| tokens := lexer source; current_token_index := 0;
     symbol_table := [("i", (10000, "integer"))]; Memory_Address := 10001;
     instructions :=
       [Some (instr_text 1 "PUSHI" [AInt 0] None);
        Some (instr_text 2 "STO" [AStr "i"] (Some "i = <expr>"))]
       ++ replicate (MAX_INSTR - 2) None;
     instr_ptr := 3 |}.

Definition after (m : M unit) (s : State) : State :=
  match m s with
  | Ok _ s' => s'
  | _ => s
  end.

Definition loop_state : State := at_statement "while (i < 3) { i = i + 1; } endwhile".
Definition loop_final : State := after (Parser.while_statement 20) loop_state.

Definition branch_state : State := at_statement "if (i < 3) i = 1; else i = 2; endif".
Definition branch_final : State := after (Parser.if_statement 20) branch_state.

Definition scan_state : State := at_statement "scan(j);".


(** [m2] agrees with [m1] wherever [m1] does not run out of fuel. *)
Definition extends {A} (m1 m2 : M A) : Prop :=
  forall s, m1 s <> OutOfFuel -> m2 s = m1 s.

(** The characters a lexeme can be made of: those of the seven alternatives
    of [token_pattern]. *)
Definition token_char (c : ascii) : bool :=
  Lex.is_word c || Ascii.eqb c "." || Ascii.eqb c "$"
  || Lex.is_opchar c || Lex.is_sepchar c.

(** The lexemes the classifier leaves as "unknown". *)
Definition unknown_lexemes : list string := ["!"; "+="; "-="; "*="; "/="].

(** The declared names, in declaration order. *)
Definition names (s : State) : list string := map fst (symbol_table s).

(** Every name is declared once, with the type `integer` or `boolean`. *)
Definition table_inv (s : State) : Prop :=
  NoDup (names s)
  /\ Forall (fun entry => snd (snd entry) = "integer" \/ snd (snd entry) = "boolean")
       (symbol_table s).

(** The instruction array keeps its length, the program counter stays within
    it (or just past its end) and every slot below the counter is written. *)
Definition stream_inv (n : nat) (s : State) : Prop :=
  length (instructions s) = n
  /\ 1 <= instr_ptr s <= Z.of_nat n + 1
  /\ Forall (fun slot => slot <> None) (code s).

(** A state whose instruction array, of three slots, is full. *)
Definition full_state : State :=
  {| tokens := lexer "x = 1;"; current_token_index := 0;
     symbol_table := [("x", (10000, "integer"))]; Memory_Address := 10001;
     instructions := [Some "a"; Some "b"; Some "c"]; instr_ptr := 4 |}.

(** [triple P m Q E]: from a state in [P], [m] returns [a] in a state in
    [Q a], or raises [e] in a state in [E e]. *)
Definition triple {A} (P : State -> Prop) (m : M A)
    (Q : A -> State -> Prop) (E : Exn -> State -> Prop) : Prop :=
  forall s, P s ->
    match m s with
    | Ok a s' => Q a s'
    | Raise e s' => E e s'
    | OutOfFuel => True
    end.

(** [guards I E m]: [m] keeps [I] when it returns and raises only what [E]
    allows. *)
Definition guards (I : State -> Prop) (E : Exn -> State -> Prop) {A} (m : M A) : Prop :=
  triple I m (fun _ => I) E.

(** An integer token whose lexeme [int] converts unless it is too long. *)
Definition digits_ok (t : Token) : Prop :=
  token_type t = "integer" -> Py.int_of_digits (lexeme t) = None ->
  (Py.int_max_str_digits < String.length (lexeme t))%nat.

(** A state whose instruction array, of three slots, has one slot left. *)
Definition nearly_full_state (source : string) : State :=
  {| tokens := lexer source; current_token_index := 0;
     symbol_table := [("x", (10000, "integer"))]; Memory_Address := 10001;
     instructions := [Some "a"; Some "b"; None]; instr_ptr := 3 |}.

(** The state a computation raises in. *)
Definition raised_in {A} (m : M A) (s : State) : State :=
  match m s with
  | Raise _ s' => s'
  | _ => s
  end.

(** The array has [n] slots and the program counter is within it, or just
    past its end. *)
Definition array_inv (n : nat) (s : State) : Prop :=
  length (instructions s) = n /\ 1 <= instr_ptr s <= Z.of_nat n + 1.

(** [IndexError] is raised only with the program counter past the last
    slot. *)
Definition index_error_when_full (n : nat) (e : Exn) (s : State) : Prop :=
  e = IndexError -> instr_ptr s = Z.of_nat n + 1.

(** Tokens consumed minus instructions emitted. *)
Definition slack (s : State) : Z := Z.of_nat (current_token_index s) - (instr_ptr s - 1).

(** [gains d r m]: [m] returns with the slack grown by at least [d], or
    raises with the slack grown by at least [r]. *)
Definition gains (d r : Z) {A} (m : M A) : Prop :=
  forall s,
    match m s with
    | Ok _ s' => slack s + d <= slack s'
    | Raise _ s' => slack s + r <= slack s'
    | OutOfFuel => True
    end.

(** The end of the text, or a space: where a lexeme can stop. *)
Definition boundary (r : Lex.chars) : Prop :=
  match r with
  | [] => True
  | c :: _ => c = " "%char
  end.

(* ===================================================================== *)
(** ** Printing the listing *)
(* ===================================================================== *)

(** One turn of the loop of [print_assembly] on a slot that is not empty:
    the line printed, or [None] where [parts[1]] raises [IndexError]. *)
Definition assembly_line (idx : nat) (raw : string) : option string :=
  match Py.split_ws 2 (Py.strip raw) with
  | _ :: op :: rest =>
      let tail := match rest with t :: _ => t | [] => "" end in
      let '(args, comment) :=
        match Py.split_once ";" tail with
        | Some (a, c) => (a, Py.strip c)
        | None => (tail, "")
        end in
      let args := Py.strip args in
      Some ("[" ++ Py.rjust 2 (Py.str_int (Z.of_nat idx + 1)) ++ "]   "
            ++ Py.ljust 7 op ++ Py.ljust 12 args
            ++ (if String.eqb comment "" then "" else "  ; " ++ comment))%string
  | _ => None
  end.

(** The loop of [print_assembly] over the slot indices: the lines printed
    and the exception that ended the loop, if one did. *)
Fixpoint assembly_loop (instrs : list (option string)) (idxs : list nat)
    : list string * option Exn :=
  match idxs with
  | [] => ([], None)
  | idx :: more =>
      match instrs !! idx with
      | None => ([], Some IndexError)
      | Some None => assembly_loop instrs more
      | Some (Some raw) =>
          if String.eqb raw "" then assembly_loop instrs more
          else
            match assembly_line idx raw with
            | None => ([], Some IndexError)
            | Some line =>
                let '(lines, e) := assembly_loop instrs more in (line :: lines, e)
            end
      end
  end.

(** [print_assembly]: the header, then one line for each slot below the
    program counter. *)
Definition print_assembly (s : State) : list string * option Exn :=
  let '(lines, e) :=
    assembly_loop (instructions s) (seq 0 (Z.to_nat (instr_ptr s - 1))) in
  (String "010"%char "Assembly Listing:" :: lines, e).

(** A text that [strip] leaves as it is, and that is not empty. *)
Definition clean (s : string) : Prop :=
  s <> EmptyString /\ Py.lstrip s = s /\ Py.rstrip s = s.

Fixpoint all_chars (p : ascii -> bool) (s : string) : bool :=
  match s with
  | String c r => p c && all_chars p r
  | EmptyString => true
  end.

Definition no_space (s : string) : bool := all_chars (fun c => negb (Py.is_space c)) s.

(** The operand and comment columns of a slot written by [emit]. *)
Definition args_text (args : list Arg) : string := Py.join " " (map Arg_str args).
Definition comment_text (comment : option string) : string :=
  match comment with
  | Some c => c
  | None => ""
  end.

(** The line [print_assembly] shows for slot [idx]. *)
Definition listing_line (idx : nat) (op args comment : string) : string :=
  ("[" ++ Py.rjust 2 (Py.str_int (Z.of_nat idx + 1)) ++ "]   "
   ++ Py.ljust 7 op ++ Py.ljust 12 args
   ++ (if String.eqb comment "" then "" else "  ; " ++ comment))%string.

(** What follows a field: nothing, or white space. *)
Definition field_end (rest : string) : Prop :=
  match rest with
  | String c _ => Py.is_space c = true
  | EmptyString => True
  end.

(** The characters of [str(n)] for an integer. *)
Definition numeral_char (c : ascii) : bool := Lex.is_digit c || Ascii.eqb c "-".

(** The opcodes the parser passes to [emit]. *)
Definition OPCODES : list string :=
  ["PUSHI"; "PUSHM"; "A"; "S"; "M"; "D"; "STO"; "SIN"; "POPM"; "SOUT";
   "LABEL"; "JMP0"; "JMP";
   "CMP_LT"; "CMP_GT"; "CMP_EQ"; "CMP_NE"; "CMP_LE"; "CMP_GE"].

Definition opcode (op : string) : Prop := Py.mem op OPCODES = true.

(** A slot text in which [print_assembly] finds a number and then one of
    the opcodes of the parser. *)
Definition printable (raw : string) : Prop :=
  exists n op rest, Py.split_ws 2 (Py.strip raw) = n :: op :: rest /\ opcode op.

Definition printable_slot (slot : option string) : Prop :=
  exists raw, slot = Some raw /\ printable raw.

(** The array has [n] slots, the program counter is within it (or just past
    its end) and every slot below the counter is printable. *)
Definition listing_inv (n : nat) (s : State) : Prop :=
  length (instructions s) = n
  /\ 1 <= instr_ptr s <= Z.of_nat n + 1
  /\ Forall printable_slot (code s).

(** A line of the listing for slot [idx]: its number, then one of the
    opcodes of the parser in a column of 7. *)
Definition numbered (idx : nat) (line : string) : Prop :=
  exists op rest,
    opcode op
    /\ line = ("[" ++ Py.rjust 2 (Py.str_int (Z.of_nat idx + 1)) ++ "]   "
               ++ Py.ljust 7 op ++ rest)%string.

(** The tokens of a list of identifiers separated by commas. *)
Fixpoint ids_tokens (names : list string) : list Token :=
  match names with
  | [] => []
  | [name] => [mkToken "identifier" name]
  | name :: more => mkToken "identifier" name :: mkToken "separator" "," :: ids_tokens more
  end.

(** The entries a declaration of [names] with type [ty] adds to the symbol
    table, the first at address [addr]. *)
Fixpoint entries (addr : Z) (ty : string) (names : list string)
    : list (string * (Z * string)) :=
  match names with
  | [] => []
  | name :: more => (name, (addr, ty)) :: entries (addr + 1) ty more
  end.

(** The state at the head of a declaration. *)
Definition declaring (source : string) : State := reset (lexer source).

(** What one successful attempt of [token_pattern] can return. *)
Inductive lexeme_shape : Lex.chars -> Prop :=
| shape_delimiter : lexeme_shape ["$"; "$"]%char
| shape_arrow : lexeme_shape ["="; ">"]%char
| shape_word c w :
    Lex.is_letter c = true -> forallb Lex.is_word w = true -> lexeme_shape (c :: w)
| shape_integer d ds :
    forallb Lex.is_digit (d :: ds) = true -> lexeme_shape (d :: ds)
| shape_real d ds f fs :
    forallb Lex.is_digit (d :: ds) = true -> forallb Lex.is_digit (f :: fs) = true ->
    lexeme_shape ((d :: ds) ++ "."%char :: f :: fs)
| shape_op c : Lex.is_opchar c = true -> lexeme_shape [c]
| shape_op_eq c : Lex.is_opchar c = true -> lexeme_shape [c; "="%char]
| shape_sep c : Lex.is_sepchar c = true -> lexeme_shape [c].

(* ===================================================================== *)
(** ** Printing the symbol table *)
(* ===================================================================== *)

(** f"{lexeme:<15}{addr:<18}{var_type}" *)
Definition symbol_table_row (entry : string * (Z * string)) : string :=
  let '(lexeme, (addr, var_type)) := entry in
  (Py.ljust 15 lexeme ++ Py.ljust 18 (Py.str_int addr) ++ var_type)%string.

(** [print_symbol_table]: the three header lines, then one row for each
    entry, in the order of the dict. *)
Definition print_symbol_table (s : State) : list string :=
  [String "010"%char "Symbol Table:";
   "Identifier      Memory Address     Type";
   "----------------------------------------"]
  ++ map symbol_table_row (symbol_table s).

(** A program whose one integer literal has 4301 digits. *)
Definition long_integer_source : string :=
  "$$ integer x; $$ x = " ++ Lex.of_chars (replicate 4301 "9"%char) ++ "; $$".

(** The tokens behind the cursor: those a run has consumed. *)
Definition consumed (s : State) : list Token :=
  take (current_token_index s) (tokens s).

(** The [KeyError] of [scan_statement]: `scan ( k ) ;` has just been
    consumed and [k] is not in the symbol table. *)
Definition scan_origin (k : string) (s : State) : Prop :=
  dict_get (symbol_table s) k = None
  /\ exists before,
       consumed s =
         before ++ [mkToken "keyword" "scan"; mkToken "separator" "(";
                    mkToken "identifier" k; mkToken "separator" ")";
                    mkToken "separator" ";"].

(** The [KeyError] of [condition]: `while (` or `if (` and two expressions
    with the operator token [k] between them have just been consumed, both
    expressions being ones the parser compiles with the symbol table of
    [s], and [k] is neither mapped by [cmp_map] nor arithmetic. *)
Definition condition_origin (k : string) (s : State) : Prop :=
  dict_get Parser.cmp_map k = None
  /\ Py.mem k ["+"; "-"; "*"; "/"] = false
  /\ exists before kw e1 e2 l1 l2,
       (kw = "while" \/ kw = "if")
       /\ Expr_code (symbol_table s) e1 = Some l1
       /\ Expr_code (symbol_table s) e2 = Some l2
       /\ consumed s =
            before ++ mkToken "keyword" kw :: mkToken "separator" "("
              :: Expr_tokens e1 ++ mkToken "operator" k :: Expr_tokens e2.

(** What a raised exception must satisfy if it is a [KeyError]. *)
Definition key_origin (e : Exn) (s : State) : Prop :=
  forall k, e = KeyError k -> scan_origin k s \/ condition_origin k s.

(* ===================================================================== *)
(** ** The lexer on examples *)
(* ===================================================================== *)

Example lexer_scenario_A :
  lexer "$$ integer x; $$ x = 5; print(x); $$" =
  [ mkToken "separator" "$$"; mkToken "keyword" "integer";
    mkToken "identifier" "x"; mkToken "separator" ";";
    mkToken "separator" "$$"; mkToken "identifier" "x";
    mkToken "operator" "="; mkToken "integer" "5"; mkToken "separator" ";";
    mkToken "keyword" "print"; mkToken "separator" "(";
    mkToken "identifier" "x"; mkToken "separator" ")";
    mkToken "separator" ";"; mkToken "separator" "$$" ].
Proof. vm_compute. reflexivity. Qed.

Example lexer_comments_and_reals :
  lexer "a[* c1 *]b 3.14 7. <= [*]x*] [* open" =
  [ mkToken "identifier" "ab";
    mkToken "real" "3.14"; mkToken "integer" "7";
    mkToken "operator" "<="; mkToken "operator" "*";
    mkToken "identifier" "open" ].
Proof. vm_compute. reflexivity. Qed.

(* ===================================================================== *)
(** ** Reasoning about monadic programs *)
(* ===================================================================== *)

Lemma bind_Ok {A B} (m : M A) (k : A -> M B) s b s' :
  bind m k s = Ok b s' -> exists a s1, m s = Ok a s1 /\ k a s1 = Ok b s'.
Proof.
  unfold bind. destruct (m s) as [a s1| |]; try discriminate. eauto.
Qed.

Lemma gets_Ok {A} (f : State -> A) s a s' : gets f s = Ok a s' -> a = f s /\ s' = s.
Proof. unfold gets. intros H; inversion H; auto. Qed.

Lemma ret_Ok {A} (a b : A) s s' : ret a s = Ok b s' -> b = a /\ s' = s.
Proof. unfold ret. intros H; inversion H; auto. Qed.

(** Breaks a successful run of a sequence into its successful steps. *)
Ltac inv_ok :=
  repeat match goal with
    | H : bind _ _ _ = Ok _ _ |- _ =>
        let a := fresh "a" in let s := fresh "s" in
        let H1 := fresh "Hm" in let H2 := fresh "Hk" in
        apply bind_Ok in H; destruct H as (a & s & H1 & H2)
    | H : gets _ _ = Ok _ _ |- _ => apply gets_Ok in H; destruct H; subst
    | H : ret _ _ = Ok _ _ |- _ => apply ret_Ok in H; destruct H; subst
    | H : raise _ _ = Ok _ _ |- _ => discriminate H
    | H : out_of_fuel _ = Ok _ _ |- _ => discriminate H
    | u : unit |- _ => destruct u
    end.

Section Keeps.
Variable I : State -> Prop.

Lemma keeps_ret {A} (a : A) : keeps I (ret a).
Proof. intros s H; exact H. Qed.

Lemma keeps_raise {A} e : keeps I (@raise A e).
Proof. intros s H; exact H. Qed.

Lemma keeps_out_of_fuel {A} : keeps I (@out_of_fuel A).
Proof. intros s H; exact Logic.I. Qed.

Lemma keeps_gets {A} (f : State -> A) : keeps I (gets f).
Proof. intros s H; exact H. Qed.

Lemma keeps_bind {A B} (m : M A) (k : A -> M B) :
  keeps I m -> (forall a, keeps I (k a)) -> keeps I (bind m k).
Proof.
  intros Hm Hk s H. unfold bind. specialize (Hm s H).
  destruct (m s) as [a s1|e s1|]; simpl in *; auto. apply Hk; auto.
Qed.

(** A value read from the state may carry a pure fact along. *)
Lemma keeps_bind_gets {A B} (f : State -> A) (k : A -> M B) (phi : A -> Prop) :
  (forall s, I s -> phi (f s)) -> (forall a, phi a -> keeps I (k a)) ->
  keeps I (bind (gets f) k).
Proof. intros Hf Hk s H. unfold bind, gets. apply Hk; auto. Qed.

Lemma keeps_while fuel c body : keeps I body -> keeps I (while_ fuel c body).
Proof.
  intros Hb. induction fuel as [|n IH]; simpl.
  - apply keeps_out_of_fuel.
  - intros s H. destruct (c s).
    + apply (keeps_bind body (fun _ => while_ n c body)); auto.
    + exact H.
Qed.

Lemma keeps_current : keeps I Parser.current.
Proof. intros s H. unfold Parser.current. destruct (current_token s); exact H. Qed.

Lemma keeps_error {A} msg : keeps I (@Parser.error A msg).
Proof. intros s H; exact H. Qed.

Lemma keeps_lookup_address name : keeps I (lookup_address name).
Proof.
  intros s H. unfold lookup_address.
  destruct (dict_get (symbol_table s) name) as [[a t]|]; exact H.
Qed.

Lemma keeps_is_declared name : keeps I (is_declared name).
Proof. apply keeps_gets. Qed.

End Keeps.

(** One step of a [keeps] proof: split a sequence, close a leaf, or split on
    the scrutinee of a branch of the program. *)
Ltac keeps_leaf :=
  match goal with
  | |- keeps _ (ret _) => apply keeps_ret
  | |- keeps _ (raise _) => apply keeps_raise
  | |- keeps _ out_of_fuel => apply keeps_out_of_fuel
  | |- keeps _ (gets _) => apply keeps_gets
  | |- keeps _ Parser.current => apply keeps_current
  | |- keeps _ (Parser.error _) => apply keeps_error
  | |- keeps _ (lookup_address _) => apply keeps_lookup_address
  | |- keeps _ (is_declared _) => apply keeps_is_declared
  | H : keeps ?I ?m |- keeps ?I ?m => exact H
  end.

Ltac keeps_step :=
  match goal with
  | |- keeps _ (bind _ _) => apply keeps_bind; [ | intros; cbv beta zeta ]
  | |- keeps _ (while_ _ _ _) => apply keeps_while
  | |- keeps _ (if ?b then _ else _) => destruct b
  | |- keeps _ (match ?x with _ => _ end) => destruct x
  | |- keeps _ _ => keeps_leaf
  end.

(** ** Every parser routine keeps an invariant that its primitives keep.

    The primitives are [match_] (the only caller of [advance]), [emit],
    [insert_identifier] and the back-patch of [while_statement].  The back-patch writes the slot whose
    position was read from [instr_ptr] earlier; [G p] is what the invariant
    needs to know about such a position. *)
Section ParserKeeps.
Variable I : State -> Prop.
Variable G : Z -> Prop.
Hypothesis I_match : forall ty lx, keeps I (Parser.match_ ty lx).
Hypothesis I_emit : forall op args c, keeps I (emit op args c).
Hypothesis I_insert : forall name ty, keeps I (insert_identifier name ty).
Hypothesis I_reserve : forall s, I s -> G (instr_ptr s).
Hypothesis I_patch : forall p text, G p -> keeps I (set_instruction (p - 1) text).

Local Ltac prim :=
  match goal with
  | |- keeps _ (emit _ _ _) => apply I_emit
  | |- keeps _ (insert_identifier _ _) => apply I_insert
  | |- keeps _ (Parser.match_ _ _) => apply I_match
  end.
Local Ltac go := repeat first [ prim | keeps_step ].

Lemma keeps_ids fuel vt : keeps I (Parser.ids fuel vt).
Proof.
  induction fuel as [|n IH]; simpl; [apply keeps_out_of_fuel|].
  go; auto.
Qed.

Lemma keeps_qualifier : keeps I Parser.qualifier.
Proof. unfold Parser.qualifier. go; auto. Qed.

Lemma keeps_declaration fuel : keeps I (Parser.declaration fuel).
Proof.
  unfold Parser.declaration. go; auto using keeps_qualifier, keeps_ids.
Qed.

Lemma keeps_declaration_list fuel : keeps I (Parser.declaration_list fuel).
Proof.
  unfold Parser.declaration_list. go; auto using keeps_declaration.
Qed.

Lemma keeps_opt_declaration_list fuel : keeps I (Parser.opt_declaration_list fuel).
Proof.
  unfold Parser.opt_declaration_list. go; auto using keeps_declaration_list.
Qed.

Lemma keeps_emit_arith op : keeps I (Parser.emit_arith op).
Proof. unfold Parser.emit_arith. go. Qed.

Lemma keeps_expression fuel : keeps I (Parser.expression fuel).
Proof.
  induction fuel as [|n IH]; simpl; [apply keeps_out_of_fuel|].
  go; auto using keeps_emit_arith.
Qed.

Lemma keeps_condition fuel : keeps I (Parser.condition fuel).
Proof. unfold Parser.condition. go; auto using keeps_expression. Qed.

Lemma keeps_assignment fuel : keeps I (Parser.assignment fuel).
Proof. unfold Parser.assignment. go; auto using keeps_expression. Qed.

Lemma keeps_scan_statement : keeps I Parser.scan_statement.
Proof. unfold Parser.scan_statement. go; auto. Qed.

Lemma keeps_print_statement fuel : keeps I (Parser.print_statement fuel).
Proof. unfold Parser.print_statement. go; auto using keeps_expression. Qed.

Lemma keeps_return_statement fuel : keeps I (Parser.return_statement fuel).
Proof. unfold Parser.return_statement. go; auto using keeps_expression. Qed.

(** The five mutually recursive routines, by induction on the fuel. *)
Lemma keeps_statements fuel :
  keeps I (Parser.statement fuel)
  /\ (forall terms, keeps I (Parser.statement_list fuel terms))
  /\ keeps I (Parser.compound_statement fuel)
  /\ keeps I (Parser.while_statement fuel)
  /\ keeps I (Parser.if_statement fuel).
Proof.
  induction fuel as [|n (IHs & IHl & IHc & IHw & IHi)]; simpl.
  - repeat split; intros; apply keeps_out_of_fuel.
  - split; [|split; [|split; [|split]]].
    + go; auto using keeps_assignment, keeps_scan_statement,
        keeps_print_statement, keeps_return_statement.
    + intros terms. go; auto.
    + go; auto.
    + do 4 (apply keeps_bind; [auto using keeps_condition | intros _]).
      apply keeps_bind; [apply keeps_gets | intros start_label].
      apply keeps_bind; [apply I_emit | intros _].
      apply (keeps_bind_gets I _ _ G); [exact I_reserve | intros patch_slot HG].
      do 5 (apply keeps_bind; [auto | intros _]).
      apply keeps_bind; [apply keeps_gets | intros exit_target].
      apply keeps_bind; [apply I_patch; exact HG | intros _].
      auto.
    + go; auto using keeps_condition.
Qed.

Lemma keeps_statement_list fuel terms : keeps I (Parser.statement_list fuel terms).
Proof. apply keeps_statements. Qed.

Lemma keeps_parse_rat25s fuel : keeps I (Parser.parse_rat25s fuel).
Proof.
  unfold Parser.parse_rat25s.
  go; auto using keeps_opt_declaration_list, keeps_statement_list.
Qed.

End ParserKeeps.

(* ===================================================================== *)
(** ** How a run moves the state *)
(* ===================================================================== *)

Lemma setitem_Some {A} (l l' : list A) i v :
  Py.setitem l i v = Some l' ->
  length l' = length l
  /\ - Z.of_nat (length l) <= i < Z.of_nat (length l)
  /\ (0 <= i -> l' = <[Z.to_nat i := v]> l)
  /\ forall k : nat, Z.of_nat k <= Z.max 0 i -> take k l' = take k l.
Proof.
  unfold Py.setitem.
  destruct (Z.leb_spec 0 i), (Z.ltb_spec i (Z.of_nat (length l))),
    (Z.leb_spec (- Z.of_nat (length l)) i), (Z.ltb_spec i 0);
    simpl; intros Heq; inversion Heq; subst; try lia;
    rewrite length_insert; repeat split; try lia; intros k Hk.
  - apply take_insert_ge. lia.
  - assert (k = 0%nat) as -> by lia. reflexivity.
Qed.

Lemma setitem_in_range {A} (l : list A) i v :
  0 <= i < Z.of_nat (length l) -> Py.setitem l i v = Some (<[Z.to_nat i := v]> l).
Proof.
  intros [H1 H2]. unfold Py.setitem.
  destruct (Z.leb_spec 0 i); [|lia]. destruct (Z.ltb_spec i (Z.of_nat (length l))); [|lia].
  reflexivity.
Qed.

Lemma evolves_refl s : evolves s s.
Proof. split; auto; try lia; try reflexivity. Qed.

Lemma match_Ok ty lx s s' :
  Parser.match_ ty lx s = Ok tt s' ->
  exists t, current_token s = Some t
    /\ token_type t = ty
    /\ (forall l, lx = Some l -> lexeme t = l)
    /\ s' = mkState (tokens s) (current_token_index s + 1) (symbol_table s)
              (Memory_Address s) (instructions s) (instr_ptr s).
Proof.
  unfold Parser.match_, bind, gets. destruct (current_token s) as [t|]; simpl.
  - destruct (String.eqb_spec (token_type t) ty) as [Hty|]; simpl; [|discriminate].
    destruct lx as [l|].
    + destruct (String.eqb_spec (lexeme t) l) as [Hl|]; [|discriminate].
      intros H; inversion H. exists t. repeat split; auto. congruence.
    + intros H; inversion H. exists t. repeat split; auto. discriminate.
  - discriminate.
Qed.

Lemma match_Raise ty lx s e s' : Parser.match_ ty lx s = Raise e s' -> s' = s.
Proof.
  unfold Parser.match_, bind, gets, Parser.advance, modify, Parser.error.
  match goal with |- context [if ?b then _ else _] => destruct b end;
    intros H; inversion H; auto.
Qed.

Lemma match_not_out_of_fuel ty lx s : Parser.match_ ty lx s <> OutOfFuel.
Proof.
  unfold Parser.match_, bind, gets, Parser.advance, modify, Parser.error.
  match goal with |- context [if ?b then _ else _] => destruct b end; discriminate.
Qed.

Lemma current_token_length s t :
  current_token s = Some t -> (current_token_index s < length (tokens s))%nat.
Proof. unfold current_token. intros H. eapply lookup_lt_Some; eauto. Qed.

Section Evolves.
Variable s0 : State.

Lemma evolves_match ty lx : keeps (evolves s0) (Parser.match_ ty lx).
Proof.
  intros s H. destruct (Parser.match_ ty lx s) as [[] s'|e s'|] eqn:E; simpl; auto.
  - apply match_Ok in E. destruct E as (t & Ht & _ & _ & ->).
    apply current_token_length in Ht. destruct H. rewrite ev_tokens0 in Ht.
    split; simpl; auto; lia.
  - apply match_Raise in E. subst; auto.
Qed.

Lemma evolves_set_instruction p text :
  instr_ptr s0 <= p -> keeps (evolves s0) (set_instruction (p - 1) text).
Proof.
  intros Hp s H. unfold set_instruction.
  destruct (Py.setitem (instructions s) (p - 1) (Some text)) as [l|] eqn:E; simpl; auto.
  apply setitem_Some in E. destruct E as (Hlen & _ & _ & Htake). destruct H.
  split; simpl; auto; try congruence.
  rewrite Htake by lia. auto.
Qed.

Lemma evolves_emit op args c : keeps (evolves s0) (emit op args c).
Proof.
  intros s H. unfold emit, bind, gets, modify, set_instruction.
  destruct (Py.setitem (instructions s) (instr_ptr s - 1) _) as [l|] eqn:E; simpl; auto.
  apply setitem_Some in E. destruct E as (Hlen & Hrange & _ & Htake). destruct H.
  split; simpl; auto; try congruence; try lia.
  rewrite Htake by lia. auto.
Qed.

Lemma evolves_insert name ty : keeps (evolves s0) (insert_identifier name ty).
Proof.
  intros s H. unfold insert_identifier, bind, is_declared, gets, modify, raise.
  destruct (is_declared_in (symbol_table s) name) eqn:E; simpl; auto.
  destruct H. split; simpl; auto.
  etransitivity; [exact ev_table0|].
  unfold is_declared_in in E. clear -E.
  induction (symbol_table s) as [|[k v] d IH]; simpl in *.
  - apply prefix_nil.
  - destruct (String.eqb name k); [discriminate|].
    apply prefix_cons, IH, E.
Qed.

Lemma evolves_expression fuel : keeps (evolves s0) (Parser.expression fuel).
Proof. apply keeps_expression; auto using evolves_match, evolves_emit. Qed.

Lemma evolves_condition fuel : keeps (evolves s0) (Parser.condition fuel).
Proof. apply keeps_condition; auto using evolves_match, evolves_emit. Qed.

Lemma evolves_statements fuel :
  keeps (evolves s0) (Parser.statement fuel)
  /\ (forall terms, keeps (evolves s0) (Parser.statement_list fuel terms))
  /\ keeps (evolves s0) (Parser.compound_statement fuel)
  /\ keeps (evolves s0) (Parser.while_statement fuel)
  /\ keeps (evolves s0) (Parser.if_statement fuel).
Proof.
  apply keeps_statements with (G := fun p => instr_ptr s0 <= p);
    auto using evolves_match, evolves_emit, evolves_set_instruction.
  intros s H. apply H.
Qed.

Lemma evolves_parse_rat25s fuel : keeps (evolves s0) (Parser.parse_rat25s fuel).
Proof.
  apply keeps_parse_rat25s with (G := fun p => instr_ptr s0 <= p);
    auto using evolves_match, evolves_emit, evolves_insert, evolves_set_instruction.
  intros s H. apply H.
Qed.

End Evolves.

Lemma Ok_evolves {A} (m : M A) s a s' :
  (forall s0, keeps (evolves s0) m) -> m s = Ok a s' -> evolves s s'.
Proof. intros Hm E. specialize (Hm s s (evolves_refl s)). rewrite E in Hm. exact Hm. Qed.

Lemma Raise_evolves {A} (m : M A) s e s' :
  (forall s0, keeps (evolves s0) m) -> m s = Raise e s' -> evolves s s'.
Proof. intros Hm E. specialize (Hm s s (evolves_refl s)). rewrite E in Hm. exact Hm. Qed.

(* ===================================================================== *)
(** ** The symbol table along a run *)
(* ===================================================================== *)

Lemma dict_set_new {V} (d : list (string * V)) k v :
  dict_get d k = None -> dict_set d k v = d ++ [(k, v)].
Proof.
  induction d as [|[k' v'] d IH]; simpl; auto.
  destruct (String.eqb k k'); [discriminate|]. intros H. rewrite IH; auto.
Qed.

Lemma insert_identifier_Ok name ty s s' :
  insert_identifier name ty s = Ok tt s' ->
  dict_get (symbol_table s) name = None
  /\ s' = mkState (tokens s) (current_token_index s)
           (symbol_table s ++ [(name, (Memory_Address s, ty))])
           (Memory_Address s + 1) (instructions s) (instr_ptr s).
Proof.
  unfold insert_identifier, bind, is_declared, gets, is_declared_in, modify, raise.
  destruct (dict_get (symbol_table s) name) eqn:E; [discriminate|].
  intros H; inversion H. rewrite dict_set_new by exact E. auto.
Qed.

Lemma insert_identifier_Raise name ty s e s' :
  insert_identifier name ty s = Raise e s' ->
  s' = s /\ is_declared_in (symbol_table s) name = true.
Proof.
  unfold insert_identifier, bind, is_declared, gets, modify, raise.
  destruct (is_declared_in (symbol_table s) name); intros H; inversion H; auto.
Qed.

Lemma table_ok_reset toks : table_ok (reset toks).
Proof. split; reflexivity. Qed.

Lemma table_ok_same s s' :
  symbol_table s' = symbol_table s -> Memory_Address s' = Memory_Address s ->
  table_ok s -> table_ok s'.
Proof. unfold table_ok, addresses. intros -> ->. auto. Qed.

Lemma table_ok_match ty lx : keeps table_ok (Parser.match_ ty lx).
Proof.
  intros s H. destruct (Parser.match_ ty lx s) as [[] s'|e s'|] eqn:E; simpl; auto.
  - apply match_Ok in E. destruct E as (t & _ & _ & _ & ->). exact H.
  - apply match_Raise in E. subst; auto.
Qed.

Lemma table_ok_set_instruction i text : keeps table_ok (set_instruction i text).
Proof.
  intros s H. unfold set_instruction.
  destruct (Py.setitem (instructions s) i (Some text)); simpl; exact H.
Qed.

Lemma table_ok_emit op args c : keeps table_ok (emit op args c).
Proof.
  intros s H. unfold emit, bind, gets, modify, set_instruction.
  destruct (Py.setitem (instructions s) (instr_ptr s - 1) _); simpl; exact H.
Qed.

Lemma table_ok_insert name ty : keeps table_ok (insert_identifier name ty).
Proof.
  intros s [Ha Hm].
  destruct (insert_identifier name ty s) as [[] s'|e s'|] eqn:E; simpl; auto.
  - apply insert_identifier_Ok in E. destruct E as [_ ->].
    unfold table_ok, addresses in *; simpl.
    rewrite map_app, length_app, Ha, Hm. simpl.
    replace (length (symbol_table s) + 1)%nat with (S (length (symbol_table s))) by lia.
    rewrite seqZ_S. split; [reflexivity|lia].
  - apply insert_identifier_Raise in E. destruct E as [-> _]. split; auto.
Qed.

Lemma table_ok_parse_rat25s fuel : keeps table_ok (Parser.parse_rat25s fuel).
Proof.
  apply keeps_parse_rat25s with (G := fun _ => True);
    auto using table_ok_match, table_ok_emit, table_ok_insert, table_ok_set_instruction.
Qed.

(* ===================================================================== *)
(** ** Termination: fuel proportional to the tokens left is enough *)
(* ===================================================================== *)

Section Tame.
Context {A B : Type}.

Lemma eats_tame b (m : M A) : eats b m -> tame b m.
Proof. intros H s Hs. specialize (H s Hs). destruct (m s); auto. lia. Qed.

Lemma tame_mono b b' (m : M A) : (b' <= b)%nat -> tame b m -> tame b' m.
Proof. intros Hb H s Hs. apply H. lia. Qed.

Lemma eats_mono b b' (m : M A) : (b' <= b)%nat -> eats b m -> eats b' m.
Proof. intros Hb H s Hs. apply H. lia. Qed.

Lemma tame_bind b (m : M A) (k : A -> M B) :
  tame b m -> (forall a, tame b (k a)) -> tame b (bind m k).
Proof.
  intros Hm Hk s Hs. unfold bind. specialize (Hm s Hs).
  destruct (m s) as [a s1| |]; auto.
  specialize (Hk a s1). destruct (k a s1); auto; [|apply Hk; lia].
  assert (remaining s0 <= remaining s1)%nat by (apply Hk; lia). lia.
Qed.

(** The first part consumes a token: the rest runs with fewer left. *)
Lemma eats_bind_l b (m : M A) (k : A -> M B) :
  eats b m -> (forall b' a, (S b' <= b)%nat -> tame b' (k a)) -> eats b (bind m k).
Proof.
  intros Hm Hk s Hs. unfold bind. specialize (Hm s Hs).
  destruct (m s) as [a s1| |]; auto.
  assert (S (remaining s1) <= b)%nat as Hb by lia.
  specialize (Hk (remaining s1) a Hb s1 (le_n _)).
  destruct (k a s1); auto. lia.
Qed.

Lemma eats_bind_r b (m : M A) (k : A -> M B) :
  tame b m -> (forall a, eats b (k a)) -> eats b (bind m k).
Proof.
  intros Hm Hk s Hs. unfold bind. specialize (Hm s Hs).
  destruct (m s) as [a s1| |]; auto.
  specialize (Hk a s1). destruct (k a s1); auto; [|apply Hk; lia].
  assert (remaining s0 < remaining s1)%nat by (apply Hk; lia). lia.
Qed.

Lemma tame_ret b (a : A) : tame b (ret a).
Proof. intros s _. simpl. lia. Qed.

Lemma tame_gets b (f : State -> A) : tame b (gets f).
Proof. intros s _. simpl. lia. Qed.

Lemma eats_raise b e : eats b (@raise A e).
Proof. intros s _. exact Logic.I. Qed.

Lemma eats_error b msg : eats b (@Parser.error A msg).
Proof. intros s _. exact Logic.I. Qed.

End Tame.

Lemma tame_current b : tame b Parser.current.
Proof. intros s _. unfold Parser.current. destruct (current_token s); auto. Qed.

Lemma tame_lookup_address b name : tame b (lookup_address name).
Proof.
  intros s _. unfold lookup_address.
  destruct (dict_get (symbol_table s) name) as [[a t]|]; auto.
Qed.

Lemma tame_set_instruction b i text : tame b (set_instruction i text).
Proof.
  intros s _. unfold set_instruction.
  destruct (Py.setitem (instructions s) i (Some text)); auto.
Qed.

Lemma tame_emit b op args c : tame b (emit op args c).
Proof.
  intros s _. unfold emit, bind, gets, modify, set_instruction.
  destruct (Py.setitem (instructions s) (instr_ptr s - 1) _); simpl; auto.
Qed.

Lemma tame_insert b name ty : tame b (insert_identifier name ty).
Proof.
  intros s _. unfold insert_identifier, bind, is_declared, gets, modify, raise.
  destruct (is_declared_in (symbol_table s) name); simpl; auto.
Qed.

Lemma eats_match b ty lx : eats b (Parser.match_ ty lx).
Proof.
  intros s _. destruct (Parser.match_ ty lx s) as [[] s'|e s'|] eqn:E; auto.
  - apply match_Ok in E. destruct E as (t & Ht & _ & _ & ->).
    apply current_token_length in Ht. unfold remaining; simpl. lia.
  - eapply match_not_out_of_fuel, E.
Qed.

Lemma tame_while n c body b :
  (b < n)%nat -> eats b body -> tame b (while_ n c body).
Proof.
  revert b. induction n as [|n IH]; intros b Hb Hbody; [lia|].
  intros s Hs. simpl. destruct (c s); [|lia].
  unfold bind. specialize (Hbody s Hs) as H1.
  destruct (body s) as [[] s1| |]; auto.
  assert (tame (remaining s1) (while_ n c body)) as Hw.
  { apply IH; [lia|]. eapply eats_mono; [|exact Hbody]. lia. }
  specialize (Hw s1 (le_n _)). destruct (while_ n c body s1); auto. lia.
Qed.

(** One step of a termination proof, chosen by the shape of the program. *)
Ltac tame_leaf :=
  match goal with
  | |- tame _ (ret _) => apply tame_ret
  | |- tame _ (gets _) => apply tame_gets
  | |- tame _ (is_declared _) => apply tame_gets
  | |- tame _ (raise _) => apply eats_tame, eats_raise
  | |- tame _ (Parser.error _) => apply eats_tame, eats_error
  | |- tame _ Parser.current => apply tame_current
  | |- tame _ (lookup_address _) => apply tame_lookup_address
  | |- tame _ (set_instruction _ _) => apply tame_set_instruction
  | |- tame _ (emit _ _ _) => apply tame_emit
  | |- tame _ (insert_identifier _ _) => apply tame_insert
  | |- tame _ (Parser.match_ _ _) => apply eats_tame, eats_match
  | |- eats _ (raise _) => apply eats_raise
  | |- eats _ (Parser.error _) => apply eats_error
  | |- eats _ (Parser.match_ _ _) => apply eats_match
  end.

Ltac tame_step :=
  match goal with
  | |- tame _ (bind _ _) => apply tame_bind; [ | intros; cbv beta zeta ]
  | |- eats _ (bind (Parser.match_ _ _) _) =>
      apply eats_bind_l; [ apply eats_match | intros; cbv beta zeta ]
  | |- eats _ (bind _ _) =>
      first [ apply eats_bind_r; [ solve [repeat tame_step] | intros; cbv beta zeta ]
            | apply eats_bind_l; [ | intros; cbv beta zeta ] ]
  | |- tame _ (if ?b then _ else _) => destruct b
  | |- eats _ (if ?b then _ else _) => destruct b
  | |- tame _ (match ?x with _ => _ end) => destruct x
  | |- eats _ (match ?x with _ => _ end) => destruct x
  | |- _ => tame_leaf
  end.

Lemma tame_ids fuel b vt : (b < fuel)%nat -> tame b (Parser.ids fuel vt).
Proof.
  revert b. induction fuel as [|n IH]; intros b Hb; [lia|]. simpl.
  apply tame_bind; [apply tame_gets|intros cur].
  apply eats_tame. apply eats_bind_l.
  - repeat tame_step.
  - intros b' _ Hb'. repeat tame_step. apply IH. lia.
Qed.

Lemma tame_declaration fuel b : (b < fuel)%nat -> tame b (Parser.declaration fuel).
Proof.
  intros Hb. unfold Parser.declaration, Parser.qualifier.
  repeat tame_step. apply tame_ids. lia.
Qed.

Lemma eats_declaration_item fuel b :
  (b < fuel)%nat ->
  eats b (bind (Parser.declaration fuel) (fun _ => Parser.match_ "separator" (Some ";"))).
Proof.
  intros Hb. apply eats_bind_r; [apply tame_declaration; lia|intros _]. apply eats_match.
Qed.

Lemma tame_opt_declaration_list fuel b :
  (b < fuel)%nat -> tame b (Parser.opt_declaration_list fuel).
Proof.
  intros Hb. unfold Parser.opt_declaration_list, Parser.declaration_list.
  repeat tame_step.
  - apply tame_declaration; lia.
  - apply tame_while; [lia|]. apply eats_declaration_item; lia.
Qed.

Lemma eats_expression fuel b : (b < fuel)%nat -> eats b (Parser.expression fuel).
Proof.
  revert b. induction fuel as [|n IH]; intros b Hb; [lia|]. simpl.
  apply eats_bind_r; [apply tame_current|intros t].
  apply eats_bind_l.
  - repeat tame_step.
  - intros b' _ Hb'. apply tame_while; [lia|].
    apply eats_bind_r; [apply tame_current|intros t'].
    apply eats_bind_l; [apply eats_match|intros b'' _ Hb''].
    apply tame_bind; [apply eats_tame, IH; lia|intros _].
    unfold Parser.emit_arith. repeat tame_step.
Qed.

Lemma eats_condition fuel b : (b < fuel)%nat -> eats b (Parser.condition fuel).
Proof.
  intros Hb. unfold Parser.condition.
  apply eats_bind_l; [apply eats_expression; lia|intros b' _ Hb'].
  repeat tame_step. apply eats_tame, eats_expression; lia.
Qed.

Lemma eats_assignment fuel b : (b < fuel)%nat -> eats b (Parser.assignment fuel).
Proof.
  intros Hb. unfold Parser.assignment.
  repeat tame_step. apply eats_tame, eats_expression; lia.
Qed.

Lemma eats_scan_statement b : eats b Parser.scan_statement.
Proof. unfold Parser.scan_statement. repeat tame_step. Qed.

Lemma eats_print_statement fuel b : (b < fuel)%nat -> eats b (Parser.print_statement fuel).
Proof.
  intros Hb. unfold Parser.print_statement.
  repeat tame_step. apply eats_tame, eats_expression; lia.
Qed.

Lemma eats_return_statement fuel b : (b < fuel)%nat -> eats b (Parser.return_statement fuel).
Proof.
  intros Hb. unfold Parser.return_statement.
  repeat tame_step. apply eats_tame, eats_expression; lia.
Qed.

(** The five mutually recursive routines: three units of fuel per token
    left cover the three calls between one statement and the next nested
    one. *)
Lemma eats_statements fuel :
  (forall b, (3 * b + 3 <= fuel)%nat -> eats b (Parser.statement fuel))
  /\ (forall b terms, (3 * b + 4 <= fuel)%nat -> tame b (Parser.statement_list fuel terms))
  /\ (forall b, (3 * b + 2 <= fuel)%nat -> eats b (Parser.compound_statement fuel))
  /\ (forall b, (3 * b + 2 <= fuel)%nat -> eats b (Parser.while_statement fuel))
  /\ (forall b, (3 * b + 2 <= fuel)%nat -> eats b (Parser.if_statement fuel)).
Proof.
  induction fuel as [|n (IHs & IHl & IHc & IHw & IHi)].
  - repeat split; intros; lia.
  - split; [|split; [|split; [|split]]]; simpl.
    + intros b Hb. apply eats_bind_r; [apply tame_current|intros t].
      repeat tame_step;
        first [ apply IHc | apply IHi | apply IHw | apply eats_return_statement
              | apply eats_print_statement | apply eats_scan_statement
              | apply eats_assignment ]; lia.
    + intros b terms Hb. apply tame_while; [lia|]. apply IHs; lia.
    + intros b Hb. repeat tame_step. apply IHl; lia.
    + intros b Hb. repeat tame_step.
      * apply eats_tame, eats_condition; lia.
      * apply IHl; lia.
    + intros b Hb. repeat tame_step.
      * apply eats_tame, eats_condition; lia.
      * apply eats_tame, IHs; lia.
      * apply eats_tame, IHs; lia.
Qed.

Lemma eats_parse_rat25s fuel b :
  (3 * b + 4 <= fuel)%nat -> eats b (Parser.parse_rat25s fuel).
Proof.
  intros Hb. unfold Parser.parse_rat25s. repeat tame_step.
  - apply tame_while; [lia|apply eats_match].
  - apply tame_opt_declaration_list; lia.
  - apply eats_statements; lia.
Qed.

(** A run never stops for lack of fuel. *)
Lemma parse_total toks : run toks <> OutOfFuel.
Proof.
  unfold run. intros E.
  pose proof (eats_parse_rat25s (run_fuel toks) (length toks)) as H.
  specialize (H ltac:(unfold run_fuel; lia) (reset toks)).
  rewrite E in H. apply H. unfold remaining; simpl. lia.
Qed.

(* ===================================================================== *)
(** ** The scenarios of the specification *)
(* ===================================================================== *)

(** C4 (Scenario A).  From a reset state, `$$ integer x; $$ x = 5; print(x); $$`
    parses to the end of its fifteen tokens; the symbol table is exactly [x]
    at address 10000 with type integer; the instruction slots hold, in
    order, PUSHI 5, STO x, PUSHM 10000 and SOUT, and nothing else. *)
Theorem scenario_A_listing :
  exists s,
    compile "$$ integer x; $$ x = 5; print(x); $$" = Ok tt s
    /\ current_token_index s = length (tokens s)
    /\ symbol_table s = [("x", (10000, "integer"))]
    /\ instr_ptr s = 5
    /\ instructions s =
         [ Some (instr_text 1 "PUSHI" [AInt 5] None);
           Some (instr_text 2 "STO" [AStr "x"] (Some "x = <expr>"));
           Some (instr_text 3 "PUSHM" [AInt 10000] None);
           Some (instr_text 4 "SOUT" [] None) ] ++ replicate 996 None
    /\ code s =
         [ Some "   1  PUSHI   5"; Some "   2  STO     x  ; x = <expr>";
           Some "   3  PUSHM   10000"; Some "   4  SOUT  " ].
Proof.
  vm_compute. eexists. repeat split; reflexivity.
Qed.

(** C1 (Scenario B), evaluated on the code.  `$$ integer x; $$ y = 5; $$`
    is accepted: [assignment] never looks its target up, so the run returns
    normally with PUSHI 5 and STO y emitted and only [x] in the table. *)
Theorem scenario_B_is_accepted :
  exists s,
    compile "$$ integer x; $$ y = 5; $$" = Ok tt s
    /\ current_token_index s = length (tokens s)
    /\ symbol_table s = [("x", (10000, "integer"))]
    /\ code s = [ Some "   1  PUSHI   5"; Some "   2  STO     y  ; y = <expr>" ].
Proof.
  vm_compute. eexists. repeat split; reflexivity.
Qed.

(** The same identifier used inside an expression is rejected with the
    semantic error: the check exists on the sibling path. *)
Example undeclared_in_expression_is_rejected :
  exists s,
    compile "$$ integer x; $$ x = y; $$" =
      Raise (Exception ("Syntax Error: Semantic Error: Identifier 'y' used without declaration."
                        ++ " (at token index 7: identifier y)")%string) s.
Proof. vm_compute. eexists. reflexivity. Qed.

(** C8, evaluated on the code.  [token_pattern] has no alternative for the
    square brackets, although [SEPARATORS] lists them: they are skipped like
    any unmatched character, and no separator token is produced. *)
Theorem square_brackets_yield_no_token :
  lexer "[" = [] /\ lexer "]" = []
  /\ lexer "a[1];" = [mkToken "identifier" "a"; mkToken "integer" "1"; mkToken "separator" ";"]
  /\ Py.mem "[" SEPARATORS = true /\ Py.mem "]" SEPARATORS = true
  /\ Lex.match_token (Lex.to_chars "[") = None
  /\ Lex.match_token (Lex.to_chars "]") = None.
Proof. vm_compute. repeat split; reflexivity. Qed.

(** The other members of the separator set do yield separator tokens. *)
Example other_separators_are_tokens :
  lexer "(){};,$$" =
  map (mkToken "separator") ["("; ")"; "{"; "}"; ";"; ","; "$$"].
Proof. vm_compute. reflexivity. Qed.

(** C3.  The parser never tests for the end of the input: [parse_rat25s]
    returns at the second `$$` after the leading ones, whatever follows.  On
    `$$ integer x; $$ x = 1; $$ x = 2;` the run returns normally with the
    cursor at 10 of 14 tokens; the four tokens of `x = 2;` are left
    unconsumed and are never compiled: the code is that of `x = 1;` alone. *)
Theorem trailing_tokens_are_accepted :
  exists s,
    compile "$$ integer x; $$ x = 1; $$ x = 2;" = Ok tt s
    /\ tokens s = lexer "$$ integer x; $$ x = 1; $$ x = 2;"
    /\ length (tokens s) = 14%nat
    /\ current_token_index s = 10%nat
    /\ upcoming s = [ mkToken "identifier" "x"; mkToken "operator" "=";
                      mkToken "integer" "2"; mkToken "separator" ";" ]
    /\ code s = [ Some (instr_text 1 "PUSHI" [AInt 1] None);
                  Some (instr_text 2 "STO" [AStr "x"] (Some "x = <expr>")) ].
Proof. vm_compute. eexists. repeat split; reflexivity. Qed.

(** So a run that returns normally need not have consumed every token. *)
Lemma trailing_tokens_are_ignored :
  ~ (forall toks s, run toks = Ok tt s -> current_token_index s = length (tokens s)).
Proof.
  intros H.
  assert (exists s, run (lexer "$$ integer x; $$ x = 1; $$ x = 2;") = Ok tt s
                    /\ current_token_index s = 10%nat /\ length (tokens s) = 14%nat)
    as (s & E & Hi & Hl).
  { vm_compute. eexists. repeat split; reflexivity. }
  apply H in E. lia.
Qed.

(** The last step of a successful parse is the match of a `$$`. *)
Lemma parse_rat25s_last fuel s s' :
  Parser.parse_rat25s fuel s = Ok tt s' ->
  exists sp, Parser.match_ "separator" (Some "$$") sp = Ok tt s'.
Proof. unfold Parser.parse_rat25s. intros E. inv_ok. eauto. Qed.

(** What every run does satisfy: it either returns normally, having consumed
    a prefix of the token stream whose last token is a `$$` separator, or
    raises one exception. *)
Lemma run_all_or_one_error toks :
  (exists s, run toks = Ok tt s
     /\ tokens s = toks
     /\ (1 <= current_token_index s <= length toks)%nat
     /\ toks !! (current_token_index s - 1)%nat = Some (mkToken "separator" "$$"))
  \/ (exists e s, run toks = Raise e s).
Proof.
  pose proof (parse_total toks) as Hfuel.
  destruct (run toks) as [[] s|e s|] eqn:E; [left|right; eauto|congruence].
  exists s. split; [reflexivity|].
  assert (evolves (reset toks) s) as Hev.
  { eapply Ok_evolves; [|exact E]. intros s0. apply evolves_parse_rat25s. }
  apply parse_rat25s_last in E. destruct E as (sp & E).
  apply match_Ok in E. destruct E as (t & Ht & Hty & Hlx & Hs).
  specialize (Hlx _ eq_refl).
  pose proof (ev_tokens _ _ Hev) as Htok. rewrite Hs in Htok. simpl in Htok.
  pose proof (current_token_length _ _ Ht) as Hlen. rewrite Htok in Hlen.
  unfold current_token in Ht. rewrite Htok in Ht.
  rewrite Hs; simpl. repeat split; try lia; try assumption.
  replace (current_token_index sp + 1 - 1)%nat with (current_token_index sp) by lia.
  rewrite Ht. destruct t; simpl in *; congruence.
Qed.

(* ===================================================================== *)
(** ** Symbol addresses (C7) *)
(* ===================================================================== *)

Lemma seqZ_strictly_sorted m (n : nat) : StronglySorted Z.lt (seqZ m (Z.of_nat n)).
Proof.
  revert m. induction n as [|n IH]; intros m.
  - rewrite seqZ_nil by lia. constructor.
  - rewrite seqZ_cons by lia.
    replace (Z.pred (Z.of_nat (S n))) with (Z.of_nat n) by lia.
    constructor; [apply IH|]. apply Forall_seqZ. intros; lia.
Qed.

Example three_declarations :
  exists s, compile "$$ integer a, b; boolean c; $$ a = 1; $$" = Ok tt s
    /\ symbol_table s =
         [("a", (10000, "integer")); ("b", (10001, "integer")); ("c", (10002, "boolean"))]
    /\ Memory_Address s = 10003.
Proof. vm_compute. eexists. repeat split; reflexivity. Qed.

Example duplicate_declaration_is_rejected :
  exists s, compile "$$ integer x; integer x; $$ $$" =
    Raise (Exception "Semantic Error: Identifier 'x' is already declared.") s
    /\ symbol_table s = [("x", (10000, "integer"))] /\ Memory_Address s = 10001.
Proof. vm_compute. eexists. repeat split; reflexivity. Qed.

(* ===================================================================== *)
(** ** The instruction listing along a run *)
(* ===================================================================== *)

Lemma wf_reset toks : wf (reset toks).
Proof. unfold wf; simpl. lia. Qed.

Lemma evolves_wf s0 s : evolves s0 s -> wf s0 -> wf s.
Proof.
  intros H [H1 H2]. unfold wf. pose proof (ev_ptr _ _ H). pose proof (ev_room _ _ H).
  rewrite (ev_length _ _ H). lia.
Qed.

Lemma code_length s : wf s -> length (code s) = Z.to_nat (instr_ptr s - 1).
Proof. intros [H1 H2]. unfold code. rewrite length_take. lia. Qed.

Lemma evolves_code s0 s :
  evolves s0 s -> wf s0 ->
  exists c, code s = code s0 ++ c
            /\ Z.of_nat (length c) = instr_ptr s - instr_ptr s0.
Proof.
  intros H Hwf. pose proof (evolves_wf _ _ H Hwf) as Hwf'.
  pose proof (code_length _ Hwf) as Hl0. pose proof (code_length _ Hwf') as Hl.
  pose proof (ev_ptr _ _ H) as Hp. destruct Hwf as [Hw1 Hw2].
  exists (drop (Z.to_nat (instr_ptr s0 - 1)) (code s)). split.
  - rewrite <- (ev_frame _ _ H) at 1.
    rewrite <- (take_drop (Z.to_nat (instr_ptr s0 - 1)) (code s)) at 1.
    f_equal. unfold code. rewrite take_take. f_equal. lia.
  - rewrite length_drop, Hl. lia.
Qed.

Lemma skip_skip n m s : skip m (skip n s) = skip (n + m) s.
Proof. unfold skip; simpl. f_equal. lia. Qed.

Lemma match_here ty lx s t :
  current_token s = Some t -> token_type t = ty ->
  match lx with Some l => lexeme t = l | None => True end ->
  Parser.match_ ty lx s = Ok tt (skip 1 s).
Proof.
  intros Ht Hty Hlx. unfold Parser.match_, bind, gets. rewrite Ht. subst ty.
  rewrite String.eqb_refl. destruct lx as [l|]; simpl.
  - subst l. rewrite String.eqb_refl. reflexivity.
  - reflexivity.
Qed.

Lemma match_Ok_skip ty lx s s' : Parser.match_ ty lx s = Ok tt s' -> s' = skip 1 s.
Proof. intros H. apply match_Ok in H. destruct H as (t & _ & _ & _ & ->). reflexivity. Qed.

Lemma emit_Ok op args c s s' :
  wf s -> emit op args c s = Ok tt s' ->
  instr_ptr s <= Z.of_nat (length (instructions s))
  /\ s' = emitted (instr_text (instr_ptr s) op args c) s.
Proof.
  intros [H1 H2]. unfold emit, bind, gets, modify, set_instruction.
  destruct (Py.setitem (instructions s) (instr_ptr s - 1) _) as [l|] eqn:E; [|discriminate].
  apply setitem_Some in E. destruct E as (_ & Hr & Hl & _).
  intros H; inversion H. rewrite Hl by lia. split; [lia|reflexivity].
Qed.

Lemma emit_room op args c s :
  wf s -> instr_ptr s <= Z.of_nat (length (instructions s)) ->
  emit op args c s = Ok tt (emitted (instr_text (instr_ptr s) op args c) s).
Proof.
  intros [H1 H2] H3. unfold emit, bind, gets, modify, set_instruction.
  rewrite setitem_in_range by lia. reflexivity.
Qed.

Lemma code_emitted text s :
  wf s -> instr_ptr s <= Z.of_nat (length (instructions s)) ->
  code (emitted text s) = code s ++ [Some text].
Proof.
  intros [H1 H2] H3. unfold code, emitted; simpl.
  replace (Z.to_nat (instr_ptr s + 1 - 1)) with (S (Z.to_nat (instr_ptr s - 1))) by lia.
  erewrite take_S_r; [|apply list_lookup_insert_eq; lia].
  rewrite take_insert_ge by lia. reflexivity.
Qed.

Lemma wf_emitted text s :
  wf s -> instr_ptr s <= Z.of_nat (length (instructions s)) -> wf (emitted text s).
Proof. unfold wf, emitted; simpl. rewrite length_insert. lia. Qed.

Lemma code_skip n s : code (skip n s) = code s.
Proof. reflexivity. Qed.

(** Every state of a run from reset is well formed: the routines keep [wf]. *)
Lemma wf_match ty lx : keeps wf (Parser.match_ ty lx).
Proof.
  intros s H. destruct (Parser.match_ ty lx s) as [[] s'|e s'|] eqn:E; simpl; auto.
  - apply match_Ok_skip in E. subst s'. exact H.
  - apply match_Raise in E. subst; auto.
Qed.

Lemma wf_set_instruction i text : keeps wf (set_instruction i text).
Proof.
  intros s H. unfold set_instruction.
  destruct (Py.setitem (instructions s) i (Some text)) as [l|] eqn:E; simpl; auto.
  apply setitem_Some in E. destruct E as (Hlen & _). unfold wf in *; simpl. rewrite Hlen. exact H.
Qed.

Lemma wf_emit op args c : keeps wf (emit op args c).
Proof.
  intros s H. unfold emit, bind, gets, modify, set_instruction.
  destruct (Py.setitem (instructions s) (instr_ptr s - 1) _) as [l|] eqn:E; simpl; auto.
  apply setitem_Some in E. destruct E as (Hlen & Hr & _). unfold wf in *; simpl. lia.
Qed.

Lemma wf_insert name ty : keeps wf (insert_identifier name ty).
Proof.
  intros s H. unfold insert_identifier, bind, is_declared, gets, modify, raise.
  destruct (is_declared_in (symbol_table s) name); simpl; exact H.
Qed.

Lemma wf_parse_rat25s fuel : keeps wf (Parser.parse_rat25s fuel).
Proof.
  apply keeps_parse_rat25s with (G := fun _ => True);
    auto using wf_match, wf_emit, wf_insert, wf_set_instruction.
Qed.

Lemma wf_statements fuel :
  keeps wf (Parser.statement fuel)
  /\ (forall terms, keeps wf (Parser.statement_list fuel terms))
  /\ keeps wf (Parser.compound_statement fuel)
  /\ keeps wf (Parser.while_statement fuel)
  /\ keeps wf (Parser.if_statement fuel).
Proof.
  apply keeps_statements with (G := fun _ => True);
    auto using wf_match, wf_emit, wf_set_instruction.
Qed.

(* ===================================================================== *)
(** ** [scan_statement] (C10) *)
(* ===================================================================== *)

Lemma upcoming_cons s t r :
  upcoming s = t :: r -> current_token s = Some t /\ upcoming (skip 1 s) = r.
Proof.
  unfold upcoming, current_token, skip; simpl. intros H. split.
  - rewrite <- (Nat.add_0_r (current_token_index s)), <- lookup_drop, H. reflexivity.
  - rewrite <- drop_drop, H. reflexivity.
Qed.

Lemma upcoming_nil s : upcoming s = [] -> current_token s = None.
Proof.
  unfold upcoming, current_token. intros H.
  rewrite <- (Nat.add_0_r (current_token_index s)), <- lookup_drop, H. reflexivity.
Qed.

Lemma bind_step {A B} (m : M A) (k : A -> M B) s a s1 :
  m s = Ok a s1 -> bind m k s = k a s1.
Proof. unfold bind. intros ->. reflexivity. Qed.

Lemma match_upcoming ty lx s t r :
  upcoming s = t :: r -> token_type t = ty ->
  match lx with Some l => lexeme t = l | None => True end ->
  Parser.match_ ty lx s = Ok tt (skip 1 s) /\ upcoming (skip 1 s) = r.
Proof.
  intros H Hty Hlx. apply upcoming_cons in H. destruct H as [Ht Hr].
  split; [eapply match_here; eauto|exact Hr].
Qed.

Lemma current_upcoming s t r : upcoming s = t :: r -> Parser.current s = Ok t s.
Proof.
  intros H. apply upcoming_cons in H. unfold Parser.current. destruct H as [-> _]. reflexivity.
Qed.



(* ===================================================================== *)
(** ** The code shape of [condition], [while] and [if] (C2, C5, C9) *)
(* ===================================================================== *)

Lemma keeps_Ok {A} (I : State -> Prop) (m : M A) s a s' :
  keeps I m -> I s -> m s = Ok a s' -> I s'.
Proof. intros Hm Hs E. specialize (Hm s Hs). rewrite E in Hm. exact Hm. Qed.

Lemma evolves_statement s0 fuel : keeps (evolves s0) (Parser.statement fuel).
Proof. apply evolves_statements. Qed.

Lemma evolves_statement_list s0 fuel terms :
  keeps (evolves s0) (Parser.statement_list fuel terms).
Proof. apply evolves_statements. Qed.

Lemma evolves_compound_statement s0 fuel :
  keeps (evolves s0) (Parser.compound_statement fuel).
Proof. apply evolves_statements. Qed.

Lemma current_Ok s t s' : Parser.current s = Ok t s' -> s' = s /\ current_token s = Some t.
Proof.
  unfold Parser.current. destruct (current_token s); intros H; inversion H; auto.
Qed.


(** A successful [condition] appends the code of its two expressions and
    then one comparison instruction. *)
Lemma condition_shape fuel s s' :
  wf s -> Parser.condition fuel s = Ok tt s' ->
  exists operands text,
    code s' = code s ++ operands ++ [Some text]
    /\ is_comparison (instr_ptr s' - 1) text
    /\ instr_ptr s' = instr_ptr s + Z.of_nat (length operands) + 1
    /\ wf s'.
Proof.
  intros Hwf H. unfold Parser.condition in H.
  apply bind_Ok in H. destruct H as ([] & s1 & H1 & H).
  apply bind_Ok in H. destruct H as (t & s1' & H2 & H).
  apply current_Ok in H2. destruct H2 as [-> Ht].
  apply bind_Ok in H. destruct H as ([] & s2 & H3 & H).
  apply bind_Ok in H. destruct H as ([] & s3 & H4 & H).
  assert (evolves s s3) as Hev.
  { eapply keeps_Ok; [apply evolves_expression| |exact H4].
    eapply keeps_Ok; [apply evolves_match| |exact H3].
    eapply keeps_Ok; [apply evolves_expression|apply evolves_refl|exact H1]. }
  pose proof (evolves_wf _ _ Hev Hwf) as Hwf3.
  destruct (evolves_code _ _ Hev Hwf) as (c & Hc & Hlen).
  destruct (dict_get Parser.cmp_map (lexeme t)) as [cmp|] eqn:Hcmp; [|discriminate].
  apply emit_Ok in H; [|exact Hwf3]. destruct H as [Hroom ->].
  exists c, (instr_text (instr_ptr s3) cmp [] (Some ("compare " ++ lexeme t)%string)).
  rewrite code_emitted by assumption. rewrite Hc, <- app_assoc.
  repeat split; try (apply wf_emitted; assumption); simpl; try lia.
  exists (lexeme t), cmp. split; [exact Hcmp|]. f_equal. lia.
Qed.




(** The parts of a successful [if_statement]. *)
Lemma if_statement_shape fuel s s' :
  wf s -> Parser.if_statement fuel s = Ok tt s' ->
  exists f s0 s1 s2 s3,
    fuel = S f
    /\ s0 = skip 2 s
    /\ Parser.condition f s0 = Ok tt s1
    /\ Parser.statement f (skip 1 s1) = Ok tt s2
    /\ ((exists t, current_token s2 = Some t /\ lexeme t = "else"
                   /\ Parser.statement f (skip 1 s2) = Ok tt s3)
        \/ ((forall t, current_token s2 = Some t -> lexeme t <> "else") /\ s3 = s2))
    /\ s' = skip 1 s3.
Proof.
  intros Hwf H. destruct fuel as [|f]; [discriminate|]. simpl in H.
  apply bind_Ok in H. destruct H as ([] & sa & Ha & H). apply match_Ok_skip in Ha.
  apply bind_Ok in H. destruct H as ([] & sb & Hb & H). apply match_Ok_skip in Hb.
  apply bind_Ok in H. destruct H as ([] & sc & Hc & H).
  apply bind_Ok in H. destruct H as ([] & sd & Hd & H). apply match_Ok_skip in Hd.
  apply bind_Ok in H. destruct H as ([] & se & He & H).
  apply bind_Ok in H. destruct H as (cur & ? & Hg & H).
  apply gets_Ok in Hg. destruct Hg as [-> ->].
  apply bind_Ok in H. destruct H as ([] & sg & Hg & H). apply match_Ok_skip in H.
  exists f, sb, sc, se, sg. subst sd.
  split; [reflexivity|]. split; [rewrite Hb, Ha, skip_skip; reflexivity|].
  split; [exact Hc|]. split; [exact He|]. split; [|exact H].
  destruct (current_token se) as [t|] eqn:Ht.
  - destruct (String.eqb_spec (lexeme t) "else") as [Hl|Hl].
    + left. exists t. split; [reflexivity|]. split; [exact Hl|].
      apply bind_Ok in Hg. destruct Hg as ([] & sx & Hx & Hg).
      apply match_Ok_skip in Hx. subst sx. exact Hg.
    + right. apply ret_Ok in Hg. destruct Hg as [_ ->]. split; [|reflexivity].
      intros t' Ht'. inversion Ht'; subst; exact Hl.
  - right. apply ret_Ok in Hg. destruct Hg as [_ ->]. split; [|reflexivity].
    intros t' Ht'. discriminate.
Qed.

(** C5.  A successful [if_statement] appends the code of its condition
    (operands, then one comparison), then what [statement] emits for the
    first branch and, when an `else` follows, what [statement] emits for the
    second; nothing is emitted between or around these parts, and the
    program counter advances by exactly their lengths. *)
Theorem if_statement_emits_no_jump fuel s s' :
  wf s -> Parser.if_statement fuel s = Ok tt s' ->
  exists f s1 s2 s3 operands cmp then_code else_code,
    fuel = S f
    /\ Parser.condition f (skip 2 s) = Ok tt s1
    /\ code s1 = code s ++ operands ++ [Some cmp]
    /\ is_comparison (instr_ptr s1 - 1) cmp
    /\ Parser.statement f (skip 1 s1) = Ok tt s2
    /\ code s2 = code s1 ++ then_code
    /\ ((exists t, current_token s2 = Some t /\ lexeme t = "else"
                   /\ Parser.statement f (skip 1 s2) = Ok tt s3
                   /\ code s3 = code s2 ++ else_code)
        \/ ((forall t, current_token s2 = Some t -> lexeme t <> "else")
            /\ s3 = s2 /\ else_code = []))
    /\ code s' = code s ++ (operands ++ [Some cmp]) ++ then_code ++ else_code
    /\ instr_ptr s' = instr_ptr s
         + Z.of_nat (length (operands ++ [Some cmp]))
         + Z.of_nat (length then_code) + Z.of_nat (length else_code).
Proof.
  intros Hwf H.
  destruct (if_statement_shape _ _ _ Hwf H)
    as (f & s0 & s1 & s2 & s3 & -> & -> & Hcond & Hthen & Helse & ->).
  assert (wf (skip 2 s)) as Hwf0 by exact Hwf.
  destruct (condition_shape _ _ _ Hwf0 Hcond) as (ops & cmp & Hc1 & Hcmp & Hp1 & Hwf1).
  rewrite code_skip in Hc1.
  assert (evolves (skip 1 s1) s2) as Hev2.
  { eapply keeps_Ok; [apply evolves_statement|apply evolves_refl|exact Hthen]. }
  assert (wf (skip 1 s1)) as Hwf1' by exact Hwf1.
  pose proof (evolves_wf _ _ Hev2 Hwf1') as Hwf2.
  destruct (evolves_code _ _ Hev2 Hwf1') as (c2 & Hc2 & Hl2).
  rewrite code_skip in Hc2. simpl in Hl2, Hp1.
  destruct Helse as [(t & Ht & Hl & Hstmt)|[Hno ->]].
  - assert (evolves (skip 1 s2) s3) as Hev3.
    { eapply keeps_Ok; [apply evolves_statement|apply evolves_refl|exact Hstmt]. }
    assert (wf (skip 1 s2)) as Hwf2' by exact Hwf2.
    destruct (evolves_code _ _ Hev3 Hwf2') as (c3 & Hc3 & Hl3).
    rewrite code_skip in Hc3. simpl in Hl3.
    exists f, s1, s2, s3, ops, cmp, c2, c3.
    split; [reflexivity|]. split; [exact Hcond|]. split; [exact Hc1|].
    split; [exact Hcmp|]. split; [exact Hthen|]. split; [exact Hc2|].
    split; [left; exists t; auto|].
    split; [rewrite code_skip, Hc3, Hc2, Hc1, <- !app_assoc; reflexivity|].
    rewrite length_app. simpl. lia.
  - exists f, s1, s2, s2, ops, cmp, c2, [].
    split; [reflexivity|]. split; [exact Hcond|]. split; [exact Hc1|].
    split; [exact Hcmp|]. split; [exact Hthen|]. split; [exact Hc2|].
    split; [right; auto|].
    split; [rewrite code_skip, Hc2, Hc1, app_nil_r, <- !app_assoc; reflexivity|].
    rewrite length_app. simpl. lia.
Qed.

(* ===================================================================== *)
(** ** Expressions (C6) *)
(* ===================================================================== *)

Lemma expression_S n :
  Parser.expression (S n) =
  bind Parser.current (fun t =>
    bind (expression_operand t) (fun _ =>
      while_ n (at_token "operator" ["+"; "-"; "*"; "/"]) (expression_operator n))).
Proof. reflexivity. Qed.

Lemma listing_app ip l1 l2 :
  listing ip (l1 ++ l2) = listing ip l1 ++ listing (ip + Z.of_nat (length l1)) l2.
Proof.
  revert ip. induction l1 as [|[op args] l1 IH]; intros ip; simpl.
  - f_equal. lia.
  - rewrite IH. do 3 f_equal. lia.
Qed.

Lemma at_token_upcoming ty ls s :
  at_token ty ls s =
  match upcoming s with
  | t :: _ => String.eqb (token_type t) ty && Py.mem (lexeme t) ls
  | [] => false
  end.
Proof.
  unfold at_token. destruct (upcoming s) as [|t r] eqn:E.
  - rewrite (upcoming_nil _ E). reflexivity.
  - apply upcoming_cons in E. destruct E as [-> _]. reflexivity.
Qed.

Lemma upcoming_emitted text s : upcoming (emitted text s) = upcoming s.
Proof. reflexivity. Qed.

Lemma emit_room_skip op args c n s :
  wf s -> instr_ptr s <= Z.of_nat (length (instructions s)) ->
  emit op args c (skip n s)
  = Ok tt (emitted (instr_text (instr_ptr s) op args c) (skip n s)).
Proof. intros Hwf Hroom. exact (emit_room op args c (skip n s) Hwf Hroom). Qed.

(** The operand part pushes what the specification says. *)
Lemma expression_operand_run s t r op args :
  upcoming s = t :: r ->
  operand_push (symbol_table s) t = Some (op, args) ->
  wf s -> instr_ptr s <= Z.of_nat (length (instructions s)) ->
  expression_operand t s = Ok tt (emitted (instr_text (instr_ptr s) op args None) (skip 1 s)).
Proof.
  intros Hu Hp Hwf Hroom. unfold expression_operand, operand_push in *.
  assert (wf (skip 1 s)) as Hwf1 by exact Hwf.
  destruct (String.eqb_spec (token_type t) "integer") as [Hty|_].
  { destruct (Py.int_of_digits (lexeme t)) as [v|]; [|discriminate].
    inversion Hp; subst op args.
    destruct (match_upcoming "integer" None s t r Hu Hty Logic.I) as [Hm _].
    rewrite (bind_step _ _ _ _ _ Hm). apply emit_room_skip; assumption. }
  destruct (String.eqb_spec (token_type t) "identifier") as [Hty|_].
  { destruct (dict_get (symbol_table s) (lexeme t)) as [[addr ty]|] eqn:Hd; [|discriminate].
    inversion Hp; subst op args. cbv zeta.
    unfold bind at 1. unfold is_declared, gets, is_declared_in. rewrite Hd.
    unfold bind at 1. unfold ret.
    unfold bind at 1. unfold lookup_address. rewrite Hd.
    destruct (match_upcoming "identifier" None s t r Hu Hty Logic.I) as [Hm _].
    rewrite (bind_step _ _ _ _ _ Hm). apply emit_room_skip; assumption. }
  destruct (String.eqb_spec (token_type t) "keyword") as [Hty|_]; [|discriminate].
  destruct (match_upcoming "keyword" None s t r Hu Hty Logic.I) as [Hm _].
  destruct (String.eqb_spec (lexeme t) "true") as [Hl|_].
  { inversion Hp; subst op args. rewrite Hl. simpl.
    rewrite (bind_step _ _ _ _ _ Hm). apply emit_room_skip; assumption. }
  destruct (String.eqb_spec (lexeme t) "false") as [Hl|_]; [|discriminate].
  inversion Hp; subst op args. rewrite Hl. simpl.
  rewrite (bind_step _ _ _ _ _ Hm). apply emit_room_skip; assumption.
Qed.

Lemma arith_opcode_Some op a :
  arith_opcode op = Some a ->
  starts_with_binop [op] = true
  /\ forall s, wf s -> instr_ptr s <= Z.of_nat (length (instructions s)) ->
       Parser.emit_arith (lexeme op) s
       = Ok tt (emitted (instr_text (instr_ptr s) a [] None) s).
Proof.
  unfold arith_opcode, starts_with_binop, Parser.emit_arith.
  destruct (String.eqb (token_type op) "operator"); [|discriminate]. simpl.
  destruct (String.eqb (lexeme op) "+"); [intros H; inversion H; split; auto using emit_room|].
  destruct (String.eqb (lexeme op) "-"); [intros H; inversion H; split; auto using emit_room|].
  destruct (String.eqb (lexeme op) "*"); [intros H; inversion H; split; auto using emit_room|].
  destruct (String.eqb (lexeme op) "/"); [intros H; inversion H; split; auto using emit_room|].
  discriminate.
Qed.

Lemma Expr_code_length table e l :
  Expr_code table e = Some l -> (0 < length l)%nat.
Proof.
  destruct e; simpl.
  - destruct (operand_push table t); [|discriminate]. intros H; inversion H. simpl. lia.
  - destruct (operand_push table left); [|discriminate].
    destruct (arith_opcode op); [|discriminate].
    destruct (Expr_code table e); [|discriminate]. intros H; inversion H. simpl. lia.
Qed.

Lemma operand_push_not_arith table t p : operand_push table t = Some p -> is_arith p = false.
Proof.
  unfold operand_push.
  repeat match goal with
         | |- context [if ?b then _ else _] => destruct b
         | |- context [match ?x with _ => _ end] => destruct x
         end; intros H; inversion H; reflexivity.
Qed.

Lemma arith_opcode_is_arith op a : arith_opcode op = Some a -> is_arith (a, []) = true.
Proof.
  unfold arith_opcode.
  repeat match goal with
         | |- context [if ?b then _ else _] => destruct b
         end; intros H; inversion H; reflexivity.
Qed.

(** One arithmetic instruction per operator. *)
Lemma Expr_code_arith_count table e l :
  Expr_code table e = Some l -> length (List.filter is_arith l) = Expr_operators e.
Proof.
  revert l. induction e as [t|t op r IH]; intros l; simpl.
  - destruct (operand_push table t) as [p|] eqn:Hp; [|discriminate].
    intros H; inversion H. simpl.
    rewrite (operand_push_not_arith _ _ _ Hp). reflexivity.
  - destruct (operand_push table t) as [p|] eqn:Hp; [|discriminate].
    destruct (arith_opcode op) as [a|] eqn:Ha; [|discriminate].
    destruct (Expr_code table r) as [c|]; [|discriminate].
    intros H; inversion H. simpl List.filter.
    rewrite (operand_push_not_arith _ _ _ Hp).
    rewrite List.filter_app, length_app, (IH c eq_refl). simpl List.filter.
    rewrite (arith_opcode_is_arith _ _ Ha). simpl. lia.
Qed.

(** The loop of [expression] is over when no binary operator is ahead. *)
Lemma while_done n c body s : c s = false -> while_ (S n) c body s = Ok tt s.
Proof. intros H. simpl. rewrite H. reflexivity. Qed.

Lemma while_once n c body s s1 :
  c s = true -> body s = Ok tt s1 -> while_ (S n) c body s = while_ n c body s1.
Proof. intros H Hb. simpl. rewrite H. unfold bind. rewrite Hb. reflexivity. Qed.

(** [Parser.expression] computes the code of the specification's grammar. *)
Lemma expression_run e :
  forall fuel s rest l,
    upcoming s = Expr_tokens e ++ rest ->
    starts_with_binop rest = false ->
    Expr_code (symbol_table s) e = Some l ->
    wf s ->
    instr_ptr s - 1 + Z.of_nat (length l) <= Z.of_nat (length (instructions s)) ->
    (length (Expr_tokens e) < fuel)%nat ->
    exists s',
      Parser.expression fuel s = Ok tt s'
      /\ upcoming s' = rest
      /\ current_token_index s' = (current_token_index s + length (Expr_tokens e))%nat
      /\ symbol_table s' = symbol_table s
      /\ length (instructions s') = length (instructions s)
      /\ instr_ptr s' = instr_ptr s + Z.of_nat (length l)
      /\ wf s'
      /\ code s' = code s ++ listing (instr_ptr s) l.
Proof.
  induction e as [t|t op r IH]; intros fuel s rest l Hu Hrest Hcode Hwf Hroom Hfuel;
    simpl in Hu, Hcode, Hfuel.
  - destruct (operand_push (symbol_table s) t) as [[o args]|] eqn:Hp; [|discriminate].
    inversion Hcode; subst l; clear Hcode. simpl in Hroom.
    destruct fuel as [|[|n]]; try lia.
    rewrite expression_S.
    rewrite (bind_step _ _ _ _ _ (current_upcoming _ _ _ Hu)).
    rewrite (bind_step _ _ _ _ _
               (expression_operand_run s t rest o args Hu Hp Hwf ltac:(lia))).
    set (s1 := emitted (instr_text (instr_ptr s) o args None) (skip 1 s)).
    assert (upcoming s1 = rest) as Hu1.
    { apply upcoming_cons in Hu. apply Hu. }
    rewrite while_done by (rewrite at_token_upcoming, Hu1; exact Hrest).
    exists s1. split; [reflexivity|]. split; [exact Hu1|].
    split; [reflexivity|]. split; [reflexivity|].
    split; [apply length_insert|]. split; [simpl; lia|].
    split; [apply (wf_emitted _ (skip 1 s)); [exact Hwf|simpl; lia]|].
    subst s1. rewrite (code_emitted _ (skip 1 s)); [reflexivity|exact Hwf|simpl; lia].
  - destruct (operand_push (symbol_table s) t) as [[o args]|] eqn:Hp; [|discriminate].
    destruct (arith_opcode op) as [a|] eqn:Ha; [|discriminate].
    destruct (Expr_code (symbol_table s) r) as [c|] eqn:Hc; [|discriminate].
    inversion Hcode; subst l; clear Hcode.
    simpl in Hroom. rewrite length_app in Hroom. simpl in Hroom.
    destruct (arith_opcode_Some _ _ Ha) as [Hbin Harith].
    destruct fuel as [|[|[|n]]]; try lia.
    rewrite expression_S.
    rewrite (bind_step _ _ _ _ _ (current_upcoming _ _ _ Hu)).
    rewrite (bind_step _ _ _ _ _
               (expression_operand_run s t _ o args Hu Hp Hwf ltac:(lia))).
    set (s1 := emitted (instr_text (instr_ptr s) o args None) (skip 1 s)).
    assert (upcoming s1 = op :: Expr_tokens r ++ rest) as Hu1.
    { apply upcoming_cons in Hu. apply Hu. }
    assert (wf s1) as Hwf1.
    { apply (wf_emitted _ (skip 1 s)); [exact Hwf|simpl; lia]. }
    assert (code s1 = code s ++ [Some (instr_text (instr_ptr s) o args None)]) as Hcode1.
    { subst s1. rewrite (code_emitted _ (skip 1 s)); [reflexivity|exact Hwf|simpl; lia]. }
    (* the right operand, a whole expression *)
    assert (upcoming (skip 1 s1) = Expr_tokens r ++ rest) as Hu2.
    { apply upcoming_cons in Hu1. apply Hu1. }
    destruct (IH (S (S n)) (skip 1 s1) rest c Hu2 Hrest Hc Hwf1) as
      (s3 & Hrun & Hu3 & Hi3 & Ht3 & Hl3 & Hp3 & Hwf3 & Hcode3).
    { simpl. rewrite length_insert. lia. }
    { lia. }
    assert (instr_ptr s3 <= Z.of_nat (length (instructions s3))) as Hroom3.
    { rewrite Hl3, Hp3. simpl. rewrite length_insert. lia. }
    (* one turn of the loop *)
    assert (expression_operator (S (S n)) s1
            = Ok tt (emitted (instr_text (instr_ptr s3) a [] None) s3)) as Hbody.
    { unfold expression_operator.
      rewrite (bind_step _ _ _ _ _ (current_upcoming _ _ _ Hu1)).
      destruct (match_upcoming "operator" None s1 op _ Hu1) as [Hm _].
      { unfold arith_opcode in Ha.
        destruct (String.eqb_spec (token_type op) "operator"); [assumption|discriminate]. }
      { exact Logic.I. }
      rewrite (bind_step _ _ _ _ _ Hm), (bind_step _ _ _ _ _ Hrun).
      apply Harith; assumption. }
    set (s4 := emitted (instr_text (instr_ptr s3) a [] None) s3) in *.
    rewrite (while_once _ _ _ _ _
               ltac:(rewrite at_token_upcoming, Hu1; exact Hbin) Hbody).
    rewrite while_done by (rewrite at_token_upcoming; exact (eq_trans (f_equal _ Hu3) Hrest)).
    exists s4. split; [reflexivity|]. split; [exact Hu3|].
    split; [simpl; rewrite Hi3; simpl; lia|].
    split; [exact Ht3|].
    split; [simpl; rewrite length_insert, Hl3; simpl; apply length_insert|].
    split; [simpl; rewrite Hp3, length_app; simpl; lia|].
    split; [apply wf_emitted; assumption|].
    subst s4. rewrite code_emitted by assumption.
    rewrite Hcode3, code_skip, Hcode1. simpl listing.
    rewrite listing_app. simpl listing. rewrite Hp3. simpl instr_ptr.
    rewrite <- !app_assoc. simpl. do 3 f_equal.
Qed.

(** Conversely to [expression_parsed] below: on an operand followed by any
    number of (operator, operand) pairs, with every identifier declared and
    enough free slots, [expression] succeeds, consumes exactly those tokens
    and appends the code of the right-nested reading. *)
Lemma expression_accepts e fuel s rest l :
  upcoming s = Expr_tokens e ++ rest ->
  starts_with_binop rest = false ->
  Expr_code (symbol_table s) e = Some l ->
  wf s ->
  instr_ptr s - 1 + Z.of_nat (length l) <= Z.of_nat (length (instructions s)) ->
  (length (Expr_tokens e) < fuel)%nat ->
  exists s',
    Parser.expression fuel s = Ok tt s'
    /\ upcoming s' = rest
    /\ instr_ptr s' = instr_ptr s + Z.of_nat (length l)
    /\ code s' = code s ++ listing (instr_ptr s) l
    /\ length (List.filter is_arith l) = Expr_operators e
    /\ match e with
       | Operand t => exists p, operand_push (symbol_table s) t = Some p /\ l = [p]
       | Binary t op r =>
           exists p a c,
             operand_push (symbol_table s) t = Some p
             /\ arith_opcode op = Some a
             /\ Expr_code (symbol_table s) r = Some c
             /\ l = [p] ++ c ++ [(a, [])]
       end.
Proof.
  intros Hu Hrest Hcode Hwf Hroom Hfuel.
  destruct (expression_run e fuel s rest l Hu Hrest Hcode Hwf Hroom Hfuel)
    as (s' & Hrun & Hu' & _ & _ & _ & Hp & _ & Hc).
  exists s'. split; [exact Hrun|]. split; [exact Hu'|]. split; [exact Hp|].
  split; [exact Hc|]. split; [eapply Expr_code_arith_count; exact Hcode|].
  destruct e as [t|t op r]; simpl in Hcode.
  - destruct (operand_push (symbol_table s) t) as [p|]; [|discriminate].
    inversion Hcode. eauto.
  - destruct (operand_push (symbol_table s) t) as [p|]; [|discriminate].
    destruct (arith_opcode op) as [a|]; [|discriminate].
    destruct (Expr_code (symbol_table s) r) as [c|]; [|discriminate].
    inversion Hcode. exists p, a, c. auto.
Qed.

(** For `a * b + c` the addition is emitted before the multiplication. *)
Lemma expression_abc :
  exists s',
    Parser.expression 6 abc_state = Ok tt s'
    /\ upcoming s' = [mkToken "separator" ";"]
    /\ code s' = code abc_state ++ listing 1 abc_code.
Proof.
  destruct (expression_accepts abc_expr 6 abc_state
              [mkToken "separator" ";"] abc_code)
    as (s' & Hrun & Hu & _ & Hc & _).
  - vm_compute. reflexivity.
  - reflexivity.
  - vm_compute. reflexivity.
  - unfold wf. simpl. lia.
  - simpl. lia.
  - simpl. lia.
  - exists s'. split; [exact Hrun|]. split; [exact Hu|exact Hc].
Qed.

Example expression_abc_listing :
  exists s', Parser.expression 6 abc_state = Ok tt s'
    /\ code s' = [ Some "   1  PUSHM   10000"; Some "   2  PUSHM   10001";
                   Some "   3  PUSHM   10002"; Some "   4  A     ";
                   Some "   5  M     " ].
Proof. vm_compute. eexists. split; reflexivity. Qed.

(* ===================================================================== *)
(** ** Scenario D and the runs the theorems above are applied to *)
(* ===================================================================== *)

Example scenario_D_listing :
  exists s,
    compile "$$ integer i; $$ i = 0; while (i < 3) { i = i + 1; } endwhile $$" = Ok tt s
    /\ code s =
         [ Some "   1  PUSHI   0"; Some "   2  STO     i  ; i = <expr>";
           Some "   3  PUSHM   10000"; Some "   4  PUSHI   3";
           Some "   5  CMP_LT  ; compare <"; Some "   6  LABEL ";
           Some "7 JMP0 13"; Some "   8  PUSHM   10000"; Some "   9  PUSHI   1";
           Some "  10  A     "; Some "  11  STO     i  ; i = <expr>";
           Some "  12  JMP     6" ].
Proof. vm_compute. eexists. split; reflexivity. Qed.



Lemma if_statement_emits_no_jump_run :
  exists f s1 s2 s3 operands cmp then_code else_code,
    20%nat = S f
    /\ Parser.condition f (skip 2 branch_state) = Ok tt s1
    /\ code s1 = code branch_state ++ operands ++ [Some cmp]
    /\ is_comparison (instr_ptr s1 - 1) cmp
    /\ Parser.statement f (skip 1 s1) = Ok tt s2
    /\ code s2 = code s1 ++ then_code
    /\ ((exists t, current_token s2 = Some t /\ lexeme t = "else"
                   /\ Parser.statement f (skip 1 s2) = Ok tt s3
                   /\ code s3 = code s2 ++ else_code)
        \/ ((forall t, current_token s2 = Some t -> lexeme t <> "else")
            /\ s3 = s2 /\ else_code = []))
    /\ code branch_final = code branch_state ++ (operands ++ [Some cmp]) ++ then_code ++ else_code
    /\ instr_ptr branch_final = instr_ptr branch_state
         + Z.of_nat (length (operands ++ [Some cmp]))
         + Z.of_nat (length then_code) + Z.of_nat (length else_code).
Proof.
  apply (if_statement_emits_no_jump 20 branch_state branch_final).
  - unfold wf. simpl. lia.
  - vm_compute. reflexivity.
Defined.

(** The lookup failure of `scan` ends the run: nothing catches it. *)
Example scan_undeclared_run :
  exists s,
    compile "$$ integer a; $$ scan(b); $$" = Raise (KeyError "b") s
    /\ current_token_index s = 10%nat /\ code s = [].
Proof. vm_compute. eexists. repeat split; reflexivity. Qed.

(** Scenario E: without the leading delimiter the message names it. *)
Example scenario_E_message :
  exists s,
    compile "x = 1;" =
      Raise (Exception
               ("Syntax Error: Expected separator '$$', found identifier x."
                ++ " The program must begin with the '$$' delimiter."
                ++ " (at token index 0: identifier x)")%string) s.
Proof. vm_compute. eexists. reflexivity. Qed.

Example loop_final_listing :
  code loop_final =
    [ Some "   1  PUSHI   0"; Some "   2  STO     i  ; i = <expr>";
      Some "   3  PUSHM   10000"; Some "   4  PUSHI   3";
      Some "   5  CMP_LT  ; compare <"; Some "   6  LABEL ";
      Some "7 JMP0 13"; Some "   8  PUSHM   10000"; Some "   9  PUSHI   1";
      Some "  10  A     "; Some "  11  STO     i  ; i = <expr>";
      Some "  12  JMP     6" ].
Proof. vm_compute. reflexivity. Qed.

Example branch_final_listing :
  code branch_final =
    [ Some "   1  PUSHI   0"; Some "   2  STO     i  ; i = <expr>";
      Some "   3  PUSHM   10000"; Some "   4  PUSHI   3";
      Some "   5  CMP_LT  ; compare <";
      Some "   6  PUSHI   1"; Some "   7  STO     i  ; i = <expr>";
      Some "   8  PUSHI   2"; Some "   9  STO     i  ; i = <expr>" ].
Proof. vm_compute. reflexivity. Qed.


(* ===================================================================== *)
(** ** Every parsed expression has the flat right-nested shape *)
(* ===================================================================== *)

Lemma current_token_upcoming s t :
  current_token s = Some t -> upcoming s = t :: upcoming (skip 1 s).
Proof.
  unfold current_token, upcoming, skip; simpl. intros H.
  rewrite (drop_S _ _ _ H). do 2 f_equal. lia.
Qed.

Lemma expression_operand_Ok s t s1 :
  wf s -> expression_operand t s = Ok tt s1 ->
  exists o args,
    operand_push (symbol_table s) t = Some (o, args)
    /\ instr_ptr s <= Z.of_nat (length (instructions s))
    /\ s1 = emitted (instr_text (instr_ptr s) o args None) (skip 1 s).
Proof.
  intros Hwf. unfold expression_operand, operand_push.
  assert (forall o args s0, emit o args None (skip 1 s) = Ok tt s0 ->
            instr_ptr s <= Z.of_nat (length (instructions s))
            /\ s0 = emitted (instr_text (instr_ptr s) o args None) (skip 1 s)) as Hemit.
  { intros o args s0 H. exact (emit_Ok o args None (skip 1 s) s0 Hwf H). }
  destruct (String.eqb (token_type t) "integer").
  { destruct (Py.int_of_digits (lexeme t)) as [v|]; [|discriminate].
    intros H. apply bind_Ok in H. destruct H as ([] & sx & Hm & H).
    apply match_Ok_skip in Hm. subst sx. apply Hemit in H. eauto. }
  destruct (String.eqb (token_type t) "identifier").
  { cbv zeta. intros H.
    apply bind_Ok in H. destruct H as (declared & ? & Hg & H).
    apply gets_Ok in Hg. destruct Hg as [-> ->].
    apply bind_Ok in H. destruct H as ([] & sx & Hd & H).
    unfold is_declared_in in Hd.
    apply bind_Ok in H. destruct H as (addr & sy & Hl & H).
    unfold lookup_address in Hl.
    destruct (dict_get (symbol_table s) (lexeme t)) as [[a ty]|] eqn:Hget.
    - apply ret_Ok in Hd. destruct Hd as [_ ->]. rewrite Hget in Hl.
      inversion Hl; subst addr sy.
      apply bind_Ok in H. destruct H as ([] & sz & Hm & H).
      apply match_Ok_skip in Hm. subst sz. apply Hemit in H. eauto.
    - discriminate. }
  destruct (String.eqb (token_type t) "keyword"); simpl; [|discriminate].
  destruct (String.eqb (lexeme t) "true"); simpl.
  { intros H. apply bind_Ok in H. destruct H as ([] & sx & Hm & H).
    apply match_Ok_skip in Hm. subst sx. apply Hemit in H. eauto. }
  destruct (String.eqb (lexeme t) "false"); simpl; [|discriminate].
  intros H. apply bind_Ok in H. destruct H as ([] & sx & Hm & H).
  apply match_Ok_skip in Hm. subst sx. apply Hemit in H. eauto.
Qed.

Lemma starts_with_binop_arith op r :
  starts_with_binop (op :: r) = true ->
  token_type op = "operator"
  /\ exists a, arith_opcode op = Some a
               /\ Parser.emit_arith (lexeme op) = emit a [] None.
Proof.
  unfold starts_with_binop, arith_opcode, Parser.emit_arith, Py.mem. simpl.
  destruct (String.eqb_spec (token_type op) "operator"); [|discriminate]. simpl.
  split; [assumption|].
  destruct (String.eqb (lexeme op) "+"); [eauto|].
  destruct (String.eqb (lexeme op) "-"); [eauto|].
  destruct (String.eqb (lexeme op) "*"); [eauto|].
  destruct (String.eqb (lexeme op) "/"); [eauto|]. discriminate.
Qed.

Lemma expression_parsed fuel :
  forall s s',
    wf s -> Parser.expression fuel s = Ok tt s' ->
    exists e l,
      upcoming s = Expr_tokens e ++ upcoming s'
      /\ starts_with_binop (upcoming s') = false
      /\ Expr_code (symbol_table s) e = Some l
      /\ symbol_table s' = symbol_table s
      /\ wf s'
      /\ instr_ptr s' = instr_ptr s + Z.of_nat (length l)
      /\ code s' = code s ++ listing (instr_ptr s) l.
Proof.
  induction fuel as [|n IH]; intros s s' Hwf H; [discriminate|].
  rewrite expression_S in H.
  apply bind_Ok in H. destruct H as (t & ? & Hcur & H).
  apply current_Ok in Hcur. destruct Hcur as [-> Ht].
  apply bind_Ok in H. destruct H as ([] & s1 & Hop & H).
  apply expression_operand_Ok in Hop; [|exact Hwf].
  destruct Hop as (o & args & Hpush & Hroom & Hs1).
  assert (wf s1) as Hwf1 by (rewrite Hs1; apply (wf_emitted _ (skip 1 s)); assumption).
  assert (code s1 = code s ++ [Some (instr_text (instr_ptr s) o args None)]) as Hcode1.
  { rewrite Hs1. apply (code_emitted _ (skip 1 s)); assumption. }
  assert (upcoming s = t :: upcoming s1) as Hu.
  { rewrite Hs1. apply current_token_upcoming, Ht. }
  assert (symbol_table s1 = symbol_table s) as Htab1 by (rewrite Hs1; reflexivity).
  assert (instr_ptr s1 = instr_ptr s + 1) as Hp1 by (rewrite Hs1; reflexivity).
  destruct n as [|n']; [discriminate|]. simpl while_ in H.
  destruct (at_token "operator" ["+"; "-"; "*"; "/"] s1) eqn:Hat.
  - (* an operator follows: one turn of the loop *)
    apply bind_Ok in H. destruct H as ([] & s4 & Hbody & H).
    unfold expression_operator in Hbody.
    apply bind_Ok in Hbody. destruct Hbody as (op & ? & Hcur & Hbody).
    apply current_Ok in Hcur. destruct Hcur as [-> Hop].
    apply bind_Ok in Hbody. destruct Hbody as ([] & s2 & Hm & Hbody).
    apply match_Ok_skip in Hm. subst s2.
    apply bind_Ok in Hbody. destruct Hbody as ([] & s3 & Hright & Hbody).
    pose proof (current_token_upcoming _ _ Hop) as Hu1.
    rewrite at_token_upcoming, Hu1 in Hat.
    destruct (starts_with_binop_arith op [] Hat) as (_ & a & Ha & Hemit).
    rewrite Hemit in Hbody.
    destruct (IH (skip 1 s1) s3 Hwf1 Hright)
      as (er & c & Hu3 & Hstop & Hc & Htab3 & Hwf3 & Hp3 & Hcode3).
    apply emit_Ok in Hbody; [|exact Hwf3]. destruct Hbody as [Hroom3 Hs4].
    assert (at_token "operator" ["+"; "-"; "*"; "/"] s4 = false) as Hat4.
    { rewrite at_token_upcoming, Hs4, upcoming_emitted. exact Hstop. }
    destruct n' as [|n'']; [discriminate|]. rewrite while_done in H by exact Hat4.
    inversion H; subst s'.
    exists (Binary t op er), ((o, args) :: c ++ [(a, [])]).
    change (symbol_table (skip 1 s1)) with (symbol_table s1) in *.
    change (instr_ptr (skip 1 s1)) with (instr_ptr s1) in *.
    rewrite code_skip in Hcode3. rewrite Htab1 in Hc.
    split; [rewrite Hu, Hu1, Hu3, Hs4; reflexivity|].
    split; [rewrite Hs4; exact Hstop|].
    split; [simpl; rewrite Hpush, Ha, Hc; reflexivity|].
    split; [rewrite Hs4; simpl; congruence|].
    split; [rewrite Hs4; apply wf_emitted; assumption|].
    split; [rewrite Hs4; simpl; rewrite length_app; simpl; lia|].
    rewrite Hs4, code_emitted by assumption.
    rewrite Hcode3, Hcode1, Hp3, Hp1. simpl listing. rewrite listing_app. simpl listing.
    rewrite <- !app_assoc. simpl. do 3 f_equal.
  - (* no operator follows *)
    inversion H; subst s'.
    exists (Operand t), [(o, args)].
    split; [exact Hu|]. split; [rewrite at_token_upcoming in Hat; exact Hat|].
    split; [simpl; rewrite Hpush; reflexivity|]. split; [exact Htab1|].
    split; [exact Hwf1|]. split; [simpl; lia|]. exact Hcode1.
Qed.



(* ===================================================================== *)
(** ** More fuel never changes a result *)
(* ===================================================================== *)

Lemma extends_refl {A} (m : M A) : extends m m.
Proof. intros s _. reflexivity. Qed.

Lemma extends_bind {A B} (m1 m2 : M A) (k1 k2 : A -> M B) :
  extends m1 m2 -> (forall a, extends (k1 a) (k2 a)) ->
  extends (bind m1 k1) (bind m2 k2).
Proof.
  intros Hm Hk s. unfold bind. specialize (Hm s).
  destruct (m1 s) as [a s1|e s1|]; intros H.
  - rewrite Hm by discriminate. apply Hk, H.
  - rewrite Hm by discriminate. reflexivity.
  - congruence.
Qed.

Lemma extends_out_of_fuel {A} (m : M A) : extends out_of_fuel m.
Proof. intros s H. exfalso. apply H. reflexivity. Qed.

Lemma extends_while n m c b1 b2 :
  (n <= m)%nat -> extends b1 b2 -> extends (while_ n c b1) (while_ m c b2).
Proof.
  revert m. induction n as [|n IH]; intros m Hnm Hb; [apply extends_out_of_fuel|].
  destruct m as [|m]; [lia|]. intros s H. simpl in *. destruct (c s); [|reflexivity].
  apply (extends_bind b1 b2 (fun _ => while_ n c b1) (fun _ => while_ m c b2)); auto.
  intros _. apply IH; [lia|exact Hb].
Qed.

Ltac extends_step :=
  match goal with
  | |- extends ?m ?m => apply extends_refl
  | |- extends (bind _ _) (bind _ _) => apply extends_bind; [ | intros; cbv beta zeta ]
  | |- extends (while_ _ _ _) (while_ _ _ _) => apply extends_while; [ lia | ]
  | |- extends (if ?b then _ else _) (if ?b then _ else _) => destruct b
  | |- extends (match ?x with _ => _ end) (match ?x with _ => _ end) => destruct x
  end.

Lemma extends_ids n m vt : (n <= m)%nat -> extends (Parser.ids n vt) (Parser.ids m vt).
Proof.
  revert m. induction n as [|n IH]; intros m Hnm; [apply extends_out_of_fuel|].
  destruct m as [|m]; [lia|]. simpl. repeat extends_step. apply IH. lia.
Qed.

Lemma extends_declaration n m :
  (n <= m)%nat -> extends (Parser.declaration n) (Parser.declaration m).
Proof.
  intros Hnm. unfold Parser.declaration. repeat extends_step. apply extends_ids, Hnm.
Qed.

Lemma extends_opt_declaration_list n m :
  (n <= m)%nat -> extends (Parser.opt_declaration_list n) (Parser.opt_declaration_list m).
Proof.
  intros Hnm. unfold Parser.opt_declaration_list, Parser.declaration_list.
  repeat extends_step; apply extends_declaration, Hnm.
Qed.

Lemma extends_expression n m :
  (n <= m)%nat -> extends (Parser.expression n) (Parser.expression m).
Proof.
  revert m. induction n as [|n IH]; intros m Hnm; [apply extends_out_of_fuel|].
  destruct m as [|m]; [lia|]. simpl. repeat extends_step. apply IH. lia.
Qed.

Lemma extends_condition n m :
  (n <= m)%nat -> extends (Parser.condition n) (Parser.condition m).
Proof.
  intros Hnm. unfold Parser.condition. repeat extends_step; apply extends_expression, Hnm.
Qed.

Lemma extends_statements n :
  forall m, (n <= m)%nat ->
    extends (Parser.statement n) (Parser.statement m)
    /\ (forall terms, extends (Parser.statement_list n terms) (Parser.statement_list m terms))
    /\ extends (Parser.compound_statement n) (Parser.compound_statement m)
    /\ extends (Parser.while_statement n) (Parser.while_statement m)
    /\ extends (Parser.if_statement n) (Parser.if_statement m).
Proof.
  induction n as [|n IH]; intros m Hnm.
  - repeat split; intros; apply extends_out_of_fuel.
  - destruct m as [|m]; [lia|].
    destruct (IH m ltac:(lia)) as (IHs & IHl & IHc & IHw & IHi).
    assert (extends (Parser.expression n) (Parser.expression m)) as He
        by (apply extends_expression; lia).
    assert (extends (Parser.condition n) (Parser.condition m)) as Hc
        by (apply extends_condition; lia).
    split; [|split; [|split; [|split]]]; simpl.
    + unfold Parser.return_statement, Parser.print_statement, Parser.assignment.
      repeat extends_step; assumption.
    + intros terms. repeat extends_step. assumption.
    + repeat extends_step. apply IHl.
    + repeat extends_step; auto.
    + repeat extends_step; auto.
Qed.

Lemma extends_parse_rat25s n m :
  (n <= m)%nat -> extends (Parser.parse_rat25s n) (Parser.parse_rat25s m).
Proof.
  intros Hnm. unfold Parser.parse_rat25s. repeat extends_step.
  - apply extends_opt_declaration_list, Hnm.
  - apply extends_statements, Hnm.
Qed.

(** The fuel [run] uses is as good as any larger one. *)
Lemma run_fuel_irrelevant toks fuel :
  (run_fuel toks <= fuel)%nat -> Parser.parse_rat25s fuel (reset toks) = run toks.
Proof.
  intros H. apply extends_parse_rat25s; [exact H|]. apply parse_total.
Qed.

(* ===================================================================== *)
(** ** The lexer on every source text *)
(* ===================================================================== *)

Lemma to_of_chars l : Lex.to_chars (Lex.of_chars l) = l.
Proof. induction l as [|c l IH]; simpl; congruence. Qed.

Lemma of_to_chars s : Lex.of_chars (Lex.to_chars s) = s.
Proof. induction s as [|c s IH]; simpl; congruence. Qed.

Lemma to_chars_app s1 s2 :
  Lex.to_chars (s1 ++ s2)%string = Lex.to_chars s1 ++ Lex.to_chars s2.
Proof. induction s1 as [|c s1 IH]; simpl; congruence. Qed.

Lemma span_fst_all p l : forallb p (fst (Lex.span p l)) = true.
Proof.
  induction l as [|c l IH]; simpl; auto.
  destruct (p c) eqn:E; simpl; auto.
  destruct (Lex.span p l) as [a b]. simpl in *. rewrite E, IH. reflexivity.
Qed.

Lemma span_snd_head p l c r : snd (Lex.span p l) = c :: r -> p c = false.
Proof.
  induction l as [|x l IH]; simpl; [discriminate|].
  destruct (p x) eqn:E; simpl.
  - destruct (Lex.span p l) as [a b]. simpl in *. exact IH.
  - intros H; inversion H; subst. exact E.
Qed.

Lemma span_app p a b :
  forallb p a = true ->
  match b with c :: _ => p c = false | [] => True end ->
  Lex.span p (a ++ b) = (a, b).
Proof.
  intros Ha Hb. induction a as [|x a IH]; simpl in *.
  - destruct b as [|c b]; simpl; auto. rewrite Hb. reflexivity.
  - apply andb_prop in Ha. destruct Ha as [Hx Ha]. rewrite Hx, (IH Ha). reflexivity.
Qed.

Lemma match_token_shape l w : Lex.match_token l = Some w -> lexeme_shape w.
Proof.
  destruct l as [|c r]; simpl; [discriminate|].
  destruct (Ascii.eqb_spec c "$") as [->|_].
  { destruct r as [|c2 r]; [discriminate|].
    destruct (Ascii.eqb_spec c2 "$") as [->|_]; [|discriminate].
    intros H; inversion H. apply shape_delimiter. }
  destruct (Ascii.eqb c "=" && match r with c2 :: _ => Ascii.eqb c2 ">" | [] => false end).
  { intros H; inversion H. apply shape_arrow. }
  destruct (Lex.is_letter c) eqn:Hl.
  { intros H; inversion H. apply shape_word; [exact Hl|apply span_fst_all]. }
  destruct (Lex.is_digit c) eqn:Hd.
  { pose proof (span_fst_all Lex.is_digit r) as Hds.
    destruct (Lex.span Lex.is_digit r) as [ds rest] eqn:Hs. simpl in Hds.
    assert (forallb Lex.is_digit (c :: ds) = true) as Hall by (simpl; rewrite Hd, Hds; reflexivity).
    destruct rest as [|dot rest']; [intros H; inversion H; apply shape_integer; exact Hall|].
    destruct (Ascii.eqb_spec dot ".") as [->|_];
      [|intros H; inversion H; apply shape_integer; exact Hall].
    pose proof (span_fst_all Lex.is_digit rest') as Hfs.
    destruct (Lex.span Lex.is_digit rest') as [[|f fs] rest''];
      intros H; inversion H; [apply shape_integer; exact Hall|].
    apply (shape_real c ds f fs); assumption. }
  destruct (Lex.is_opchar c) eqn:Ho.
  { destruct r as [|c2 r]; [intros H; inversion H; apply shape_op; exact Ho|].
    destruct (Ascii.eqb_spec c2 "=") as [->|_]; intros H; inversion H;
      [apply shape_op_eq|apply shape_op]; exact Ho. }
  destruct (Lex.is_sepchar c) eqn:Hsep; [|discriminate].
  intros H; inversion H. apply shape_sep. exact Hsep.
Qed.

Lemma findall_cons c r skip :
  Lex.findall (c :: r) skip =
  match skip with
  | S k => Lex.findall r k
  | O =>
      match Lex.match_token (c :: r) with
      | Some w => Lex.of_chars w :: Lex.findall r (length w - 1)
      | None => Lex.findall r 0
      end
  end.
Proof. reflexivity. Qed.

(** Every string [findall] returns is a match of the pattern. *)
Lemma findall_shape l :
  forall skip, Forall (fun x => lexeme_shape (Lex.to_chars x)) (Lex.findall l skip).
Proof.
  induction l as [|c r IH]; intros skip; [constructor|].
  rewrite findall_cons. destruct skip as [|k]; [|apply IH].
  destruct (Lex.match_token (c :: r)) as [w|] eqn:E; [|apply IH].
  constructor; [|apply IH]. rewrite to_of_chars. eapply match_token_shape, E.
Qed.

Lemma lexeme_classify w : lexeme (Lex.classify w) = w.
Proof.
  unfold Lex.classify.
  repeat match goal with |- context [if ?b then _ else _] => destruct b end; reflexivity.
Qed.

Lemma lexer_Forall (P : Token -> Prop) source_code :
  (forall w, lexeme_shape (Lex.to_chars w) -> P (Lex.classify w)) ->
  Forall P (lexer source_code).
Proof.
  intros H. unfold lexer. apply Forall_map.
  eapply Forall_impl; [apply findall_shape|]. exact H.
Qed.

Lemma is_word_token_char c : Lex.is_word c = true -> token_char c = true.
Proof. unfold token_char. intros ->. reflexivity. Qed.

Lemma is_digit_word c : Lex.is_digit c = true -> Lex.is_word c = true.
Proof. unfold Lex.is_word. intros ->. destruct (Lex.is_letter c); reflexivity. Qed.

Lemma forallb_weaken {A} (p q : A -> bool) l :
  (forall x, p x = true -> q x = true) -> forallb p l = true -> forallb q l = true.
Proof.
  intros H. induction l as [|x l IH]; simpl; auto.
  intros Hl. apply andb_prop in Hl. destruct Hl as [Hx Hl].
  rewrite (H x Hx), (IH Hl). reflexivity.
Qed.

Lemma forallb_cons_true {A} (p : A -> bool) x l :
  p x = true -> forallb p l = true -> forallb p (x :: l) = true.
Proof. intros Hx Hl. simpl. rewrite Hx, Hl. reflexivity. Qed.

Lemma is_letter_token_char c : Lex.is_letter c = true -> token_char c = true.
Proof. unfold token_char, Lex.is_word. intros ->. reflexivity. Qed.

Lemma is_opchar_token_char c : Lex.is_opchar c = true -> token_char c = true.
Proof. unfold token_char. intros ->. rewrite !orb_true_r. reflexivity. Qed.

Lemma is_sepchar_token_char c : Lex.is_sepchar c = true -> token_char c = true.
Proof. unfold token_char. intros ->. rewrite !orb_true_r. reflexivity. Qed.

Lemma lexeme_shape_chars w :
  lexeme_shape w -> w <> [] /\ forallb token_char w = true.
Proof.
  assert (forall l, forallb Lex.is_digit l = true -> forallb token_char l = true) as Hdig.
  { intros l. apply forallb_weaken. intros c Hc. apply is_word_token_char, is_digit_word, Hc. }
  intros H. destruct H; (split; [try discriminate|]); try reflexivity.
  - apply forallb_cons_true; [apply is_letter_token_char; assumption|].
    eapply forallb_weaken; [apply is_word_token_char|assumption].
  - apply Hdig; assumption.
  - rewrite forallb_app. rewrite (Hdig _ H).
    apply forallb_cons_true; [reflexivity|apply Hdig; assumption].
  - apply forallb_cons_true; [apply is_opchar_token_char; assumption|reflexivity].
  - apply forallb_cons_true; [apply is_opchar_token_char; assumption|reflexivity].
  - apply forallb_cons_true; [apply is_sepchar_token_char; assumption|reflexivity].
Qed.

(** X1.  Whatever the source text, every lexeme the lexer returns is
    non-empty and made only of letters, digits, `_`, `.`, `$`, the operator
    characters and the six separator characters of [token_pattern]: no
    lexeme holds white space, a square bracket or any other character. *)
Theorem lexer_lexeme_alphabet source_code :
  Forall (fun t => lexeme t <> ""
                   /\ forallb token_char (Lex.to_chars (lexeme t)) = true
                   /\ lexeme t <> "[" /\ lexeme t <> "]" /\ lexeme t <> " ")
    (lexer source_code).
Proof.
  apply lexer_Forall. intros w Hw. rewrite lexeme_classify.
  destruct (lexeme_shape_chars _ Hw) as [Hne Hall].
  split; [intros ->; apply Hne; reflexivity|]. split; [exact Hall|].
  repeat split; intros ->; discriminate Hall.
Qed.

Lemma is_digit_uint_of_char c d :
  Lex.is_digit c = true -> exists d', uint_of_char c (Some d) = Some d'.
Proof.
  destruct c as [[] [] [] [] [] [] [] []]; intros H; vm_compute in H;
    try discriminate H; eexists; reflexivity.
Qed.

Lemma digits_uint_of_string l :
  forallb Lex.is_digit l = true ->
  exists d, NilEmpty.uint_of_string (Lex.of_chars l) = Some d.
Proof.
  induction l as [|c l IH]; simpl; [eauto|].
  intros H. apply andb_prop in H. destruct H as [Hc Hl].
  destruct (IH Hl) as [d ->]. apply is_digit_uint_of_char, Hc.
Qed.

Lemma length_of_chars l : String.length (Lex.of_chars l) = length l.
Proof. induction l as [|c l IH]; simpl; congruence. Qed.

(** [int] converts a string of digits exactly when it has at most
    [int_max_str_digits] of them. *)
Lemma full_integer_converts w :
  Lex.full_integer w = true ->
  ((String.length w <= Py.int_max_str_digits)%nat ->
     exists v, Py.int_of_digits w = Some v /\ 0 <= v)
  /\ ((Py.int_max_str_digits < String.length w)%nat -> Py.int_of_digits w = None).
Proof.
  unfold Lex.full_integer. intros H.
  destruct (Lex.to_chars w) as [|c l] eqn:E; [discriminate|].
  assert (w = Lex.of_chars (c :: l)) as -> by (rewrite <- E, of_to_chars; reflexivity).
  destruct (digits_uint_of_string (c :: l) H) as [d Hd].
  unfold Py.int_of_digits. change (Lex.of_chars (c :: l)) with (String c (Lex.of_chars l)) in *.
  split; intros Hlen.
  - apply Nat.leb_le in Hlen. rewrite Hlen, Hd. simpl.
    eexists. split; [reflexivity|]. unfold Z.of_uint. apply N2Z.is_nonneg.
  - apply Nat.leb_gt in Hlen. rewrite Hlen. reflexivity.
Qed.

Lemma classify_integer w :
  token_type (Lex.classify w) = "integer" -> Lex.full_integer w = true.
Proof.
  unfold Lex.classify.
  destruct (Py.mem w KEYWORDS); [discriminate|].
  destruct (Py.mem w OPERATORS); [discriminate|].
  destruct (Py.mem w SEPARATORS); [discriminate|].
  destruct (Lex.full_identifier w); [discriminate|].
  destruct (Lex.full_integer w); [reflexivity|].
  destruct (Lex.full_real w); discriminate.
Qed.

(** X2.  Whatever the source text, the lexeme of every token the lexer
    classifies as "integer" is a string of digits, which [int] converts, to
    a number that is not negative, exactly when it has at most 4300 digits:
    on a longer one [int] raises [ValueError]. *)
Theorem lexer_integer_tokens_convert source_code :
  Forall (fun t =>
            token_type t = "integer" ->
            Lex.full_integer (lexeme t) = true
            /\ ((String.length (lexeme t) <= 4300)%nat ->
                  exists v, Py.int_of_digits (lexeme t) = Some v /\ 0 <= v)
            /\ ((4300 < String.length (lexeme t))%nat ->
                  Py.int_of_digits (lexeme t) = None))
    (lexer source_code).
Proof.
  apply lexer_Forall. intros w _ Hty. rewrite lexeme_classify.
  split; [apply classify_integer, Hty|].
  apply full_integer_converts, classify_integer, Hty.
Qed.

Lemma lexer_integer_tokens_convert_run :
  Lex.full_integer "42" = true
  /\ ((String.length "42" <= 4300)%nat ->
        exists v, Py.int_of_digits "42" = Some v /\ 0 <= v)
  /\ ((4300 < String.length "42")%nat -> Py.int_of_digits "42" = None).
Proof.
  exact (proj1 (Forall_lookup _ _) (lexer_integer_tokens_convert "x = 42;")
           2%nat (mkToken "integer" "42") eq_refl eq_refl).
Defined.

Lemma classify_unknown w :
  token_type (Lex.classify w) = "unknown" ->
  Py.mem w KEYWORDS = false /\ Py.mem w OPERATORS = false /\ Py.mem w SEPARATORS = false
  /\ Lex.full_identifier w = false /\ Lex.full_integer w = false
  /\ Lex.full_real w = false.
Proof.
  unfold Lex.classify.
  destruct (Py.mem w KEYWORDS); [discriminate|].
  destruct (Py.mem w OPERATORS); [discriminate|].
  destruct (Py.mem w SEPARATORS); [discriminate|].
  destruct (Lex.full_identifier w); [discriminate|].
  destruct (Lex.full_integer w); [discriminate|].
  destruct (Lex.full_real w); [discriminate|]. auto 10.
Qed.

Lemma is_opchar_cases c :
  Lex.is_opchar c = true ->
  In c ["="; "+"; "-"; "*"; "/"; "<"; ">"; "!"]%char.
Proof.
  unfold Lex.is_opchar. intros H. apply existsb_exists in H.
  destruct H as (x & Hx & Heq). apply Ascii.eqb_eq in Heq. subst x. exact Hx.
Qed.

Lemma is_sepchar_cases c :
  Lex.is_sepchar c = true -> In c ["("; ")"; ";"; ","; "{"; "}"]%char.
Proof.
  unfold Lex.is_sepchar. intros H. apply existsb_exists in H.
  destruct H as (x & Hx & Heq). apply Ascii.eqb_eq in Heq. subst x. exact Hx.
Qed.

Lemma shape_unknown l :
  lexeme_shape l ->
  token_type (Lex.classify (Lex.of_chars l)) = "unknown" ->
  In (Lex.of_chars l) unknown_lexemes.
Proof.
  intros Hw Hty. apply classify_unknown in Hty.
  destruct Hty as (Hk & Ho & Hs & Hid & Hint & Hreal).
  destruct Hw as [| |c w Hc Hw|d ds Hd|d ds f fs Hd Hf|c Hc|c Hc|c Hc].
  - vm_compute in Hs. discriminate Hs.
  - vm_compute in Ho. discriminate Ho.
  - unfold Lex.full_identifier in Hid. rewrite to_of_chars, Hc, Hw in Hid. discriminate Hid.
  - unfold Lex.full_integer in Hint. rewrite to_of_chars, Hd in Hint. discriminate Hint.
  - unfold Lex.full_real in Hreal. rewrite to_of_chars in Hreal.
    rewrite (span_app Lex.is_digit (d :: ds) ("."%char :: f :: fs) Hd eq_refl) in Hreal.
    change (forallb Lex.is_digit (f :: fs)) with
      (Lex.is_digit f && forallb Lex.is_digit fs) in Hf.
    simpl in Hreal. rewrite Hf in Hreal. discriminate Hreal.
  - apply is_opchar_cases in Hc. simpl in Hc.
    repeat (destruct Hc as [<-|Hc];
            [vm_compute in Ho; try discriminate Ho; simpl; auto 10|]).
    contradiction.
  - apply is_opchar_cases in Hc. simpl in Hc.
    repeat (destruct Hc as [<-|Hc];
            [vm_compute in Ho; try discriminate Ho; simpl; auto 10|]).
    contradiction.
  - apply is_sepchar_cases in Hc. simpl in Hc.
    repeat (destruct Hc as [<-|Hc]; [vm_compute in Hs; discriminate Hs|]). contradiction.
Qed.

(** X3.  Whatever the source text, a token the lexer classifies as "unknown"
    has one of five lexemes: `!`, `+=`, `-=`, `*=`, `/=`.  Every other match
    of [token_pattern] falls in one of the six named classes. *)
Theorem lexer_unknown_tokens source_code :
  Forall (fun t => token_type t = "unknown" -> In (lexeme t) unknown_lexemes)
    (lexer source_code).
Proof.
  apply lexer_Forall. intros w Hw Hty. rewrite lexeme_classify.
  rewrite <- (of_to_chars w). apply shape_unknown; [exact Hw|].
  rewrite of_to_chars. exact Hty.
Qed.

Lemma lexer_unknown_tokens_run : In "+=" unknown_lexemes.
Proof.
  exact (proj1 (Forall_lookup _ _) (lexer_unknown_tokens "x += 1;")
           1%nat (mkToken "unknown" "+=") eq_refl eq_refl).
Defined.

(* ===================================================================== *)
(** ** Comments *)
(* ===================================================================== *)

Lemma strip_comments_cons c r :
  Lex.strip_comments (c :: r) 0 =
  match r with
  | c2 :: r2 =>
      if Ascii.eqb c "[" && Ascii.eqb c2 "*" then
        match Lex.find_close r2 with
        | Some n => Lex.strip_comments r (S n)
        | None => c :: Lex.strip_comments r 0
        end
      else c :: Lex.strip_comments r 0
  | [] => [c]
  end.
Proof. reflexivity. Qed.

Lemma strip_comments_skip l1 l2 :
  Lex.strip_comments (l1 ++ l2) (length l1) = Lex.strip_comments l2 0.
Proof.
  induction l1 as [|c l1 IH]; simpl; [|exact IH].
  destruct l2; reflexivity.
Qed.

Lemma strip_comments_plain a l :
  forallb (fun ch => negb (Ascii.eqb ch "[")) a = true ->
  Lex.strip_comments (a ++ l) 0 = a ++ Lex.strip_comments l 0.
Proof.
  induction a as [|c a IH]; intros H; [reflexivity|].
  simpl in H. apply andb_prop in H. destruct H as [Hc Ha].
  change ((c :: a) ++ l) with (c :: (a ++ l)). rewrite strip_comments_cons.
  apply negb_true_iff in Hc. rewrite Hc. simpl andb.
  rewrite (IH Ha). destruct (a ++ l) eqn:E; [|reflexivity].
  apply app_eq_nil in E. destruct E as [-> ->]. reflexivity.
Qed.

Lemma find_close_cons c r :
  Lex.find_close (c :: r) =
  match r with
  | c2 :: _ =>
      if Ascii.eqb c "*" && Ascii.eqb c2 "]" then Some 2%nat
      else option_map S (Lex.find_close r)
  | [] => None
  end.
Proof. reflexivity. Qed.

Lemma find_close_tail c r : Lex.find_close (c :: r) = None -> Lex.find_close r = None.
Proof.
  rewrite find_close_cons. destruct r as [|c2 r']; [reflexivity|].
  destruct (Ascii.eqb c "*" && Ascii.eqb c2 "]"); [discriminate|].
  destruct (Lex.find_close (c2 :: r')); [discriminate|reflexivity].
Qed.

(** The first "*]" after a text that holds none is the one appended. *)
Lemma find_close_app c b :
  Lex.find_close c = None ->
  Lex.find_close (c ++ "*"%char :: "]"%char :: b) = Some (length c + 2)%nat.
Proof.
  induction c as [|x c IH]; intros H; [reflexivity|].
  pose proof (find_close_tail _ _ H) as Ht.
  change ((x :: c) ++ "*"%char :: "]"%char :: b)
    with (x :: (c ++ "*"%char :: "]"%char :: b)).
  rewrite find_close_cons. rewrite find_close_cons in H.
  destruct c as [|c2 c'].
  - simpl. destruct (Ascii.eqb x "*"); reflexivity.
  - change ((c2 :: c') ++ "*"%char :: "]"%char :: b)
      with (c2 :: (c' ++ "*"%char :: "]"%char :: b)) in *.
    destruct (Ascii.eqb x "*" && Ascii.eqb c2 "]") eqn:Ec; [discriminate|].
    rewrite (IH Ht). cbv iota. rewrite Ec. reflexivity.
Qed.

Lemma strip_comments_comment c b :
  Lex.find_close c = None ->
  Lex.strip_comments ("["%char :: "*"%char :: c ++ "*"%char :: "]"%char :: b) 0
  = Lex.strip_comments b 0.
Proof.
  intros H. rewrite strip_comments_cons. simpl andb. cbv iota.
  rewrite (find_close_app c b H).
  change (Lex.strip_comments ("*"%char :: c ++ "*"%char :: "]"%char :: b) (S (length c + 2)))
    with (Lex.strip_comments (c ++ "*"%char :: "]"%char :: b) (length c + 2)).
  replace (c ++ "*"%char :: "]"%char :: b) with ((c ++ ["*"; "]"]%char) ++ b)
    by (rewrite <- app_assoc; reflexivity).
  replace (length c + 2)%nat with (length (c ++ ["*"; "]"]%char))
    by (rewrite length_app; reflexivity).
  apply strip_comments_skip.
Qed.

(** X4.  A comment `[* c *]`, where [c] holds no `*]`, that follows a text
    [a] with no `[` in it, contributes nothing: the lexer returns the tokens
    of the source with the comment cut out.  The texts on its two sides are
    joined before tokenizing, so a comment does not separate tokens. *)
Theorem lexer_comment_removed (a c b : string) :
  forallb (fun ch => negb (Ascii.eqb ch "[")) (Lex.to_chars a) = true ->
  Lex.find_close (Lex.to_chars c) = None ->
  lexer (a ++ "[*" ++ c ++ "*]" ++ b)%string = lexer (a ++ b)%string.
Proof.
  intros Ha Hc.
  assert (Lex.strip_comments (Lex.to_chars (a ++ "[*" ++ c ++ "*]" ++ b)%string) 0
          = Lex.strip_comments (Lex.to_chars (a ++ b)%string) 0) as Heq.
  { rewrite !to_chars_app.
    rewrite (strip_comments_plain (Lex.to_chars a) (Lex.to_chars b) Ha).
    rewrite (strip_comments_plain (Lex.to_chars a) _ Ha). f_equal.
    exact (strip_comments_comment (Lex.to_chars c) (Lex.to_chars b) Hc). }
  unfold lexer. rewrite Heq. reflexivity.
Qed.

Lemma lexer_comment_removed_run :
  lexer "ab[* a note *]cd = 1;" = lexer "abcd = 1;".
Proof.
  apply (lexer_comment_removed "ab" " a note " "cd = 1;"); reflexivity.
Defined.

Lemma strip_comments_none l :
  Lex.find_close l = None -> Lex.strip_comments l 0 = l.
Proof.
  induction l as [|c r IH]; intros H; [reflexivity|].
  pose proof (find_close_tail _ _ H) as Hr.
  rewrite strip_comments_cons. destruct r as [|c2 r2]; [reflexivity|].
  rewrite (IH Hr).
  destruct (Ascii.eqb c "[" && Ascii.eqb c2 "*"); [|reflexivity].
  destruct r2 as [|c3 r3]; [reflexivity|].
  rewrite (find_close_tail _ _ Hr). reflexivity.
Qed.

(** X5.  In a source that holds no `*]` nothing is removed, so the text
    after an unterminated `[*` is tokenized like any other text. *)
Theorem lexer_unterminated_comment source_code :
  Lex.find_close (Lex.to_chars source_code) = None ->
  lexer source_code = map Lex.classify (Lex.findall (Lex.to_chars source_code) 0).
Proof.
  intros H. unfold lexer. rewrite (strip_comments_none _ H). reflexivity.
Qed.

Lemma lexer_unterminated_comment_run :
  lexer "x = 1; [* y = 2;" =
  map Lex.classify (Lex.findall (Lex.to_chars "x = 1; [* y = 2;") 0).
Proof. apply lexer_unterminated_comment. reflexivity. Defined.

(* ===================================================================== *)
(** ** The symbol table: insertion and lookup *)
(* ===================================================================== *)

Lemma dict_get_app {V} (d : list (string * V)) k v k' :
  dict_get (d ++ [(k, v)]) k' =
  match dict_get d k' with
  | Some x => Some x
  | None => if String.eqb k' k then Some v else None
  end.
Proof.
  induction d as [|[k0 v0] d IH]; simpl; [reflexivity|].
  destruct (String.eqb k' k0); [reflexivity|exact IH].
Qed.

Lemma dict_get_None_names {V} (d : list (string * V)) k :
  dict_get d k = None -> k ∉ map fst d.
Proof.
  induction d as [|[k0 v0] d IH]; simpl; intros H.
  - apply not_elem_of_nil.
  - destruct (String.eqb_spec k k0) as [|Hne]; [discriminate|].
    apply not_elem_of_cons. split; [exact Hne|apply IH, H].
Qed.

(** X6.  After a successful [insert_identifier] of [name], looking [name] up
    gives the address the counter had before the insertion, [name] counts as
    declared, every other name looks up as before, and inserting [name]
    again raises the already-declared error and leaves the state as it is. *)
Theorem insert_then_lookup name ty ty' s s' :
  insert_identifier name ty s = Ok tt s' ->
  lookup_address name s' = Ok (Memory_Address s) s'
  /\ is_declared name s' = Ok true s'
  /\ (forall other, other <> name ->
        dict_get (symbol_table s') other = dict_get (symbol_table s) other)
  /\ insert_identifier name ty' s' =
       Raise (Exception ("Semantic Error: Identifier '" ++ name
                         ++ "' is already declared.")%string) s'.
Proof.
  intros H. apply insert_identifier_Ok in H. destruct H as [Hnew ->].
  assert (dict_get (symbol_table s ++ [(name, (Memory_Address s, ty))]) name
          = Some (Memory_Address s, ty)) as Hget.
  { rewrite dict_get_app, Hnew, String.eqb_refl. reflexivity. }
  split; [unfold lookup_address; simpl; rewrite Hget; reflexivity|].
  split; [unfold is_declared, gets, is_declared_in; simpl; rewrite Hget; reflexivity|].
  split.
  - intros other Hne. simpl. rewrite dict_get_app.
    destruct (dict_get (symbol_table s) other); [reflexivity|].
    destruct (String.eqb_spec other name); [contradiction|reflexivity].
  - unfold insert_identifier, bind, is_declared, gets, is_declared_in, raise. simpl.
    rewrite Hget. reflexivity.
Qed.

Lemma insert_then_lookup_run :
  lookup_address "y" (after (insert_identifier "y" "boolean") full_state)
    = Ok 10001 (after (insert_identifier "y" "boolean") full_state)
  /\ is_declared "y" (after (insert_identifier "y" "boolean") full_state)
     = Ok true (after (insert_identifier "y" "boolean") full_state)
  /\ (forall other, other <> "y" ->
        dict_get (symbol_table (after (insert_identifier "y" "boolean") full_state)) other
        = dict_get (symbol_table full_state) other)
  /\ insert_identifier "y" "integer" (after (insert_identifier "y" "boolean") full_state) =
       Raise (Exception "Semantic Error: Identifier 'y' is already declared.")
         (after (insert_identifier "y" "boolean") full_state).
Proof.
  apply (insert_then_lookup "y" "boolean" "integer" full_state). reflexivity.
Defined.

(** ** Invariants that depend on how [declaration] calls [insert_identifier] *)
Section ParserKeepsDeclaration.
Variable I : State -> Prop.
Variable G : Z -> Prop.
Hypothesis I_match : forall ty lx, keeps I (Parser.match_ ty lx).
Hypothesis I_emit : forall op args c, keeps I (emit op args c).
Hypothesis I_declaration : forall fuel, keeps I (Parser.declaration fuel).
Hypothesis I_reserve : forall s, I s -> G (instr_ptr s).
Hypothesis I_patch : forall p text, G p -> keeps I (set_instruction (p - 1) text).

Lemma keeps_parse_rat25s_by_declaration fuel : keeps I (Parser.parse_rat25s fuel).
Proof.
  unfold Parser.parse_rat25s, Parser.opt_declaration_list, Parser.declaration_list.
  repeat first
    [ match goal with
      | |- keeps _ (Parser.match_ _ _) => apply I_match
      | |- keeps _ (Parser.declaration _) => apply I_declaration
      | |- keeps _ (Parser.statement_list _ _) =>
          apply keeps_statement_list with (G := G); assumption
      end
    | keeps_step ].
Qed.

End ParserKeepsDeclaration.

Lemma table_inv_same s s' :
  symbol_table s' = symbol_table s -> table_inv s -> table_inv s'.
Proof. unfold table_inv, names. intros ->. auto. Qed.

Lemma table_inv_match ty lx : keeps table_inv (Parser.match_ ty lx).
Proof.
  intros s H. destruct (Parser.match_ ty lx s) as [[] s'|e s'|] eqn:E; simpl; auto.
  - apply match_Ok_skip in E. subst s'. exact H.
  - apply match_Raise in E. subst; auto.
Qed.

Lemma table_inv_set_instruction i text : keeps table_inv (set_instruction i text).
Proof.
  intros s H. unfold set_instruction.
  destruct (Py.setitem (instructions s) i (Some text)); simpl; exact H.
Qed.

Lemma table_inv_emit op args c : keeps table_inv (emit op args c).
Proof.
  intros s H. unfold emit, bind, gets, modify, set_instruction.
  destruct (Py.setitem (instructions s) (instr_ptr s - 1) _); simpl; exact H.
Qed.

Lemma table_inv_insert name ty :
  ty = "integer" \/ ty = "boolean" -> keeps table_inv (insert_identifier name ty).
Proof.
  intros Hty s [Hn Ht].
  destruct (insert_identifier name ty s) as [[] s'|e s'|] eqn:E; simpl; auto.
  - apply insert_identifier_Ok in E. destruct E as [Hnew ->].
    unfold table_inv, names in *; simpl. split.
    + rewrite map_app. apply NoDup_app. split; [exact Hn|]. split; [|apply NoDup_singleton].
      intros x Hx Hin. apply list_elem_of_singleton in Hin. subst x.
      exact (dict_get_None_names _ _ Hnew Hx).
    + apply Forall_app. split; [exact Ht|]. constructor; [exact Hty|constructor].
  - apply insert_identifier_Raise in E. destruct E as [-> _]. split; auto.
Qed.

Lemma table_inv_ids fuel ty :
  ty = "integer" \/ ty = "boolean" -> keeps table_inv (Parser.ids fuel (Some ty)).
Proof.
  intros Hty. induction fuel as [|n IH]; simpl; [apply keeps_out_of_fuel|].
  destruct Hty as [-> | ->];
    repeat first
      [ match goal with
        | |- keeps _ (Parser.match_ _ _) => apply table_inv_match
        | |- keeps _ (insert_identifier _ _) => apply table_inv_insert; auto
        | |- keeps _ (Parser.ids _ _) => apply IH
        end
      | keeps_step ].
Qed.

Lemma table_inv_declaration fuel : keeps table_inv (Parser.declaration fuel).
Proof.
  intros s Hs. unfold Parser.declaration, Parser.qualifier.
  unfold bind at 1. unfold Parser.current at 1.
  destruct (current_token s) as [t|] eqn:Ht; [|exact Hs].
  unfold bind at 1. unfold bind at 1. unfold Parser.current at 1. rewrite Ht.
  destruct (Py.mem (lexeme t) ["integer"; "boolean"]) eqn:Em; [|exact Hs].
  pose proof (table_inv_match "keyword" None s Hs) as Hm.
  destruct (Parser.match_ "keyword" None s) as [[] s1|e s1|]; simpl in Hm; auto.
  apply table_inv_ids; [|exact Hm].
  unfold Py.mem in Em. simpl in Em.
  destruct (String.eqb_spec (lexeme t) "integer") as [->|_]; [auto|].
  destruct (String.eqb_spec (lexeme t) "boolean") as [->|_]; [auto|discriminate].
Qed.

(** X7.  In the state a run from reset stops in, no name is in the symbol
    table twice, every entry is found again under its name, and every entry
    has the type `integer` or `boolean`: `real`, which the loop of
    [declaration_list] also looks for, is never recorded. *)
Theorem symbol_table_names_unique toks :
  exists s,
    final_state (run toks) = Some s
    /\ NoDup (names s)
    /\ Forall (fun entry => dict_get (symbol_table s) (fst entry) = Some (snd entry))
         (symbol_table s)
    /\ Forall (fun entry => snd (snd entry) = "integer" \/ snd (snd entry) = "boolean")
         (symbol_table s).
Proof.
  assert (table_inv (reset toks)) as H0 by (split; constructor).
  pose proof (keeps_parse_rat25s_by_declaration table_inv (fun _ => True)
                table_inv_match table_inv_emit table_inv_declaration
                (fun _ _ => Logic.I) (fun p text _ => table_inv_set_instruction (p - 1) text)
                (run_fuel toks) (reset toks) H0) as H.
  pose proof (parse_total toks) as Hfuel. unfold run in *.
  assert (forall s, table_inv s ->
            Forall (fun entry => dict_get (symbol_table s) (fst entry) = Some (snd entry))
              (symbol_table s)) as Hfind.
  { intros s [Hn _]. unfold names in Hn. clear -Hn.
    induction (symbol_table s) as [|[k v] d IH]; [constructor|].
    simpl in Hn. apply NoDup_cons in Hn. destruct Hn as [Hk Hd].
    constructor; [simpl; rewrite String.eqb_refl; reflexivity|].
    eapply Forall_impl; [apply IH, Hd|]. intros [k' v'] Hget. simpl in *.
    destruct (String.eqb_spec k' k) as [->|_]; [|exact Hget].
    exfalso. apply Hk. clear -Hget. induction d as [|[k0 v0] d IH]; [discriminate|].
    simpl in *. destruct (String.eqb_spec k k0) as [->|_]; [left|right; auto]. }
  destruct (Parser.parse_rat25s (run_fuel toks) (reset toks)) as [[] s|e s|];
    [| |congruence]; simpl in H; exists s;
    (split; [reflexivity|]); destruct H as [Hn Ht]; repeat split; auto;
    apply Hfind; split; assumption.
Qed.

(* ===================================================================== *)
(** ** The instruction array: capacity *)
(* ===================================================================== *)

Lemma emit_Raise op args c s e s' :
  emit op args c s = Raise e s' -> e = IndexError /\ s' = s.
Proof.
  unfold emit, bind, gets, modify, set_instruction.
  destruct (Py.setitem (instructions s) (instr_ptr s - 1) _); intros H; inversion H; auto.
Qed.

Lemma set_instruction_Raise i text s e s' :
  set_instruction i text s = Raise e s' -> e = IndexError /\ s' = s.
Proof.
  unfold set_instruction.
  destruct (Py.setitem (instructions s) i (Some text)); intros H; inversion H; auto.
Qed.

Lemma setitem_None {A} (l : list A) i v :
  Py.setitem l i v = None -> i < - Z.of_nat (length l) \/ Z.of_nat (length l) <= i.
Proof.
  unfold Py.setitem.
  destruct (Z.leb_spec 0 i), (Z.ltb_spec i (Z.of_nat (length l))),
    (Z.leb_spec (- Z.of_nat (length l)) i), (Z.ltb_spec i 0);
    simpl; intros Heq; try discriminate Heq; lia.
Qed.

(** X8.  For a well-formed state, [emit] succeeds exactly when the program
    counter is within the array: it then writes the slot at the counter and
    advances the counter by one, changing nothing else; when the array is
    full it raises [IndexError] and leaves the state, counter included, as
    it was. *)
Theorem emit_bounds op args c s :
  wf s ->
  (instr_ptr s <= Z.of_nat (length (instructions s)) ->
     emit op args c s = Ok tt (emitted (instr_text (instr_ptr s) op args c) s))
  /\ (instr_ptr s = Z.of_nat (length (instructions s)) + 1 ->
        emit op args c s = Raise IndexError s).
Proof.
  intros Hwf. split.
  - intros Hroom. apply emit_room; assumption.
  - intros Hfull. unfold emit, bind, gets, modify, set_instruction.
    destruct (Py.setitem (instructions s) (instr_ptr s - 1) _) as [l|] eqn:E; [|reflexivity].
    apply setitem_Some in E. lia.
Qed.

Lemma emit_bounds_run :
  emit "SOUT" [] None full_state = Raise IndexError full_state.
Proof.
  apply (emit_bounds "SOUT" [] None full_state).
  - unfold wf. simpl. lia.
  - reflexivity.
Defined.

Lemma stream_inv_match n ty lx : keeps (stream_inv n) (Parser.match_ ty lx).
Proof.
  intros s H. destruct (Parser.match_ ty lx s) as [[] s'|e s'|] eqn:E; simpl; auto.
  - apply match_Ok_skip in E. subst s'. exact H.
  - apply match_Raise in E. subst; auto.
Qed.

Lemma stream_inv_insert n name ty : keeps (stream_inv n) (insert_identifier name ty).
Proof.
  intros s H. unfold insert_identifier, bind, is_declared, gets, modify, raise.
  destruct (is_declared_in (symbol_table s) name); simpl; exact H.
Qed.

Lemma stream_inv_emit n op args c : keeps (stream_inv n) (emit op args c).
Proof.
  intros s (Hlen & Hp & Hfill).
  assert (wf s) as Hwf by (unfold wf; rewrite Hlen; exact Hp).
  destruct (emit op args c s) as [[] s'|e s'|] eqn:E; simpl; auto.
  - apply emit_Ok in E; [|exact Hwf]. destruct E as [Hroom ->].
    split; [simpl; rewrite length_insert; exact Hlen|].
    split; [simpl; lia|].
    rewrite code_emitted by assumption. apply Forall_app. split; [exact Hfill|].
    constructor; [discriminate|constructor].
  - apply emit_Raise in E. destruct E as [_ ->]. repeat split; try lia; auto.
Qed.

Lemma stream_inv_set_instruction n i text :
  keeps (stream_inv n) (set_instruction i text).
Proof.
  intros s (Hlen & Hp & Hfill).
  destruct (set_instruction i text s) as [[] s'|e s'|] eqn:E; simpl; auto.
  - unfold set_instruction in E.
    destruct (Py.setitem (instructions s) i (Some text)) as [l|] eqn:El; [|discriminate].
    inversion E; subst s'; clear E. unfold Py.setitem in El.
    assert (exists j, l = <[j := Some text]> (instructions s)) as [j ->].
    { destruct (_ && _) in El; [inversion El; eauto|].
      destruct (_ && _) in El; [inversion El; eauto|discriminate]. }
    split; [simpl; rewrite length_insert; exact Hlen|]. split; [exact Hp|].
    unfold code in *; simpl.
    apply Forall_lookup. intros k x Hk.
    rewrite Forall_lookup in Hfill.
    apply lookup_take_Some in Hk. destruct Hk as [Hk Hlt].
    destruct (decide (j = k)) as [->|Hne].
    + apply list_lookup_insert_Some in Hk.
      destruct Hk as [(_ & <- & _)|(Hne & _)]; [discriminate|contradiction].
    + rewrite list_lookup_insert_ne in Hk by exact Hne.
      apply (Hfill k x). apply lookup_take_Some. auto.
  - apply set_instruction_Raise in E. destruct E as [_ ->]. repeat split; try lia; auto.
Qed.

(** X9.  In the state a run from reset stops in, the instruction array
    still has its 1000 slots, the program counter is between 1 and 1001, and
    every slot below the counter holds an instruction: the listing of
    [print_assembly] has no gap and never more than 1000 entries. *)
Theorem instruction_array_capacity toks :
  exists s,
    final_state (run toks) = Some s
    /\ length (instructions s) = MAX_INSTR
    /\ 1 <= instr_ptr s <= Z.of_nat MAX_INSTR + 1
    /\ Z.of_nat (length (code s)) = instr_ptr s - 1
    /\ Forall (fun slot => slot <> None) (code s).
Proof.
  assert (stream_inv MAX_INSTR (reset toks)) as H0.
  { split; [reflexivity|]. split; [simpl; lia|]. constructor. }
  pose proof (keeps_parse_rat25s (stream_inv MAX_INSTR) (fun _ => True)
                (stream_inv_match _) (stream_inv_emit _) (stream_inv_insert _)
                (fun _ _ => Logic.I)
                (fun p text _ => stream_inv_set_instruction _ (p - 1) text)
                (run_fuel toks) (reset toks) H0) as H.
  pose proof (parse_total toks) as Hfuel. unfold run in *.
  destruct (Parser.parse_rat25s (run_fuel toks) (reset toks)) as [[] s|e s|];
    [| |congruence]; simpl in H; exists s;
    (split; [reflexivity|]); destruct H as (Hlen & Hp & Hfill);
    repeat split; auto; try lia;
    rewrite code_length by (unfold wf; rewrite Hlen; exact Hp); lia.
Qed.

(* ===================================================================== *)
(** ** Which exceptions a routine can raise, and where *)
(* ===================================================================== *)

Section Guards.
Variable I : State -> Prop.
Variable E : Exn -> State -> Prop.

Lemma guards_ret {A} (a : A) : guards I E (ret a).
Proof. intros s H; exact H. Qed.

Lemma guards_gets {A} (f : State -> A) : guards I E (gets f).
Proof. intros s H; exact H. Qed.

Lemma guards_out_of_fuel {A} : guards I E (@out_of_fuel A).
Proof. intros s H; exact Logic.I. Qed.

Lemma guards_bind_at {A B} (m : M A) (k : A -> M B) s :
  match m s with Ok _ s' => I s' | Raise e s' => E e s' | OutOfFuel => True end ->
  (forall a, guards I E (k a)) ->
  match bind m k s with Ok _ s' => I s' | Raise e s' => E e s' | OutOfFuel => True end.
Proof.
  intros Hm Hk. unfold bind. destruct (m s) as [a s1|e s1|]; auto. apply Hk, Hm.
Qed.

Lemma guards_bind {A B} (m : M A) (k : A -> M B) :
  guards I E m -> (forall a, guards I E (k a)) -> guards I E (bind m k).
Proof. intros Hm Hk s H. apply guards_bind_at; [apply Hm, H|exact Hk]. Qed.

Lemma guards_while fuel c body : guards I E body -> guards I E (while_ fuel c body).
Proof.
  intros Hb. induction fuel as [|n IH]; simpl; [apply guards_out_of_fuel|].
  intros s H. destruct (c s); [|exact H].
  apply (guards_bind body (fun _ => while_ n c body)); auto.
Qed.

End Guards.

Ltac guards_leaf :=
  match goal with
  | |- guards _ _ (ret _) => apply guards_ret
  | |- guards _ _ out_of_fuel => apply guards_out_of_fuel
  | |- guards _ _ (gets _) => apply guards_gets
  | |- guards _ _ (is_declared _) => apply guards_gets
  | H : guards ?I ?E ?m |- guards ?I ?E ?m => exact H
  end.

Ltac guards_step :=
  match goal with
  | |- guards _ _ (bind _ _) => apply guards_bind; [ | intros; cbv beta zeta ]
  | |- guards _ _ (while_ _ _ _) => apply guards_while
  | |- guards _ _ (if ?b then _ else _) => destruct b
  | |- guards _ _ (match ?x with _ => _ end) => destruct x
  | |- guards _ _ _ => guards_leaf
  end.

(** Every parser routine raises only what its primitives raise, in the state
    they raise it in.  [G p] is what is known of a reserved position [p]
    once the placeholder has been emitted there. *)
Section ParserGuards.
Variable I : State -> Prop.
Variable E : Exn -> State -> Prop.
Variable G : Z -> Prop.
Hypothesis T_match : forall ty lx, guards I E (Parser.match_ ty lx).
Hypothesis T_emit : forall op args c, guards I E (emit op args c).
Hypothesis T_insert : forall name ty, guards I E (insert_identifier name ty).
Hypothesis T_current : guards I E Parser.current.
Hypothesis T_error : forall msg, guards I E (@Parser.error unit msg).
Hypothesis T_lookup : forall name, guards I E (lookup_address name).
Hypothesis T_value :
  forall s t, I s -> current_token s = Some t -> token_type t = "integer" ->
    Py.int_of_digits (lexeme t) = None -> E ValueError s.
Hypothesis T_cmp :
  forall relop, dict_get Parser.cmp_map relop = None ->
    guards I E (@raise unit (KeyError relop)).
Hypothesis T_reserve :
  forall op args c s s', I s -> emit op args c s = Ok tt s' -> G (instr_ptr s).
Hypothesis T_patch : forall p text, G p -> guards I E (set_instruction (p - 1) text).

Local Ltac prim :=
  match goal with
  | |- guards _ _ (emit _ _ _) => apply T_emit
  | |- guards _ _ (insert_identifier _ _) => apply T_insert
  | |- guards _ _ (Parser.match_ _ _) => apply T_match
  | |- guards _ _ Parser.current => apply T_current
  | |- guards _ _ (Parser.error _) => apply T_error
  | |- guards _ _ (lookup_address _) => apply T_lookup
  end.
Local Ltac go := repeat first [ prim | guards_step ].

Lemma guards_ids fuel vt : guards I E (Parser.ids fuel vt).
Proof.
  induction fuel as [|n IH]; simpl; [apply guards_out_of_fuel|]. go; auto.
Qed.

Lemma guards_declaration fuel : guards I E (Parser.declaration fuel).
Proof. unfold Parser.declaration, Parser.qualifier. go; auto using guards_ids. Qed.

Lemma guards_opt_declaration_list fuel : guards I E (Parser.opt_declaration_list fuel).
Proof.
  unfold Parser.opt_declaration_list, Parser.declaration_list.
  go; auto using guards_declaration.
Qed.

Lemma guards_emit_arith op : guards I E (Parser.emit_arith op).
Proof. unfold Parser.emit_arith. go. Qed.

(** The operand part of [expression]: the table lookup comes after the
    declared-check on the same state, so it cannot fail. *)
Lemma guards_operand s t :
  I s -> current_token s = Some t ->
  match expression_operand t s with
  | Ok _ s' => I s'
  | Raise e s' => E e s'
  | OutOfFuel => True
  end.
Proof.
  intros Hs Ht. unfold expression_operand.
  assert (forall ty op args,
             guards I E (bind (Parser.match_ ty None) (fun _ => emit op args None))) as Hpush.
  { intros. go. }
  destruct (String.eqb_spec (token_type t) "integer") as [Hty|_].
  { destruct (Py.int_of_digits (lexeme t)) eqn:Hv; [apply Hpush, Hs|].
    apply (T_value s t); assumption. }
  destruct (String.eqb (token_type t) "identifier").
  { cbv zeta. unfold bind at 1. unfold is_declared, gets, is_declared_in.
    destruct (dict_get (symbol_table s) (lexeme t)) as [[addr ty]|] eqn:Hd.
    - unfold bind at 1. unfold ret. unfold bind at 1. unfold lookup_address. rewrite Hd.
      apply Hpush, Hs.
    - unfold bind at 1. exact (T_error _ s Hs). }
  destruct (String.eqb (token_type t) "keyword" && Py.mem (lexeme t) ["true"; "false"]).
  { apply Hpush, Hs. }
  exact (T_error _ s Hs).
Qed.

Lemma guards_expression fuel : guards I E (Parser.expression fuel).
Proof.
  induction fuel as [|n IH]; [apply guards_out_of_fuel|].
  rewrite expression_S. intros s Hs. unfold bind at 1.
  pose proof (T_current s Hs) as Hc. unfold Parser.current in *.
  destruct (current_token s) as [t|] eqn:Ht; [|exact Hc].
  apply guards_bind_at; [apply guards_operand; assumption|intros _].
  apply guards_while. unfold expression_operator. go; auto using guards_emit_arith.
Qed.

Lemma guards_condition fuel : guards I E (Parser.condition fuel).
Proof.
  unfold Parser.condition.
  apply guards_bind; [apply guards_expression|intros _].
  apply guards_bind; [apply T_current|intros t]. cbv zeta.
  apply guards_bind; [apply T_match|intros _].
  apply guards_bind; [apply guards_expression|intros _].
  destruct (dict_get Parser.cmp_map (lexeme t)) eqn:Hc; [apply T_emit|apply T_cmp, Hc].
Qed.

Lemma guards_assignment fuel : guards I E (Parser.assignment fuel).
Proof. unfold Parser.assignment. go; auto using guards_expression. Qed.

Lemma guards_scan_statement : guards I E Parser.scan_statement.
Proof. unfold Parser.scan_statement. go. Qed.

Lemma guards_print_statement fuel : guards I E (Parser.print_statement fuel).
Proof. unfold Parser.print_statement. go; auto using guards_expression. Qed.

Lemma guards_return_statement fuel : guards I E (Parser.return_statement fuel).
Proof. unfold Parser.return_statement. go; auto using guards_expression. Qed.

(** Reserving the exit jump: the position read before the placeholder is
    emitted is known to satisfy [G] once the emission has succeeded. *)
Lemma guards_reserve (k : Z -> M unit) :
  (forall p, G p -> guards I E (k p)) ->
  guards I E (bind (gets instr_ptr)
                (fun p => bind (emit "JMP0" [AInt 0] None) (fun _ => k p))).
Proof.
  intros Hk s Hs. unfold bind at 1. unfold gets. unfold bind at 1.
  pose proof (T_emit "JMP0" [AInt 0] None s Hs) as He.
  destruct (emit "JMP0" [AInt 0] None s) as [[] s1|e s1|] eqn:Ee; auto.
  apply Hk; [|exact He]. eapply T_reserve; eassumption.
Qed.

Lemma guards_statements fuel :
  guards I E (Parser.statement fuel)
  /\ (forall terms, guards I E (Parser.statement_list fuel terms))
  /\ guards I E (Parser.compound_statement fuel)
  /\ guards I E (Parser.while_statement fuel)
  /\ guards I E (Parser.if_statement fuel).
Proof.
  induction fuel as [|n (IHs & IHl & IHc & IHw & IHi)]; simpl.
  - repeat split; intros; apply guards_out_of_fuel.
  - split; [|split; [|split; [|split]]].
    + go; auto using guards_assignment, guards_scan_statement,
        guards_print_statement, guards_return_statement.
    + intros terms. go; auto.
    + go; auto.
    + do 4 (apply guards_bind; [auto using guards_condition | intros _]).
      apply guards_bind; [apply guards_gets | intros start_label].
      apply guards_bind; [apply T_emit | intros _].
      apply guards_reserve. intros patch_slot HG.
      do 4 (apply guards_bind; [auto | intros _]).
      apply guards_bind; [apply guards_gets | intros exit_target].
      apply guards_bind; [apply T_patch; exact HG | intros _].
      auto.
    + go; auto using guards_condition.
Qed.

Lemma guards_parse_rat25s fuel : guards I E (Parser.parse_rat25s fuel).
Proof.
  unfold Parser.parse_rat25s. go; auto using guards_opt_declaration_list.
  apply guards_statements.
Qed.

End ParserGuards.

Lemma match_Raise_kind ty lx s e s' :
  Parser.match_ ty lx s = Raise e s' -> exists msg, e = Exception msg.
Proof.
  unfold Parser.match_, bind, gets, Parser.advance, modify, Parser.error.
  match goal with |- context [if ?b then _ else _] => destruct b end;
    intros H; inversion H; eauto.
Qed.

Lemma insert_Raise_kind name ty s e s' :
  insert_identifier name ty s = Raise e s' -> exists msg, e = Exception msg.
Proof.
  unfold insert_identifier, bind, is_declared, gets, modify, raise.
  destruct (is_declared_in (symbol_table s) name); intros H; inversion H; eauto.
Qed.

(** Invariants on the tokens alone, with what each kind of exception must
    satisfy where it is raised. *)
Section TokenGuards.
Variable P : list Token -> Prop.
Variable E : Exn -> State -> Prop.
Hypothesis E_exception : forall msg s, E (Exception msg) s.
Hypothesis E_index : forall s, E IndexError s.
Hypothesis E_attribute :
  forall s, P (tokens s) -> current_token s = None -> E AttributeError s.
Hypothesis E_lookup :
  forall s name, dict_get (symbol_table s) name = None -> E (KeyError name) s.
Hypothesis E_cmp :
  forall s relop, dict_get Parser.cmp_map relop = None -> E (KeyError relop) s.
Hypothesis E_value :
  forall s t, P (tokens s) -> current_token s = Some t -> token_type t = "integer" ->
    Py.int_of_digits (lexeme t) = None -> E ValueError s.

Let I := fun s : State => P (tokens s).

Lemma tg_match ty lx : guards I E (Parser.match_ ty lx).
Proof.
  intros s H. destruct (Parser.match_ ty lx s) as [[] s'|e s'|] eqn:Em; auto.
  - apply match_Ok_skip in Em. subst s'. exact H.
  - apply match_Raise_kind in Em. destruct Em as [msg ->]. apply E_exception.
Qed.

Lemma tg_emit op args c : guards I E (emit op args c).
Proof.
  intros s H. unfold emit, bind, gets, modify, set_instruction.
  destruct (Py.setitem (instructions s) (instr_ptr s - 1) _); simpl; auto.
Qed.

Lemma tg_set_instruction i text : guards I E (set_instruction i text).
Proof.
  intros s H. unfold set_instruction.
  destruct (Py.setitem (instructions s) i (Some text)); simpl; auto.
Qed.

Lemma tg_insert name ty : guards I E (insert_identifier name ty).
Proof.
  intros s H. unfold insert_identifier, bind, is_declared, gets, modify, raise.
  destruct (is_declared_in (symbol_table s) name); simpl; auto.
Qed.

Lemma tg_current : guards I E Parser.current.
Proof.
  intros s H. unfold Parser.current.
  destruct (current_token s) eqn:Ht; [exact H|apply E_attribute; assumption].
Qed.

Lemma tg_error msg : guards I E (@Parser.error unit msg).
Proof. intros s H. apply E_exception. Qed.

Lemma tg_lookup name : guards I E (lookup_address name).
Proof.
  intros s H. unfold lookup_address.
  destruct (dict_get (symbol_table s) name) as [[a t]|] eqn:Hd; [exact H|].
  apply E_lookup, Hd.
Qed.

Lemma tg_cmp relop :
  dict_get Parser.cmp_map relop = None -> guards I E (@raise unit (KeyError relop)).
Proof. intros Hc s H. apply E_cmp, Hc. Qed.

Lemma tg_expression fuel : guards I E (Parser.expression fuel).
Proof. apply guards_expression; auto using tg_match, tg_emit, tg_current, tg_error. Qed.

Lemma tg_assignment fuel : guards I E (Parser.assignment fuel).
Proof. apply guards_assignment; auto using tg_match, tg_emit, tg_current, tg_error. Qed.

Lemma tg_print_statement fuel : guards I E (Parser.print_statement fuel).
Proof. apply guards_print_statement; auto using tg_match, tg_emit, tg_current, tg_error. Qed.

Lemma tg_return_statement fuel : guards I E (Parser.return_statement fuel).
Proof. apply guards_return_statement; auto using tg_match, tg_emit, tg_current, tg_error. Qed.

Lemma tg_parse_rat25s fuel : guards I E (Parser.parse_rat25s fuel).
Proof.
  apply guards_parse_rat25s with (G := fun _ => True);
    auto using tg_match, tg_emit, tg_insert, tg_current, tg_error, tg_lookup, tg_cmp,
      tg_set_instruction.
Qed.

End TokenGuards.

Lemma lexer_digits_ok source_code : Forall digits_ok (lexer source_code).
Proof.
  apply lexer_Forall. intros w _ Hty. rewrite lexeme_classify. intros Hnone.
  destruct (full_integer_converts w (classify_integer w Hty)) as [Hshort _].
  destruct (Nat.le_gt_cases (String.length w) Py.int_max_str_digits) as [Hle|Hgt];
    [|exact Hgt].
  destruct (Hshort Hle) as (v & Hv & _). congruence.
Qed.

(** X10.  Compiling a source text ends in [ValueError] only at an integer
    literal of more than 4300 digits: in the state the exception is raised
    in, the tokens are those of the lexer and the cursor is on a token of
    type "integer" whose lexeme is that long. *)
Theorem ValueError_only_on_long_integer source_code s :
  compile source_code = Raise ValueError s ->
  exists t,
    current_token s = Some t
    /\ token_type t = "integer"
    /\ (4300 < String.length (lexeme t))%nat
    /\ tokens s = lexer source_code.
Proof.
  unfold compile. intros Hr.
  pose (E := fun (e : Exn) (s : State) =>
               e = ValueError ->
               exists t, current_token s = Some t /\ token_type t = "integer"
                         /\ (4300 < String.length (lexeme t))%nat).
  assert (guards (fun s => Forall digits_ok (tokens s)) E
            (Parser.parse_rat25s (run_fuel (lexer source_code)))) as H.
  { apply (tg_parse_rat25s (Forall digits_ok) E); unfold E.
    - intros ? ? ?; discriminate.
    - intros ? ?; discriminate.
    - intros ? ? ? ?; discriminate.
    - intros ? ? ? ?; discriminate.
    - intros ? ? ? ?; discriminate.
    - intros s0 t Hall Ht Hty Hnone _. exists t.
      rewrite Forall_lookup in Hall. split; [exact Ht|]. split; [exact Hty|].
      exact (Hall _ _ Ht Hty Hnone). }
  specialize (H (reset (lexer source_code)) (lexer_digits_ok source_code)).
  assert (evolves (reset (lexer source_code)) s) as Hev.
  { eapply Raise_evolves; [|exact Hr]. intros s0. apply evolves_parse_rat25s. }
  unfold run in Hr. rewrite Hr in H. destruct (H eq_refl) as (t & Ht & Hty & Hlen).
  exists t. repeat split; try assumption. exact (ev_tokens _ _ Hev).
Qed.

Lemma ValueError_only_on_long_integer_run :
  exists t,
    current_token (raised_in (Parser.parse_rat25s (run_fuel (lexer long_integer_source)))
                     (reset (lexer long_integer_source))) = Some t
    /\ token_type t = "integer"
    /\ (4300 < String.length (lexeme t))%nat
    /\ tokens (raised_in (Parser.parse_rat25s (run_fuel (lexer long_integer_source)))
                 (reset (lexer long_integer_source))) = lexer long_integer_source.
Proof.
  apply (ValueError_only_on_long_integer long_integer_source).
  vm_compute. reflexivity.
Defined.

(** X11.  A run ends in [AttributeError] only at the end of the token
    stream: the cursor is then exactly past the last token.  Input that
    stops in the middle of a statement surfaces as this raw error, not as a
    reported syntax error. *)
Theorem AttributeError_only_at_end toks s :
  run toks = Raise AttributeError s ->
  current_token s = None /\ tokens s = toks /\ current_token_index s = length toks.
Proof.
  intros Hr.
  pose (E := fun (e : Exn) (s : State) => e = AttributeError -> current_token s = None).
  assert (guards (fun _ => True) E (Parser.parse_rat25s (run_fuel toks))) as H.
  { apply (tg_parse_rat25s (fun _ => True) E); unfold E.
    - intros ? ? ?; discriminate.
    - intros ? ?; discriminate.
    - intros s0 _ Hnone _. exact Hnone.
    - intros ? ? ? ?; discriminate.
    - intros ? ? ? ?; discriminate.
    - intros ? ? ? ? ? ? ?; discriminate. }
  specialize (H (reset toks) Logic.I).
  assert (evolves (reset toks) s) as Hev.
  { eapply Raise_evolves; [|exact Hr]. intros s0. apply evolves_parse_rat25s. }
  unfold run in Hr. rewrite Hr in H. specialize (H eq_refl).
  pose proof (ev_tokens _ _ Hev) as Htok. simpl in Htok.
  pose proof (ev_index_end _ _ Hev) as Hend. simpl in Hend.
  split; [exact H|]. split; [exact Htok|].
  unfold current_token in H. apply lookup_ge_None in H. rewrite Htok in H. lia.
Qed.

Lemma AttributeError_only_at_end_run :
  current_token (raised_in (Parser.parse_rat25s 20) (reset (lexer "$$ x =")))  = None
  /\ tokens (raised_in (Parser.parse_rat25s 20) (reset (lexer "$$ x ="))) = lexer "$$ x ="
  /\ current_token_index (raised_in (Parser.parse_rat25s 20) (reset (lexer "$$ x =")))
     = length (lexer "$$ x =").
Proof.
  apply (AttributeError_only_at_end (lexer "$$ x =")). vm_compute. reflexivity.
Defined.

(** X12.  [expression], [assignment], [print_statement] and
    [return_statement] never raise [KeyError], from any state and with any
    tokens: an operand that is not in the symbol table is rejected by the
    declared-check before the table is indexed. *)
Theorem expression_never_KeyError fuel s k s' :
  Parser.expression fuel s <> Raise (KeyError k) s'
  /\ Parser.assignment fuel s <> Raise (KeyError k) s'
  /\ Parser.print_statement fuel s <> Raise (KeyError k) s'
  /\ Parser.return_statement fuel s <> Raise (KeyError k) s'.
Proof.
  pose (E := fun (e : Exn) (_ : State) => forall k, e <> KeyError k).
  assert (forall msg s, E (Exception msg) s) as E1 by (intros ? ? ?; discriminate).
  assert (forall s, E IndexError s) as E2 by (intros ? ?; discriminate).
  assert (forall s, True -> current_token s = None -> E AttributeError s) as E3
      by (intros ? ? ? ?; discriminate).
  assert (forall s t, True -> current_token s = Some t -> token_type t = "integer" ->
            Py.int_of_digits (lexeme t) = None -> E ValueError s) as E4
      by (intros ? ? ? ? ? ? ?; discriminate).
  repeat split; intros Hr.
  - assert (guards (fun _ => True) E (Parser.expression fuel)) as H
      by (apply (tg_expression (fun _ => True) E); assumption).
    specialize (H s Logic.I). rewrite Hr in H. exact (H k eq_refl).
  - assert (guards (fun _ => True) E (Parser.assignment fuel)) as H
      by (apply (tg_assignment (fun _ => True) E); assumption).
    specialize (H s Logic.I). rewrite Hr in H. exact (H k eq_refl).
  - assert (guards (fun _ => True) E (Parser.print_statement fuel)) as H
      by (apply (tg_print_statement (fun _ => True) E); assumption).
    specialize (H s Logic.I). rewrite Hr in H. exact (H k eq_refl).
  - assert (guards (fun _ => True) E (Parser.return_statement fuel)) as H
      by (apply (tg_return_statement (fun _ => True) E); assumption).
    specialize (H s Logic.I). rewrite Hr in H. exact (H k eq_refl).
Qed.

Lemma expression_never_KeyError_run :
  Parser.expression 6 scan_state <> Raise (KeyError "j") scan_state
  /\ Parser.assignment 6 scan_state <> Raise (KeyError "j") scan_state
  /\ Parser.print_statement 6 scan_state <> Raise (KeyError "j") scan_state
  /\ Parser.return_statement 6 scan_state <> Raise (KeyError "j") scan_state.
Proof. apply (expression_never_KeyError 6 scan_state "j" scan_state). Defined.

(* ===================================================================== *)
(** ** The instruction array: overflow *)
(* ===================================================================== *)

Section ArrayGuards.
Variable n : nat.
Let I := array_inv n.
Let E := index_error_when_full n.

Lemma ag_match ty lx : guards I E (Parser.match_ ty lx).
Proof.
  intros s H. destruct (Parser.match_ ty lx s) as [[] s'|e s'|] eqn:Em; auto.
  - apply match_Ok_skip in Em. subst s'. exact H.
  - apply match_Raise_kind in Em. destruct Em as [msg ->]. intros ?; discriminate.
Qed.

Lemma ag_emit op args c : guards I E (emit op args c).
Proof.
  intros s [Hlen Hp].
  assert (wf s) as Hwf by (unfold wf; rewrite Hlen; exact Hp).
  destruct (emit op args c s) as [[] s'|e s'|] eqn:Em; auto.
  - apply emit_Ok in Em; [|exact Hwf]. destruct Em as [Hroom ->].
    split; simpl; [rewrite length_insert; exact Hlen|lia].
  - intros _. unfold emit, bind, gets, modify, set_instruction in Em.
    destruct (Py.setitem (instructions s) (instr_ptr s - 1) _) eqn:Es; [discriminate|].
    inversion Em; subst s'. apply setitem_None in Es. lia.
Qed.

Lemma ag_insert name ty : guards I E (insert_identifier name ty).
Proof.
  intros s H. unfold insert_identifier, bind, is_declared, gets, modify, raise.
  destruct (is_declared_in (symbol_table s) name); simpl; [intros ?; discriminate|exact H].
Qed.

Lemma ag_current : guards I E Parser.current.
Proof.
  intros s H. unfold Parser.current.
  destruct (current_token s); [exact H|intros ?; discriminate].
Qed.

Lemma ag_error msg : guards I E (@Parser.error unit msg).
Proof. intros s H ?; discriminate. Qed.

Lemma ag_lookup name : guards I E (lookup_address name).
Proof.
  intros s H. unfold lookup_address.
  destruct (dict_get (symbol_table s) name) as [[a t]|]; [exact H|intros ?; discriminate].
Qed.

Lemma ag_reserve op args c s s' :
  I s -> emit op args c s = Ok tt s' -> 1 <= instr_ptr s <= Z.of_nat n.
Proof.
  intros [Hlen Hp] Em.
  assert (wf s) as Hwf by (unfold wf; rewrite Hlen; exact Hp).
  apply emit_Ok in Em; [|exact Hwf]. lia.
Qed.

Lemma ag_patch p text :
  1 <= p <= Z.of_nat n -> guards I E (set_instruction (p - 1) text).
Proof.
  intros Hp s [Hlen Hs]. unfold set_instruction.
  rewrite setitem_in_range by lia. split; simpl; [rewrite length_insert; exact Hlen|exact Hs].
Qed.

Lemma ag_parse_rat25s fuel : guards I E (Parser.parse_rat25s fuel).
Proof.
  apply guards_parse_rat25s with (G := fun p => 1 <= p <= Z.of_nat n);
    auto using ag_match, ag_emit, ag_insert, ag_current, ag_error, ag_lookup, ag_patch.
  - intros ? ? ? ? ? ? ?; discriminate.
  - intros relop _ s H ?; discriminate.
  - apply ag_reserve.
Qed.

End ArrayGuards.

(** X14.  From a state with the program counter within the instruction
    array, parsing raises [IndexError] only when the array is full: in the
    state it is raised in, the counter is one past the last slot and the
    array has kept the length it had at the start. *)
Theorem IndexError_only_when_full fuel s s' :
  wf s ->
  Parser.parse_rat25s fuel s = Raise IndexError s' ->
  instr_ptr s' = Z.of_nat (length (instructions s')) + 1
  /\ length (instructions s') = length (instructions s).
Proof.
  intros Hwf Hr.
  pose proof (ag_parse_rat25s (length (instructions s)) fuel s (conj eq_refl Hwf)) as H.
  assert (evolves s s') as Hev.
  { eapply Raise_evolves; [|exact Hr]. intros s0. apply evolves_parse_rat25s. }
  rewrite Hr in H. specialize (H eq_refl).
  pose proof (ev_length _ _ Hev) as Hlen. rewrite Hlen. auto.
Qed.

Lemma IndexError_only_when_full_run :
  instr_ptr (raised_in (Parser.parse_rat25s 40) (nearly_full_state "$$ $$ x = 1; $$"))
    = Z.of_nat (length (instructions
                  (raised_in (Parser.parse_rat25s 40) (nearly_full_state "$$ $$ x = 1; $$")))) + 1
  /\ length (instructions
       (raised_in (Parser.parse_rat25s 40) (nearly_full_state "$$ $$ x = 1; $$")))
     = length (instructions (nearly_full_state "$$ $$ x = 1; $$")).
Proof.
  apply (IndexError_only_when_full 40 (nearly_full_state "$$ $$ x = 1; $$")).
  - unfold wf. simpl. lia.
  - vm_compute. reflexivity.
Defined.

(* ===================================================================== *)
(** ** Assignment, print and return *)
(* ===================================================================== *)

Lemma Token_eta t : t = mkToken (token_type t) (lexeme t).
Proof. destruct t; reflexivity. Qed.

Lemma match_Ok_upcoming ty lx s s' :
  Parser.match_ ty lx s = Ok tt s' ->
  exists t,
    upcoming s = t :: upcoming s'
    /\ token_type t = ty
    /\ (forall l, lx = Some l -> lexeme t = l)
    /\ s' = skip 1 s.
Proof.
  intros H. pose proof (match_Ok_skip _ _ _ _ H) as Hs.
  apply match_Ok in H. destruct H as (t & Ht & Hty & Hlx & _).
  exists t. subst s'. split; [apply current_token_upcoming, Ht|auto].
Qed.

Lemma match_Ok_token ty l s s' :
  Parser.match_ ty (Some l) s = Ok tt s' ->
  upcoming s = mkToken ty l :: upcoming s' /\ s' = skip 1 s.
Proof.
  intros H. apply match_Ok_upcoming in H. destruct H as (t & Hu & Hty & Hlx & Hs).
  rewrite (Token_eta t), Hty, (Hlx l eq_refl) in Hu. auto.
Qed.





(** X17.  A successful [return_statement] has read `return ;` and emitted
    nothing, or `return e ;` and emitted the code of [e] alone: no
    instruction stands for the return itself. *)
Theorem return_statement_code fuel s s' :
  wf s -> Parser.return_statement fuel s = Ok tt s' ->
  (upcoming s = mkToken "keyword" "return" :: mkToken "separator" ";" :: upcoming s'
   /\ code s' = code s /\ instr_ptr s' = instr_ptr s)
  \/ (exists e l,
        upcoming s = mkToken "keyword" "return"
                       :: Expr_tokens e ++ mkToken "separator" ";" :: upcoming s'
        /\ Expr_code (symbol_table s) e = Some l
        /\ code s' = code s ++ listing (instr_ptr s) l
        /\ instr_ptr s' = instr_ptr s + Z.of_nat (length l)).
Proof.
  intros Hwf H. unfold Parser.return_statement in H.
  apply bind_Ok in H. destruct H as ([] & s1 & Hm1 & H).
  apply match_Ok_token in Hm1. destruct Hm1 as [Hu1 Hs1].
  apply bind_Ok in H. destruct H as (cur & ? & Hg & H).
  apply gets_Ok in Hg. destruct Hg as [-> ->].
  apply bind_Ok in H. destruct H as ([] & s2 & He & H).
  apply match_Ok_token in H. destruct H as [Hu3 Hs'].
  assert (wf s1) as Hwf1 by (rewrite Hs1; exact Hwf).
  destruct (current_token s1) as [t|] eqn:Ht.
  - destruct (String.eqb (lexeme t) ";").
    + apply ret_Ok in He. destruct He as [_ ->]. left.
      split; [rewrite Hu1, Hu3; reflexivity|].
      rewrite Hs', Hs1. split; reflexivity.
    + destruct (expression_parsed _ _ _ Hwf1 He)
        as (e & l & Hu2 & _ & Hc & _ & _ & Hp2 & Hcode2).
      right. exists e, l.
      split; [rewrite Hu1, Hu2, Hu3; reflexivity|].
      split; [rewrite Hs1 in Hc; exact Hc|].
      rewrite Hs', code_skip, Hcode2, Hs1. split; [reflexivity|].
      simpl. rewrite Hp2, Hs1. reflexivity.
  - apply ret_Ok in He. destruct He as [_ ->]. left.
    split; [rewrite Hu1, Hu3; reflexivity|].
    rewrite Hs', Hs1. split; reflexivity.
Qed.

Lemma return_statement_code_run :
  (upcoming (at_statement "return i + 1;")
     = mkToken "keyword" "return" :: mkToken "separator" ";"
         :: upcoming (after (Parser.return_statement 20) (at_statement "return i + 1;"))
   /\ code (after (Parser.return_statement 20) (at_statement "return i + 1;"))
      = code (at_statement "return i + 1;")
   /\ instr_ptr (after (Parser.return_statement 20) (at_statement "return i + 1;"))
      = instr_ptr (at_statement "return i + 1;"))
  \/ (exists e l,
        upcoming (at_statement "return i + 1;")
          = mkToken "keyword" "return"
              :: Expr_tokens e ++ mkToken "separator" ";"
              :: upcoming (after (Parser.return_statement 20) (at_statement "return i + 1;"))
        /\ Expr_code (symbol_table (at_statement "return i + 1;")) e = Some l
        /\ code (after (Parser.return_statement 20) (at_statement "return i + 1;"))
           = code (at_statement "return i + 1;")
               ++ listing (instr_ptr (at_statement "return i + 1;")) l
        /\ instr_ptr (after (Parser.return_statement 20) (at_statement "return i + 1;"))
           = instr_ptr (at_statement "return i + 1;") + Z.of_nat (length l)).
Proof.
  apply (return_statement_code 20 (at_statement "return i + 1;")
           (after (Parser.return_statement 20) (at_statement "return i + 1;"))).
  - unfold wf. simpl. lia.
  - vm_compute. reflexivity.
Defined.

(* ===================================================================== *)
(** ** Instructions emitted against tokens consumed *)
(* ===================================================================== *)

Lemma gains_weaken {A} d r d' r' (m : M A) :
  gains d r m -> d' <= d -> r' <= r -> gains d' r' m.
Proof.
  intros H Hd Hr s. specialize (H s). destruct (m s); auto; lia.
Qed.

Lemma gains_at {A} d r (m : M A) : gains d r m -> gains d r m.
Proof. auto. Qed.

Lemma gains_bind {A B} d1 r1 d2 r2 (m : M A) (k : A -> M B) :
  gains d1 r1 m -> (forall a, gains d2 r2 (k a)) ->
  gains (d1 + d2) (Z.min r1 (d1 + r2)) (bind m k).
Proof.
  intros Hm Hk s. unfold bind. specialize (Hm s).
  destruct (m s) as [a s1|e s1|]; [|lia|exact Logic.I].
  specialize (Hk a s1). destruct (k a s1); auto; lia.
Qed.

Lemma gains_ret {A} (a : A) : gains 0 0 (ret a).
Proof. intros s. simpl. lia. Qed.

Lemma gains_gets {A} (f : State -> A) : gains 0 0 (gets f).
Proof. intros s. simpl. lia. Qed.

Lemma gains_raise {A} e : gains 0 0 (@raise A e).
Proof. intros s. simpl. lia. Qed.

Lemma gains_error {A} msg : gains 0 0 (@Parser.error A msg).
Proof. intros s. simpl. lia. Qed.

Lemma gains_out_of_fuel {A} d r : gains d r (@out_of_fuel A).
Proof. intros s. exact Logic.I. Qed.

Lemma gains_current : gains 0 0 Parser.current.
Proof. intros s. unfold Parser.current. destruct (current_token s); lia. Qed.

Lemma gains_match ty lx : gains 1 0 (Parser.match_ ty lx).
Proof.
  intros s. destruct (Parser.match_ ty lx s) as [[] s'|e s'|] eqn:E; auto.
  - apply match_Ok_skip in E. subst s'. unfold slack, skip; simpl. lia.
  - apply match_Raise in E. subst s'. lia.
Qed.

Lemma gains_set_instruction i text : gains 0 0 (set_instruction i text).
Proof.
  intros s. unfold set_instruction.
  destruct (Py.setitem (instructions s) i (Some text)); unfold slack; simpl; lia.
Qed.

Lemma gains_emit op args c : gains (-1) 0 (emit op args c).
Proof.
  intros s. unfold emit, bind, gets, modify, set_instruction.
  destruct (Py.setitem (instructions s) (instr_ptr s - 1) _); unfold slack; simpl; lia.
Qed.

Lemma gains_insert name ty : gains 0 0 (insert_identifier name ty).
Proof.
  intros s. unfold insert_identifier, bind, is_declared, gets, modify, raise.
  destruct (is_declared_in (symbol_table s) name); unfold slack; simpl; lia.
Qed.

Lemma gains_is_declared name : gains 0 0 (is_declared name).
Proof. intros s. unfold is_declared, gets. lia. Qed.

Lemma gains_lookup name : gains 0 0 (lookup_address name).
Proof.
  intros s. unfold lookup_address.
  destruct (dict_get (symbol_table s) name) as [[a t]|]; lia.
Qed.

Lemma gains_while fuel c body : gains 0 0 body -> gains 0 0 (while_ fuel c body).
Proof.
  intros Hb. induction fuel as [|n IH]; simpl; [apply gains_out_of_fuel|].
  intros s. destruct (c s); [|lia].
  apply (gains_bind 0 0 0 0 body (fun _ => while_ n c body) Hb (fun _ => IH)).
Qed.

Lemma gains_emit_arith op : gains (-1) 0 (Parser.emit_arith op).
Proof.
  unfold Parser.emit_arith.
  repeat match goal with
         | |- gains _ _ (if ?b then _ else _) => destruct b; [apply gains_emit|]
         end.
  apply (gains_weaken 0 0); [apply gains_ret|lia|lia].
Qed.

Lemma gains_cmp relop :
  gains (-1) 0 (match dict_get Parser.cmp_map relop with
                | Some op => emit op [] (Some ("compare " ++ relop)%string)
                | None => raise (KeyError relop)
                end).
Proof.
  destruct (dict_get Parser.cmp_map relop); [apply gains_emit|].
  apply (gains_weaken 0 0); [apply gains_raise|lia|lia].
Qed.

(** Follows the shape of a routine: sequences add up, every branch and
    every loop body is brought to [gains 0 0]. *)
Ltac gains_go :=
  cbv zeta;
  lazymatch goal with
  | |- gains _ _ (bind _ _) => eapply gains_bind; [gains_go | intros; gains_go]
  | |- gains _ _ (Parser.match_ _ _) => apply gains_match
  | |- gains _ _ (emit _ _ _) => apply gains_emit
  | |- gains _ _ (set_instruction _ _) => apply gains_set_instruction
  | |- gains _ _ (insert_identifier _ _) => apply gains_insert
  | |- gains _ _ (is_declared _) => apply gains_is_declared
  | |- gains _ _ (lookup_address _) => apply gains_lookup
  | |- gains _ _ (Parser.emit_arith _) => apply gains_emit_arith
  | |- gains _ _ (gets _) => apply gains_gets
  | |- gains _ _ (ret _) => apply gains_ret
  | |- gains _ _ (raise _) => apply gains_raise
  | |- gains _ _ (Parser.error _) => apply gains_error
  | |- gains _ _ Parser.current => apply gains_current
  | |- gains _ _ out_of_fuel => apply gains_out_of_fuel
  | |- gains _ _ (while_ _ _ _) =>
      apply gains_while; eapply gains_weaken; [gains_go | simpl; lia | simpl; lia]
  | |- gains _ _ (match dict_get Parser.cmp_map _ with _ => _ end) => apply gains_cmp
  | |- gains _ _ (match ?x with _ => _ end) =>
      apply (gains_at 0 0); destruct x;
      (eapply gains_weaken; [gains_go | simpl; lia | simpl; lia])
  | |- gains _ _ _ => first [eassumption | solve [eauto]]
  end.

Ltac gains_zero := eapply gains_weaken; [gains_go | simpl; lia | simpl; lia].

Lemma gains_ids fuel vt : gains 0 0 (Parser.ids fuel vt).
Proof.
  induction fuel as [|n IH]; simpl; [apply gains_out_of_fuel|]. gains_zero.
Qed.

Lemma gains_declaration fuel : gains 0 0 (Parser.declaration fuel).
Proof.
  pose proof (fun vt => gains_ids fuel vt) as Hids.
  unfold Parser.declaration, Parser.qualifier. gains_zero.
Qed.

Lemma gains_opt_declaration_list fuel : gains 0 0 (Parser.opt_declaration_list fuel).
Proof.
  pose proof (gains_declaration fuel) as Hdecl.
  unfold Parser.opt_declaration_list, Parser.declaration_list. gains_zero.
Qed.

Lemma gains_expression fuel : gains 0 0 (Parser.expression fuel).
Proof.
  induction fuel as [|n IH]; simpl; [apply gains_out_of_fuel|]. gains_zero.
Qed.

Lemma gains_condition fuel : gains 0 0 (Parser.condition fuel).
Proof.
  pose proof (gains_expression fuel) as He.
  unfold Parser.condition. gains_zero.
Qed.

Lemma gains_assignment fuel : gains 0 0 (Parser.assignment fuel).
Proof.
  pose proof (gains_expression fuel) as He.
  unfold Parser.assignment. gains_zero.
Qed.

Lemma gains_scan_statement : gains 0 0 Parser.scan_statement.
Proof. unfold Parser.scan_statement. gains_zero. Qed.

Lemma gains_print_statement fuel : gains 0 0 (Parser.print_statement fuel).
Proof.
  pose proof (gains_expression fuel) as He.
  unfold Parser.print_statement. gains_zero.
Qed.

Lemma gains_return_statement fuel : gains 0 0 (Parser.return_statement fuel).
Proof.
  pose proof (gains_expression fuel) as He.
  unfold Parser.return_statement. gains_zero.
Qed.

Lemma gains_statements fuel :
  gains 0 0 (Parser.statement fuel)
  /\ (forall terms, gains 0 0 (Parser.statement_list fuel terms))
  /\ gains 0 0 (Parser.compound_statement fuel)
  /\ gains 0 0 (Parser.while_statement fuel)
  /\ gains 0 0 (Parser.if_statement fuel).
Proof.
  induction fuel as [|n (IHs & IHl & IHc & IHw & IHi)]; simpl.
  - repeat split; intros; apply gains_out_of_fuel.
  - pose proof (gains_condition n) as Hcond.
    pose proof (gains_assignment n) as Hassign.
    pose proof (gains_print_statement n) as Hprint.
    pose proof (gains_return_statement n) as Hreturn.
    pose proof gains_scan_statement as Hscan.
    split; [|split; [|split; [|split]]].
    + gains_zero.
    + intros terms. apply gains_while. exact IHs.
    + pose proof (IHl ["}"]) as Hl. gains_zero.
    + pose proof (IHl ["}"]) as Hl. gains_zero.
    + gains_zero.
Qed.

Lemma gains_parse_rat25s fuel : gains 0 0 (Parser.parse_rat25s fuel).
Proof.
  pose proof (gains_opt_declaration_list fuel) as Hdecl.
  pose proof (proj1 (proj2 (gains_statements fuel)) ["$$"]) as Hl.
  unfold Parser.parse_rat25s. gains_zero.
Qed.

(** X18.  A run never emits more instructions than it has consumed tokens:
    in the state it stops in, returning or raising, the number of
    instructions emitted is at most the cursor, which is at most the number
    of tokens. *)
Theorem emitted_at_most_consumed toks :
  exists s,
    final_state (run toks) = Some s
    /\ instr_ptr s - 1 <= Z.of_nat (current_token_index s)
    /\ (current_token_index s <= length toks)%nat.
Proof.
  pose proof (gains_parse_rat25s (run_fuel toks) (reset toks)) as Hg.
  pose proof (evolves_parse_rat25s (reset toks) (run_fuel toks) (reset toks)
                (evolves_refl _)) as Hev.
  pose proof (parse_total toks) as Htot. unfold run in *.
  destruct (Parser.parse_rat25s (run_fuel toks) (reset toks)) as [[] s|e s|];
    [| |congruence]; exists s; simpl in Hev;
    (split; [reflexivity|]);
    pose proof (ev_index_end _ _ Hev) as Hend; simpl in Hend;
    unfold slack in Hg; simpl in Hg; split; lia.
Qed.

(** X19.  A token stream shorter than the instruction array cannot overflow
    it: with fewer than [MAX_INSTR] tokens a run never raises
    [IndexError]. *)
Theorem short_program_never_overflows toks s :
  (length toks < MAX_INSTR)%nat -> run toks <> Raise IndexError s.
Proof.
  intros Hlen Hr.
  pose proof (gains_parse_rat25s (run_fuel toks) (reset toks)) as Hg.
  pose proof (evolves_parse_rat25s (reset toks) (run_fuel toks) (reset toks)
                (evolves_refl _)) as Hev.
  assert (array_inv MAX_INSTR (reset toks)) as Hinv.
  { split; [reflexivity|simpl; lia]. }
  pose proof (ag_parse_rat25s MAX_INSTR (run_fuel toks) (reset toks) Hinv) as Hfull.
  unfold run in Hr. rewrite Hr in Hg, Hev, Hfull. simpl in Hev.
  specialize (Hfull eq_refl).
  pose proof (ev_index_end _ _ Hev) as Hend. simpl in Hend.
  unfold slack in Hg. simpl in Hg. unfold MAX_INSTR in *. lia.
Qed.

Lemma short_program_never_overflows_run :
  run (lexer "$$ integer x; $$ x = 1; $$") <> Raise IndexError (reset []).
Proof.
  apply (short_program_never_overflows (lexer "$$ integer x; $$ x = 1; $$") (reset [])).
  vm_compute. lia.
Defined.

(* ===================================================================== *)
(** ** Declarations against statements *)
(* ===================================================================== *)

Lemma keeps_match_of (I : State -> Prop) ty lx :
  (forall s, I s -> I (skip 1 s)) -> keeps I (Parser.match_ ty lx).
Proof.
  intros HI s H. destruct (Parser.match_ ty lx s) as [[] s'|e s'|] eqn:E; simpl; auto.
  - apply match_Ok_skip in E. subst s'. auto.
  - apply match_Raise in E. subst; auto.
Qed.

Lemma keeps_insert_of (I : State -> Prop) name ty :
  (forall s tbl m, I s ->
     I (mkState (tokens s) (current_token_index s) tbl m (instructions s) (instr_ptr s))) ->
  keeps I (insert_identifier name ty).
Proof.
  intros HI s H. unfold insert_identifier, bind, is_declared, gets, modify, raise.
  destruct (is_declared_in (symbol_table s) name); simpl; auto.
Qed.

Lemma keeps_set_instruction_of (I : State -> Prop) i text :
  (forall s ins p, I s ->
     I (mkState (tokens s) (current_token_index s) (symbol_table s) (Memory_Address s) ins p)) ->
  keeps I (set_instruction i text).
Proof.
  intros HI s H. unfold set_instruction.
  destruct (Py.setitem (instructions s) i (Some text)); simpl; auto.
Qed.

Lemma keeps_emit_of (I : State -> Prop) op args c :
  (forall s ins p, I s ->
     I (mkState (tokens s) (current_token_index s) (symbol_table s) (Memory_Address s) ins p)) ->
  keeps I (emit op args c).
Proof.
  intros HI s H. unfold emit, bind, gets, modify, set_instruction.
  destruct (Py.setitem (instructions s) (instr_ptr s - 1) _); simpl; auto.
Qed.

(** X20.  The two halves of a program touch disjoint parts of the state:
    the declaration list writes no instruction and leaves the program
    counter alone, and a statement list never changes the symbol table or
    the next free address, whether they return or raise. *)
Theorem declarations_and_statements_are_separate fuel s :
  post (fun _ s' => instructions s' = instructions s /\ instr_ptr s' = instr_ptr s)
       (fun s' => instructions s' = instructions s /\ instr_ptr s' = instr_ptr s)
       (Parser.opt_declaration_list fuel s)
  /\ forall terminators,
       post (fun _ s' => symbol_table s' = symbol_table s
                         /\ Memory_Address s' = Memory_Address s)
            (fun s' => symbol_table s' = symbol_table s
                       /\ Memory_Address s' = Memory_Address s)
            (Parser.statement_list fuel terminators s).
Proof.
  split.
  - apply (keeps_opt_declaration_list
             (fun s' => instructions s' = instructions s /\ instr_ptr s' = instr_ptr s)).
    + intros ty lx. apply keeps_match_of. auto.
    + intros name ty. apply keeps_insert_of. auto.
    + auto.
  - intros terminators.
    apply (keeps_statement_list
             (fun s' => symbol_table s' = symbol_table s
                        /\ Memory_Address s' = Memory_Address s)
             (fun _ => True)).
    + intros ty lx. apply keeps_match_of. auto.
    + intros op args c. apply keeps_emit_of. auto.
    + auto.
    + intros p text _. apply keeps_set_instruction_of. auto.
    + auto.
Qed.

(* ===================================================================== *)
(** ** Termination *)
(* ===================================================================== *)

(** X21.  Parsing stops from every state: every loop of the parser consumes
    a token on each turn, so a fuel of three times the tokens left plus four
    is never used up, and any larger fuel gives the same result. *)
Theorem parsing_terminates fuel s :
  (3 * remaining s + 4 <= fuel)%nat ->
  Parser.parse_rat25s fuel s <> OutOfFuel
  /\ forall fuel', (fuel <= fuel')%nat ->
       Parser.parse_rat25s fuel' s = Parser.parse_rat25s fuel s.
Proof.
  intros Hf.
  assert (Parser.parse_rat25s fuel s <> OutOfFuel) as Hstop.
  { intros E. pose proof (eats_parse_rat25s fuel (remaining s) Hf s (le_n _)) as H.
    rewrite E in H. exact H. }
  split; [exact Hstop|].
  intros fuel' Hle. apply (extends_parse_rat25s fuel fuel' Hle). exact Hstop.
Qed.

Lemma parsing_terminates_run :
  Parser.parse_rat25s 40 (reset (lexer "$$ integer x; $$ x = 1; $$")) <> OutOfFuel
  /\ forall fuel', (40 <= fuel')%nat ->
       Parser.parse_rat25s fuel' (reset (lexer "$$ integer x; $$ x = 1; $$"))
       = Parser.parse_rat25s 40 (reset (lexer "$$ integer x; $$ x = 1; $$")).
Proof.
  apply (parsing_terminates 40 (reset (lexer "$$ integer x; $$ x = 1; $$"))).
  vm_compute. lia.
Defined.

(* ===================================================================== *)
(** ** The delimiters *)
(* ===================================================================== *)

(** X22.  A token stream that does not begin with the `$$` separator, the
    empty one included, is rejected at once: the run raises the syntax
    error that names the missing delimiter and the token found, at index 0,
    and the state is the reset state. *)
Theorem program_must_begin_with_delimiter toks :
  head toks <> Some (mkToken "separator" "$$") ->
  run toks
  = Raise (Exception
             ("Syntax Error: "
              ++ ("Expected separator '$$', found " ++ found_str (head toks)
                  ++ ". The program must begin with the '$$' delimiter.")
              ++ " (at token index 0: " ++ found_str (head toks) ++ ")"))
          (reset toks).
Proof.
  intros Hhead. unfold run, Parser.parse_rat25s.
  unfold bind at 1.
  assert (Parser.match_ "separator" (Some "$$") (reset toks)
          = Raise (Exception
                     ("Syntax Error: "
                      ++ ("Expected separator '$$', found " ++ found_str (head toks)
                          ++ ". The program must begin with the '$$' delimiter.")
                      ++ " (at token index 0: " ++ found_str (head toks) ++ ")"))
                  (reset toks)) as ->; [|reflexivity].
  unfold Parser.match_, bind, gets, Parser.error, current_token.
  destruct toks as [|[ty lx] r]; [reflexivity|].
  cbn [reset tokens current_token_index lookup list_lookup head token_type lexeme].
  destruct (String.eqb_spec ty "separator") as [->|Hty];
    [destruct (String.eqb_spec lx "$$") as [->|Hlx]|].
  - exfalso. apply Hhead. reflexivity.
  - reflexivity.
  - reflexivity.
Qed.

Lemma program_must_begin_with_delimiter_run :
  run (lexer "integer x; $$")
  = Raise (Exception
             ("Syntax Error: "
              ++ ("Expected separator '$$', found " ++ found_str (head (lexer "integer x; $$"))
                  ++ ". The program must begin with the '$$' delimiter.")
              ++ " (at token index 0: " ++ found_str (head (lexer "integer x; $$")) ++ ")"))
          (reset (lexer "integer x; $$")).
Proof.
  apply (program_must_begin_with_delimiter (lexer "integer x; $$")).
  vm_compute. discriminate.
Defined.

Lemma while_exit fuel c body s s' : while_ fuel c body s = Ok tt s' -> c s' = false.
Proof.
  revert s. induction fuel as [|n IH]; intros s; simpl; [discriminate|].
  destruct (c s) eqn:Ec.
  - intros H. apply bind_Ok in H. destruct H as ([] & s1 & _ & H). eauto.
  - intros H. inversion H; subst. exact Ec.
Qed.

(** X23.  An accepted program is never empty: when a run returns normally,
    at least one of the tokens it consumed is not the `$$` separator.  The
    leading delimiters are all consumed by the first loop, so `$$ $$ $$`,
    with no declaration and no statement, is rejected. *)
Theorem accepted_program_has_content toks s :
  run toks = Ok tt s ->
  exists i t,
    (i < current_token_index s)%nat
    /\ toks !! i = Some t
    /\ t <> mkToken "separator" "$$".
Proof.
  intros H. unfold run, Parser.parse_rat25s in H.
  apply bind_Ok in H. destruct H as ([] & s1 & H1 & H).
  apply bind_Ok in H. destruct H as ([] & s2 & H2 & H).
  apply bind_Ok in H. destruct H as ([] & s3 & H3 & H).
  apply bind_Ok in H. destruct H as (here & ? & Hg & H).
  apply gets_Ok in Hg. destruct Hg as [-> ->].
  apply bind_Ok in H. destruct H as ([] & s4 & H4 & H).
  apply bind_Ok in H. destruct H as ([] & s5 & H5 & H).
  assert (evolves (reset toks) s1) as E1.
  { eapply Ok_evolves; [|exact H1]. intros s0. apply evolves_match. }
  assert (evolves s1 s2) as E2.
  { eapply Ok_evolves; [|exact H2]. intros s0. apply keeps_while, evolves_match. }
  assert (evolves s2 s3) as E3.
  { eapply Ok_evolves; [|exact H3]. intros s0.
    apply keeps_opt_declaration_list; auto using evolves_match, evolves_insert. }
  assert (evolves s3 s4) as E4.
  { destruct (Parser.at_delimiter s3).
    - eapply Ok_evolves; [|exact H4]. intros s0. apply evolves_match.
    - apply ret_Ok in H4. destruct H4 as [_ ->]. apply evolves_refl. }
  assert (evolves s4 s5) as E5.
  { eapply Ok_evolves; [|exact H5]. intros s0. apply evolves_statement_list. }
  apply while_exit in H2.
  apply match_Ok in H. destruct H as (t & Ht & Hty & Hlx & ->).
  specialize (Hlx _ eq_refl).
  assert (tokens s2 = toks) as T2.
  { rewrite (ev_tokens _ _ E2), (ev_tokens _ _ E1). reflexivity. }
  assert (tokens s5 = toks) as T5.
  { rewrite (ev_tokens _ _ E5), (ev_tokens _ _ E4), (ev_tokens _ _ E3). exact T2. }
  pose proof (ev_index _ _ E3). pose proof (ev_index _ _ E4). pose proof (ev_index _ _ E5).
  pose proof (current_token_length _ _ Ht) as Hlen. rewrite T5 in Hlen.
  unfold current_token in Ht. rewrite T5 in Ht.
  destruct (toks !! current_token_index s2) as [t2|] eqn:Ht2;
    [|apply lookup_ge_None in Ht2; lia].
  exists (current_token_index s2), t2. simpl.
  split; [|split; [exact Ht2|]].
  - destruct (Nat.eq_dec (current_token_index s2) (current_token_index s5)) as [Heq|]; [|lia].
    exfalso. rewrite Heq in Ht2. rewrite Ht in Ht2. inversion Ht2; subst t2.
    unfold Parser.at_delimiter, at_token, current_token in H2.
    rewrite T2, Heq, Ht, Hty, Hlx in H2. discriminate.
  - intros ->. unfold Parser.at_delimiter, at_token, current_token in H2.
    rewrite T2, Ht2 in H2. discriminate.
Qed.

Lemma accepted_program_has_content_run :
  exists i t,
    (i < current_token_index
           (after (Parser.parse_rat25s 40) (reset (lexer "$$ $$ x = 1; $$"))))%nat
    /\ lexer "$$ $$ x = 1; $$" !! i = Some t
    /\ t <> mkToken "separator" "$$".
Proof.
  apply (accepted_program_has_content (lexer "$$ $$ x = 1; $$")
           (after (Parser.parse_rat25s 40) (reset (lexer "$$ $$ x = 1; $$")))).
  vm_compute. reflexivity.
Defined.

(* ===================================================================== *)
(** ** The operator of a condition *)
(* ===================================================================== *)

Lemma bind_Raise {A B} (m : M A) (k : A -> M B) s e s' :
  bind m k s = Raise e s' ->
  m s = Raise e s' \/ exists a s1, m s = Ok a s1 /\ k a s1 = Raise e s'.
Proof.
  unfold bind. destruct (m s) as [a s1|e1 s1|]; intros H.
  - right. exists a, s1. auto.
  - left. inversion H. reflexivity.
  - discriminate.
Qed.

Lemma expression_no_KeyError fuel s k s' :
  Parser.expression fuel s <> Raise (KeyError k) s'.
Proof.
  intros Hr.
  assert (guards (fun _ => True) (fun e _ => forall k, e <> KeyError k)
            (Parser.expression fuel)) as H.
  { apply (tg_expression (fun _ => True)); try (intros; discriminate). }
  specialize (H s Logic.I). rewrite Hr in H. exact (H k eq_refl).
Qed.

Lemma operator_not_relational k :
  Py.mem k OPERATORS = true ->
  dict_get Parser.cmp_map k = None ->
  Py.mem k ["+"; "-"; "*"; "/"] = false ->
  k = "=" \/ k = "=>".
Proof.
  unfold Py.mem. intros Hop Hcmp Har. apply existsb_exists in Hop.
  destruct Hop as (o & Hin & Heq). apply String.eqb_eq in Heq. subst o.
  simpl in Hin.
  repeat (destruct Hin as [<-|Hin]; [first [left; reflexivity | right; reflexivity
                                           | discriminate Hcmp | discriminate Har]|]).
  destruct Hin.
Qed.

(** X24.  When [condition] raises [KeyError], both operand expressions have
    been read and their code emitted, and the key is the lexeme of the
    operator between them: one that [cmp_map] does not map and that is not
    arithmetic.  Among the operators of the lexer these are `=` and `=>`. *)
Theorem condition_KeyError fuel s s' k :
  wf s -> Parser.condition fuel s = Raise (KeyError k) s' ->
  exists e1 l1 e2 l2,
    upcoming s = Expr_tokens e1 ++ mkToken "operator" k :: Expr_tokens e2 ++ upcoming s'
    /\ Expr_code (symbol_table s) e1 = Some l1
    /\ Expr_code (symbol_table s) e2 = Some l2
    /\ dict_get Parser.cmp_map k = None
    /\ (Py.mem k OPERATORS = true -> k = "=" \/ k = "=>")
    /\ code s' = code s ++ listing (instr_ptr s) l1
                   ++ listing (instr_ptr s + Z.of_nat (length l1)) l2.
Proof.
  intros Hwf H. unfold Parser.condition in H.
  apply bind_Raise in H. destruct H as [H|([] & s1 & He1 & H)];
    [exfalso; exact (expression_no_KeyError _ _ _ _ H)|].
  destruct (expression_parsed _ _ _ Hwf He1)
    as (e1 & l1 & Hu1 & Hstop & Hc1 & Htab1 & Hwf1 & Hp1 & Hcode1).
  apply bind_Raise in H. destruct H as [H|(t & ? & Hcur & H)].
  { unfold Parser.current in H. destruct (current_token s1); discriminate. }
  apply current_Ok in Hcur. destruct Hcur as [-> Ht]. cbv zeta in H.
  apply bind_Raise in H. destruct H as [H|([] & s2 & Hm & H)].
  { apply match_Raise_kind in H. destruct H as [msg H]. discriminate. }
  apply match_Ok_upcoming in Hm. destruct Hm as (t' & Hu2 & Hty & _ & Hs2).
  assert (t' = t) as ->.
  { apply upcoming_cons in Hu2. destruct Hu2 as [Hu2 _]. congruence. }
  apply bind_Raise in H. destruct H as [H|([] & s3 & He2 & H)];
    [exfalso; exact (expression_no_KeyError _ _ _ _ H)|].
  assert (wf s2) as Hwf2 by (rewrite Hs2; exact Hwf1).
  destruct (expression_parsed _ _ _ Hwf2 He2)
    as (e2 & l2 & Hu3 & _ & Hc2 & _ & _ & _ & Hcode3).
  destruct (dict_get Parser.cmp_map (lexeme t)) as [op|] eqn:Hcmp.
  { apply emit_Raise in H. destruct H as [H _]. discriminate. }
  unfold raise in H. inversion H; subst k s'. clear H.
  exists e1, l1, e2, l2.
  split; [rewrite Hu1, Hu2, Hu3, (Token_eta t), Hty; reflexivity|].
  split; [exact Hc1|].
  split; [rewrite Hs2 in Hc2; simpl in Hc2; rewrite Htab1 in Hc2; exact Hc2|].
  split; [exact Hcmp|].
  split.
  - intros Hop. apply operator_not_relational; [exact Hop|exact Hcmp|].
    rewrite Hu2 in Hstop. simpl in Hstop. rewrite Hty in Hstop. exact Hstop.
  - rewrite Hcode3, Hs2, code_skip, Hcode1, <- app_assoc. simpl. rewrite Hp1. reflexivity.
Qed.

Lemma condition_KeyError_run :
  exists e1 l1 e2 l2,
    upcoming (at_statement "i = 3) i = 1;")
      = Expr_tokens e1 ++ mkToken "operator" "=" :: Expr_tokens e2
          ++ upcoming (raised_in (Parser.condition 20) (at_statement "i = 3) i = 1;"))
    /\ Expr_code (symbol_table (at_statement "i = 3) i = 1;")) e1 = Some l1
    /\ Expr_code (symbol_table (at_statement "i = 3) i = 1;")) e2 = Some l2
    /\ dict_get Parser.cmp_map "=" = None
    /\ (Py.mem "=" OPERATORS = true -> "=" = "=" \/ "=" = "=>")
    /\ code (raised_in (Parser.condition 20) (at_statement "i = 3) i = 1;"))
       = code (at_statement "i = 3) i = 1;")
           ++ listing (instr_ptr (at_statement "i = 3) i = 1;")) l1
           ++ listing (instr_ptr (at_statement "i = 3) i = 1;") + Z.of_nat (length l1)) l2.
Proof.
  apply (condition_KeyError 20 (at_statement "i = 3) i = 1;")
           (raised_in (Parser.condition 20) (at_statement "i = 3) i = 1;")) "=").
  - unfold wf. simpl. lia.
  - vm_compute. reflexivity.
Defined.

(* ===================================================================== *)
(** ** Where a [KeyError] comes from *)
(* ===================================================================== *)

Lemma consumed_upcoming s s' l :
  tokens s' = tokens s -> upcoming s = l ++ upcoming s' ->
  consumed s' = consumed s ++ l.
Proof.
  unfold consumed, upcoming. intros Ht Hu.
  apply (app_inv_tail (drop (current_token_index s') (tokens s'))).
  rewrite take_drop, <- app_assoc, <- Hu, take_drop. exact Ht.
Qed.

Lemma guards_of_keeps {A} (I : State -> Prop) (E : Exn -> State -> Prop) (m : M A) :
  keeps I m -> (forall s e s', I s -> m s = Raise e s' -> E e s') -> guards I E m.
Proof.
  intros Hk Hr s Hs. specialize (Hk s Hs). specialize (Hr s). unfold post in Hk.
  destruct (m s) as [a s'|e s'|]; auto.
Qed.

Lemma guards_bind3 (I : State -> Prop) (E : Exn -> State -> Prop) {B}
    (m1 m2 m3 : M unit) (k : unit -> M B) :
  guards I E (bind m1 (fun _ => bind m2 (fun _ => m3))) ->
  (forall a, guards I E (k a)) ->
  guards I E (bind m1 (fun _ => bind m2 (fun _ => bind m3 k))).
Proof.
  intros H Hk s Hs. specialize (H s Hs). unfold bind in *.
  destruct (m1 s) as [[] s1|e s1|]; auto.
  destruct (m2 s1) as [[] s2|e s2|]; auto.
  destruct (m3 s2) as [[] s3|e s3|]; auto.
  apply Hk, H.
Qed.

Lemma scan_statement_KeyError s k s' :
  Parser.scan_statement s = Raise (KeyError k) s' ->
  tokens s' = tokens s
  /\ dict_get (symbol_table s') k = None
  /\ upcoming s =
       [mkToken "keyword" "scan"; mkToken "separator" "(";
        mkToken "identifier" k; mkToken "separator" ")";
        mkToken "separator" ";"] ++ upcoming s'.
Proof.
  intros H. unfold Parser.scan_statement in H.
  apply bind_Raise in H. destruct H as [H|([] & s1 & Hm1 & H)].
  { apply match_Raise_kind in H. destruct H as [msg H]. discriminate. }
  apply match_Ok_token in Hm1. destruct Hm1 as [Hu1 Hs1].
  apply bind_Raise in H. destruct H as [H|([] & s2 & Hm2 & H)].
  { apply match_Raise_kind in H. destruct H as [msg H]. discriminate. }
  apply match_Ok_token in Hm2. destruct Hm2 as [Hu2 Hs2].
  apply bind_Raise in H. destruct H as [H|(t & ? & Hcur & H)].
  { unfold Parser.current in H. destruct (current_token s2); discriminate. }
  apply current_Ok in Hcur. destruct Hcur as [-> Ht]. cbv zeta in H.
  apply bind_Raise in H. destruct H as [H|([] & s3 & Hm3 & H)].
  { apply match_Raise_kind in H. destruct H as [msg H]. discriminate. }
  apply match_Ok_upcoming in Hm3. destruct Hm3 as (t' & Hu3 & Hty & _ & Hs3).
  assert (t' = t) as ->.
  { apply upcoming_cons in Hu3. destruct Hu3 as [Hu3 _]. congruence. }
  apply bind_Raise in H. destruct H as [H|([] & s4 & Hm4 & H)].
  { apply match_Raise_kind in H. destruct H as [msg H]. discriminate. }
  apply match_Ok_token in Hm4. destruct Hm4 as [Hu4 Hs4].
  apply bind_Raise in H. destruct H as [H|([] & s5 & Hm5 & H)].
  { apply match_Raise_kind in H. destruct H as [msg H]. discriminate. }
  apply match_Ok_token in Hm5. destruct Hm5 as [Hu5 Hs5].
  apply bind_Raise in H. destruct H as [H|(addr & s6 & Hl & H)].
  - unfold lookup_address in H.
    destruct (dict_get (symbol_table s5) (lexeme t)) as [[a ty]|] eqn:Hd; [discriminate|].
    inversion H; subst k s'. clear H.
    split; [rewrite Hs5, Hs4, Hs3, Hs2, Hs1; reflexivity|].
    split; [exact Hd|].
    rewrite Hu1, Hu2, Hu3, Hu4, Hu5, (Token_eta t), Hty. reflexivity.
  - apply bind_Raise in H. destruct H as [H|([] & s7 & _ & H)];
      apply emit_Raise in H; destruct H as [H _]; discriminate.
Qed.

Lemma condition_KeyError_tokens fuel s s' k :
  wf s -> Parser.condition fuel s = Raise (KeyError k) s' ->
  tokens s' = tokens s
  /\ dict_get Parser.cmp_map k = None
  /\ Py.mem k ["+"; "-"; "*"; "/"] = false
  /\ exists e1 e2 l1 l2,
       Expr_code (symbol_table s') e1 = Some l1
       /\ Expr_code (symbol_table s') e2 = Some l2
       /\ upcoming s
          = Expr_tokens e1 ++ mkToken "operator" k :: Expr_tokens e2 ++ upcoming s'.
Proof.
  intros Hwf H. unfold Parser.condition in H.
  apply bind_Raise in H. destruct H as [H|([] & s1 & He1 & H)];
    [exfalso; exact (expression_no_KeyError _ _ _ _ H)|].
  destruct (expression_parsed _ _ _ Hwf He1)
    as (e1 & l1 & Hu1 & Hstop & Hc1 & Htab1 & Hwf1 & _ & _).
  pose proof (Ok_evolves _ _ _ _ (fun s0 => evolves_expression s0 fuel) He1) as Hev1.
  apply bind_Raise in H. destruct H as [H|(t & ? & Hcur & H)].
  { unfold Parser.current in H. destruct (current_token s1); discriminate. }
  apply current_Ok in Hcur. destruct Hcur as [-> Ht]. cbv zeta in H.
  apply bind_Raise in H. destruct H as [H|([] & s2 & Hm & H)].
  { apply match_Raise_kind in H. destruct H as [msg H]. discriminate. }
  apply match_Ok_upcoming in Hm. destruct Hm as (t' & Hu2 & Hty & _ & Hs2).
  assert (t' = t) as ->.
  { apply upcoming_cons in Hu2. destruct Hu2 as [Hu2 _]. congruence. }
  apply bind_Raise in H. destruct H as [H|([] & s3 & He2 & H)];
    [exfalso; exact (expression_no_KeyError _ _ _ _ H)|].
  assert (wf s2) as Hwf2 by (rewrite Hs2; exact Hwf1).
  destruct (expression_parsed _ _ _ Hwf2 He2) as (e2 & l2 & Hu3 & _ & Hc2 & Htab2 & _).
  pose proof (Ok_evolves _ _ _ _ (fun s0 => evolves_expression s0 fuel) He2) as Hev2.
  assert (symbol_table s3 = symbol_table s) as Htab.
  { rewrite Htab2, Hs2. simpl. exact Htab1. }
  destruct (dict_get Parser.cmp_map (lexeme t)) as [op|] eqn:Hcmp.
  { apply emit_Raise in H. destruct H as [H _]. discriminate. }
  unfold raise in H. inversion H; subst k s'. clear H.
  split.
  { rewrite (ev_tokens _ _ Hev2), Hs2. simpl. exact (ev_tokens _ _ Hev1). }
  split; [exact Hcmp|].
  split.
  { rewrite Hu2 in Hstop. simpl in Hstop. rewrite Hty in Hstop. exact Hstop. }
  exists e1, e2, l1, l2.
  split; [rewrite Htab; exact Hc1|].
  split; [rewrite Htab2; exact Hc2|].
  rewrite Hu1, Hu2, Hu3, (Token_eta t), Hty. reflexivity.
Qed.

Lemma condition_head_KeyError kw fuel s s' k :
  wf s ->
  bind (Parser.match_ "keyword" (Some kw))
    (fun _ => bind (Parser.match_ "separator" (Some "("))
                (fun _ => Parser.condition fuel)) s = Raise (KeyError k) s' ->
  tokens s' = tokens s
  /\ dict_get Parser.cmp_map k = None
  /\ Py.mem k ["+"; "-"; "*"; "/"] = false
  /\ exists e1 e2 l1 l2,
       Expr_code (symbol_table s') e1 = Some l1
       /\ Expr_code (symbol_table s') e2 = Some l2
       /\ upcoming s =
            (mkToken "keyword" kw :: mkToken "separator" "("
               :: Expr_tokens e1 ++ mkToken "operator" k :: Expr_tokens e2) ++ upcoming s'.
Proof.
  intros Hwf H.
  apply bind_Raise in H. destruct H as [H|([] & s1 & Hm1 & H)].
  { apply match_Raise_kind in H. destruct H as [msg H]. discriminate. }
  apply match_Ok_token in Hm1. destruct Hm1 as [Hu1 Hs1].
  apply bind_Raise in H. destruct H as [H|([] & s2 & Hm2 & H)].
  { apply match_Raise_kind in H. destruct H as [msg H]. discriminate. }
  apply match_Ok_token in Hm2. destruct Hm2 as [Hu2 Hs2].
  assert (wf s2) as Hwf2 by (rewrite Hs2, Hs1; exact Hwf).
  destruct (condition_KeyError_tokens _ _ _ _ Hwf2 H)
    as (Ht & Hc & Ha & e1 & e2 & l1 & l2 & Hc1 & Hc2 & Hu).
  split; [rewrite Ht, Hs2, Hs1; reflexivity|].
  split; [exact Hc|]. split; [exact Ha|].
  exists e1, e2, l1, l2. split; [exact Hc1|]. split; [exact Hc2|].
  rewrite Hu1, Hu2, Hu. simpl. rewrite <- !app_assoc. reflexivity.
Qed.

Lemma ko_match ty lx : guards wf key_origin (Parser.match_ ty lx).
Proof.
  apply guards_of_keeps; [apply wf_match|].
  intros s e s' _ H k ->. apply match_Raise_kind in H. destruct H as [msg H]. discriminate.
Qed.

Lemma ko_emit op args c : guards wf key_origin (emit op args c).
Proof.
  apply guards_of_keeps; [apply wf_emit|].
  intros s e s' _ H k ->. apply emit_Raise in H. destruct H as [H _]. discriminate.
Qed.

Lemma ko_set_instruction i text : guards wf key_origin (set_instruction i text).
Proof.
  apply guards_of_keeps; [apply wf_set_instruction|].
  intros s e s' _ H k ->. apply set_instruction_Raise in H. destruct H as [H _]. discriminate.
Qed.

Lemma ko_insert name ty : guards wf key_origin (insert_identifier name ty).
Proof.
  apply guards_of_keeps; [apply wf_insert|].
  intros s e s' _ H k ->. apply insert_Raise_kind in H. destruct H as [msg H]. discriminate.
Qed.

Lemma ko_current : guards wf key_origin Parser.current.
Proof.
  intros s H. unfold Parser.current.
  destruct (current_token s); [exact H|]. intros k Hk. discriminate.
Qed.

Lemma ko_error msg : guards wf key_origin (@Parser.error unit msg).
Proof. intros s H k Hk. discriminate. Qed.

Lemma ko_value s t :
  wf s -> current_token s = Some t -> token_type t = "integer" ->
  Py.int_of_digits (lexeme t) = None -> key_origin ValueError s.
Proof. intros _ _ _ _ k Hk. discriminate. Qed.

Ltac ko_hyp :=
  first [ exact ko_match | exact ko_emit | exact ko_insert | exact ko_current
        | exact ko_error | exact ko_value ].

Lemma ko_expression fuel : guards wf key_origin (Parser.expression fuel).
Proof.
  apply guards_expression; ko_hyp.
Qed.

Lemma ko_assignment fuel : guards wf key_origin (Parser.assignment fuel).
Proof.
  apply guards_assignment; ko_hyp.
Qed.

Lemma ko_print_statement fuel : guards wf key_origin (Parser.print_statement fuel).
Proof.
  apply guards_print_statement; ko_hyp.
Qed.

Lemma ko_return_statement fuel : guards wf key_origin (Parser.return_statement fuel).
Proof.
  apply guards_return_statement; ko_hyp.
Qed.

Lemma ko_opt_declaration_list fuel :
  guards wf key_origin (Parser.opt_declaration_list fuel).
Proof.
  apply guards_opt_declaration_list; ko_hyp.
Qed.

Lemma ko_scan_statement : guards wf key_origin Parser.scan_statement.
Proof.
  apply guards_of_keeps.
  { apply keeps_scan_statement; auto using wf_match, wf_emit. }
  intros s e s' _ H k ->. left.
  destruct (scan_statement_KeyError _ _ _ H) as (Ht & Hd & Hu).
  split; [exact Hd|]. exists (consumed s). apply consumed_upcoming; assumption.
Qed.

Lemma ko_condition_head kw fuel :
  kw = "while" \/ kw = "if" ->
  guards wf key_origin
    (bind (Parser.match_ "keyword" (Some kw))
       (fun _ => bind (Parser.match_ "separator" (Some "("))
                   (fun _ => Parser.condition fuel))).
Proof.
  intros Hkw. apply guards_of_keeps.
  { apply keeps_bind; [apply wf_match|intros _].
    apply keeps_bind; [apply wf_match|intros _].
    apply keeps_condition; auto using wf_match, wf_emit. }
  intros s e s' Hwf H k ->. right.
  destruct (condition_head_KeyError _ _ _ _ _ Hwf H)
    as (Ht & Hc & Ha & e1 & e2 & l1 & l2 & Hc1 & Hc2 & Hu).
  split; [exact Hc|]. split; [exact Ha|].
  exists (consumed s), kw, e1, e2, l1, l2. split; [exact Hkw|].
  split; [exact Hc1|]. split; [exact Hc2|].
  apply consumed_upcoming; assumption.
Qed.

Ltac ko_prim :=
  match goal with
  | |- guards _ _ (emit _ _ _) => apply ko_emit
  | |- guards _ _ (set_instruction _ _) => apply ko_set_instruction
  | |- guards _ _ (Parser.match_ _ _) => apply ko_match
  | |- guards _ _ Parser.current => apply ko_current
  | |- guards _ _ (Parser.error _) => apply ko_error
  end.

Lemma ko_statements fuel :
  guards wf key_origin (Parser.statement fuel)
  /\ (forall terms, guards wf key_origin (Parser.statement_list fuel terms))
  /\ guards wf key_origin (Parser.compound_statement fuel)
  /\ guards wf key_origin (Parser.while_statement fuel)
  /\ guards wf key_origin (Parser.if_statement fuel).
Proof.
  induction fuel as [|n (IHs & IHl & IHc & IHw & IHi)]; simpl.
  - repeat split; intros; apply guards_out_of_fuel.
  - split; [|split; [|split; [|split]]].
    + repeat first [ ko_prim | guards_step ];
        auto using ko_assignment, ko_scan_statement, ko_print_statement,
          ko_return_statement.
    + intros terms. repeat first [ ko_prim | guards_step ]; auto.
    + repeat first [ ko_prim | guards_step ]; auto.
    + apply guards_bind3; [apply ko_condition_head; left; reflexivity|intros _].
      repeat first [ ko_prim | guards_step ]; auto.
    + apply guards_bind3; [apply ko_condition_head; right; reflexivity|intros _].
      repeat first [ ko_prim | guards_step ]; auto.
Qed.

Lemma ko_parse_rat25s fuel : guards wf key_origin (Parser.parse_rat25s fuel).
Proof.
  unfold Parser.parse_rat25s.
  repeat first [ ko_prim | guards_step ]; auto using ko_opt_declaration_list.
  apply ko_statements.
Qed.

(** X13.  When a run ends in [KeyError], the tokens are those it was given
    and the key comes from one of two places.  Either `scan ( k ) ;` has
    just been consumed and the key is the identifier [k], which is not in
    the symbol table; or `while (` or `if (`, an expression, an operator
    token and a second expression have just been consumed, both
    expressions being ones the parser compiles, and the key is the lexeme
    of that operator, which [cmp_map] does not map and which is not
    arithmetic. *)
Theorem KeyError_origin toks k s :
  run toks = Raise (KeyError k) s ->
  tokens s = toks /\ (scan_origin k s \/ condition_origin k s).
Proof.
  intros Hr. unfold run in Hr. split.
  - exact (ev_tokens _ _
             (Raise_evolves _ _ _ _
                (fun s0 => evolves_parse_rat25s s0 (run_fuel toks)) Hr)).
  - pose proof (ko_parse_rat25s (run_fuel toks) (reset toks) (wf_reset toks)) as H.
    rewrite Hr in H. exact (H k eq_refl).
Qed.

Lemma KeyError_origin_run :
  tokens (raised_in (Parser.parse_rat25s 40)
            (reset (lexer "$$ integer a; $$ if (a = 1) a = 2; endif $$")))
    = lexer "$$ integer a; $$ if (a = 1) a = 2; endif $$"
  /\ (scan_origin "="
        (raised_in (Parser.parse_rat25s 40)
           (reset (lexer "$$ integer a; $$ if (a = 1) a = 2; endif $$")))
      \/ condition_origin "="
           (raised_in (Parser.parse_rat25s 40)
              (reset (lexer "$$ integer a; $$ if (a = 1) a = 2; endif $$")))).
Proof.
  apply (KeyError_origin (lexer "$$ integer a; $$ if (a = 1) a = 2; endif $$")).
  vm_compute. reflexivity.
Defined.

(* ===================================================================== *)
(** ** Lexing the lexemes again *)
(* ===================================================================== *)

Lemma boundary_stops (p : ascii -> bool) r :
  p " "%char = false -> boundary r ->
  match r with c :: _ => p c = false | [] => True end.
Proof. destruct r as [|c r]; simpl; [auto|]. intros Hp ->. exact Hp. Qed.

Lemma is_letter_plain c :
  Lex.is_letter c = true -> Ascii.eqb c "$" = false /\ Ascii.eqb c "=" = false.
Proof.
  intros H. split.
  - destruct (Ascii.eqb_spec c "$") as [->|]; [vm_compute in H; discriminate|reflexivity].
  - destruct (Ascii.eqb_spec c "=") as [->|]; [vm_compute in H; discriminate|reflexivity].
Qed.

Lemma is_digit_plain c :
  Lex.is_digit c = true ->
  Ascii.eqb c "$" = false /\ Ascii.eqb c "=" = false /\ Lex.is_letter c = false.
Proof.
  intros H. split; [|split].
  - destruct (Ascii.eqb_spec c "$") as [->|]; [vm_compute in H; discriminate|reflexivity].
  - destruct (Ascii.eqb_spec c "=") as [->|]; [vm_compute in H; discriminate|reflexivity].
  - unfold Lex.is_digit, Lex.is_letter, Lex.between in *.
    change (N_of_ascii "0") with 48%N in H. change (N_of_ascii "9") with 57%N in H.
    change (N_of_ascii "a") with 97%N. change (N_of_ascii "z") with 122%N.
    change (N_of_ascii "A") with 65%N. change (N_of_ascii "Z") with 90%N.
    apply andb_prop in H. destruct H as [H1 H2].
    apply N.leb_le in H1. apply N.leb_le in H2.
    destruct (N.leb_spec 97 (N_of_ascii c)); [lia|].
    destruct (N.leb_spec 65 (N_of_ascii c)); [|reflexivity].
    destruct (N.leb_spec (N_of_ascii c) 90); [lia|reflexivity].
Qed.

(** At a boundary the pattern matches a lexeme as it did where it was
    found. *)
Lemma match_token_lexeme w r :
  lexeme_shape w -> boundary r -> Lex.match_token (w ++ r) = Some w.
Proof.
  intros Hw Hr.
  destruct Hw as [| |c w Hc Hw|d ds Hd|d ds f fs Hd Hf|c Hc|c Hc|c Hc].
  - reflexivity.
  - reflexivity.
  - destruct (is_letter_plain c Hc) as [H1 H2].
    change ((c :: w) ++ r) with (c :: (w ++ r)). unfold Lex.match_token.
    rewrite H1, H2, Hc. simpl andb. cbv iota.
    rewrite (span_app Lex.is_word w r Hw (boundary_stops _ r eq_refl Hr)). reflexivity.
  - pose proof Hd as Hall. simpl in Hd. apply andb_prop in Hd. destruct Hd as [Hd0 _].
    destruct (is_digit_plain d Hd0) as (H1 & H2 & H3).
    change ((d :: ds) ++ r) with (d :: (ds ++ r)). unfold Lex.match_token.
    rewrite H1, H2, H3, Hd0. simpl andb. cbv iota.
    change (d :: (ds ++ r)) with ((d :: ds) ++ r).
    rewrite (span_app Lex.is_digit (d :: ds) r Hall (boundary_stops _ r eq_refl Hr)).
    destruct r as [|c r]; [reflexivity|]. simpl in Hr. subst c. reflexivity.
  - pose proof Hd as Hall. simpl in Hd. apply andb_prop in Hd. destruct Hd as [Hd0 _].
    destruct (is_digit_plain d Hd0) as (H1 & H2 & H3).
    rewrite <- app_assoc.
    change ((d :: ds) ++ ("."%char :: f :: fs) ++ r)
      with (d :: (ds ++ "."%char :: (f :: fs) ++ r)).
    unfold Lex.match_token.
    rewrite H1, H2, H3, Hd0. simpl andb. cbv iota.
    change (d :: (ds ++ "."%char :: (f :: fs) ++ r))
      with ((d :: ds) ++ "."%char :: (f :: fs) ++ r).
    rewrite (span_app Lex.is_digit (d :: ds) ("."%char :: (f :: fs) ++ r) Hall eq_refl).
    change (Ascii.eqb "." ".") with true. cbv iota.
    rewrite (span_app Lex.is_digit (f :: fs) r Hf (boundary_stops _ r eq_refl Hr)).
    reflexivity.
  - apply is_opchar_cases in Hc. simpl in Hc.
    destruct r as [|c2 r]; [|simpl in Hr; subst c2];
      repeat (destruct Hc as [<-|Hc]; [reflexivity|]); contradiction.
  - apply is_opchar_cases in Hc. simpl in Hc.
    repeat (destruct Hc as [<-|Hc]; [reflexivity|]). contradiction.
  - apply is_sepchar_cases in Hc. simpl in Hc.
    repeat (destruct Hc as [<-|Hc]; [reflexivity|]). contradiction.
Qed.

Lemma findall_skip l1 r : Lex.findall (l1 ++ r) (length l1) = Lex.findall r 0.
Proof.
  induction l1 as [|c l1 IH]; [reflexivity|].
  change ((c :: l1) ++ r) with (c :: (l1 ++ r)). rewrite findall_cons. exact IH.
Qed.

Lemma findall_token w r :
  lexeme_shape w -> boundary r ->
  Lex.findall (w ++ r) 0 = Lex.of_chars w :: Lex.findall r 0.
Proof.
  intros Hw Hr. pose proof (match_token_lexeme w r Hw Hr) as Hm.
  destruct w as [|c tl]; [destruct (proj1 (lexeme_shape_chars _ Hw) eq_refl)|].
  change ((c :: tl) ++ r) with (c :: (tl ++ r)) in *.
  rewrite findall_cons, Hm. f_equal.
  replace (length (c :: tl) - 1)%nat with (length tl) by (simpl; lia).
  apply findall_skip.
Qed.

Lemma findall_space r : Lex.findall (" "%char :: r) 0 = Lex.findall r 0.
Proof. reflexivity. Qed.

Lemma join_cons2 sep w w2 ws :
  Py.join sep (w :: w2 :: ws) = (w ++ sep ++ Py.join sep (w2 :: ws))%string.
Proof. reflexivity. Qed.

Lemma findall_join ws :
  Forall (fun x => lexeme_shape (Lex.to_chars x)) ws ->
  Lex.findall (Lex.to_chars (Py.join " " ws)) 0 = ws.
Proof.
  induction ws as [|w ws IH]; intros H; [reflexivity|].
  inversion H as [|? ? Hw Hws]; subst. destruct ws as [|w2 ws].
  - change (Py.join " " [w]) with w.
    rewrite <- (app_nil_r (Lex.to_chars w)), (findall_token _ [] Hw Logic.I).
    rewrite of_to_chars. reflexivity.
  - rewrite join_cons2, !to_chars_app.
    change (Lex.to_chars " ") with [" "%char].
    change ([" "%char] ++ Lex.to_chars (Py.join " " (w2 :: ws)))
      with (" "%char :: Lex.to_chars (Py.join " " (w2 :: ws))).
    rewrite (findall_token _ (" "%char :: Lex.to_chars (Py.join " " (w2 :: ws))) Hw eq_refl).
    rewrite findall_space, (IH Hws), of_to_chars.
    reflexivity.
Qed.

Lemma token_char_plain l :
  forallb token_char l = true ->
  forallb (fun ch => negb (Ascii.eqb ch "[")) l = true.
Proof.
  apply forallb_weaken. intros c Hc.
  destruct (Ascii.eqb_spec c "[") as [->|]; [vm_compute in Hc; discriminate|reflexivity].
Qed.

Lemma join_plain ws :
  Forall (fun x => lexeme_shape (Lex.to_chars x)) ws ->
  forallb (fun ch => negb (Ascii.eqb ch "[")) (Lex.to_chars (Py.join " " ws)) = true.
Proof.
  induction ws as [|w ws IH]; intros H; [reflexivity|].
  inversion H as [|? ? Hw Hws]; subst.
  pose proof (token_char_plain _ (proj2 (lexeme_shape_chars _ Hw))) as Hp.
  destruct ws as [|w2 ws]; [exact Hp|].
  rewrite join_cons2, !to_chars_app, !forallb_app, Hp, (IH Hws). reflexivity.
Qed.

(** X25.  Lexing is stable: writing the lexemes of the tokens of any source
    text one after the other, separated by single spaces, and lexing that
    text gives the same tokens again.  White space and comments only
    separate; the lexemes alone fix the token list. *)
Theorem lexer_round_trip source_code :
  lexer (Py.join " " (map lexeme (lexer source_code))) = lexer source_code.
Proof.
  unfold lexer at 2 3.
  set (ws := Lex.findall (Lex.strip_comments (Lex.to_chars source_code) 0) 0).
  assert (Forall (fun x => lexeme_shape (Lex.to_chars x)) ws) as Hws
      by apply findall_shape.
  assert (map lexeme (map Lex.classify ws) = ws) as ->.
  { rewrite map_map. rewrite <- (map_id ws) at 2. apply map_ext. apply lexeme_classify. }
  unfold lexer.
  rewrite <- (app_nil_r (Lex.to_chars (Py.join " " ws))).
  rewrite (strip_comments_plain _ [] (join_plain ws Hws)).
  change (Lex.strip_comments [] 0) with (@nil ascii). rewrite app_nil_r.
  rewrite (findall_join ws Hws). reflexivity.
Qed.

(* ===================================================================== *)
(** ** [strip] and [split] on the text of a slot *)
(* ===================================================================== *)

Lemma string_app_assoc (a b c : string) : ((a ++ b) ++ c = a ++ (b ++ c))%string.
Proof. induction a as [|x a IH]; simpl; congruence. Qed.

Lemma string_app_nil_r (a : string) : (a ++ "" = a)%string.
Proof. induction a as [|x a IH]; simpl; congruence. Qed.

Lemma lstrip_spaces n s : Py.lstrip (Py.spaces n ++ s) = Py.lstrip s.
Proof. induction n as [|n IH]; simpl; auto. Qed.

Lemma lstrip_app a b : a <> EmptyString -> Py.lstrip a = a -> Py.lstrip (a ++ b) = (a ++ b)%string.
Proof.
  destruct a as [|c a]; [congruence|]. intros _. simpl.
  destruct (Py.is_space c) eqn:E; [|reflexivity].
  intros H. exfalso.
  assert (forall s, String.length (Py.lstrip s) <= String.length s)%nat as Hlen.
  { induction s as [|x s IHs]; simpl; [lia|]. destruct (Py.is_space x); simpl; lia. }
  specialize (Hlen a). rewrite H in Hlen. simpl in Hlen. lia.
Qed.

Lemma rstrip_spaces n : Py.rstrip (Py.spaces n) = EmptyString.
Proof. induction n as [|n IH]; simpl; [reflexivity|]. rewrite IH. reflexivity. Qed.

Lemma rstrip_app a b : b <> EmptyString -> Py.rstrip b = b -> Py.rstrip (a ++ b) = (a ++ b)%string.
Proof.
  intros Hb Hr. induction a as [|c a IH]; simpl; [exact Hr|].
  rewrite IH. destruct (a ++ b)%string eqn:E; [|reflexivity].
  destruct a; simpl in E; [congruence|discriminate].
Qed.

Lemma rstrip_app_spaces a n : Py.rstrip a = a -> Py.rstrip (a ++ Py.spaces n) = a.
Proof.
  induction a as [|c a IH]; simpl; [intros _; apply rstrip_spaces|].
  destruct (Py.rstrip a) as [|x r] eqn:Er.
  - destruct (Py.is_space c) eqn:Ec; [discriminate|].
    intros H. inversion H; subst a. simpl. rewrite rstrip_spaces. reflexivity.
  - intros H. assert (String x r = a) as Ha by congruence.
    rewrite (IH Ha). destruct a; [discriminate Ha|reflexivity].
Qed.

Lemma no_space_lstrip s : no_space s = true -> Py.lstrip s = s.
Proof.
  destruct s as [|c s]; [reflexivity|]. unfold no_space. simpl.
  intros H. apply andb_prop in H. destruct H as [H _].
  apply negb_true_iff in H. rewrite H. reflexivity.
Qed.

Lemma no_space_rstrip s : no_space s = true -> Py.rstrip s = s.
Proof.
  unfold no_space. induction s as [|c s IH]; [reflexivity|]. simpl.
  intros H. apply andb_prop in H. destruct H as [Hc Hs].
  apply negb_true_iff in Hc. rewrite (IH Hs), Hc. destruct s; reflexivity.
Qed.

Lemma no_space_clean s : s <> EmptyString -> no_space s = true -> clean s.
Proof.
  intros Hs H. split; [exact Hs|]. split; [apply no_space_lstrip|apply no_space_rstrip]; exact H.
Qed.

Lemma clean_strip s : clean s -> Py.strip s = s.
Proof. intros (_ & Hl & Hr). unfold Py.strip. rewrite Hl. exact Hr. Qed.

Lemma clean_app a b : clean a -> clean b -> clean (a ++ b).
Proof.
  intros (Ha & Hla & _) (Hb & _ & Hrb). split; [|split].
  - destruct a; [congruence|discriminate].
  - apply lstrip_app; assumption.
  - apply rstrip_app; assumption.
Qed.

Lemma clean_app3 a m b : clean a -> clean b -> clean (a ++ m ++ b).
Proof.
  intros (Ha & Hla & _) (Hb & _ & Hrb). split; [|split].
  - destruct a; [congruence|discriminate].
  - apply lstrip_app; assumption.
  - rewrite <- string_app_assoc. apply rstrip_app; assumption.
Qed.

Lemma field_app w rest :
  no_space w = true -> field_end rest -> Py.field (w ++ rest) = (w, rest).
Proof.
  unfold no_space. induction w as [|c w IH]; simpl.
  - intros _ Hr. destruct rest as [|x r]; [reflexivity|]. simpl in *. rewrite Hr. reflexivity.
  - intros H Hr. apply andb_prop in H. destruct H as [Hc Hw].
    apply negb_true_iff in Hc. rewrite Hc, (IH Hw Hr). reflexivity.
Qed.

Lemma field_end_spaces n s : field_end (Py.spaces (S n) ++ s).
Proof. reflexivity. Qed.

Lemma split_ws_last s : clean s -> Py.split_ws 0 s = [s].
Proof.
  intros (Hs & Hl & _). destruct s as [|c s]; [congruence|].
  unfold Py.split_ws. rewrite Hl. reflexivity.
Qed.

Lemma split_ws_field k w rest :
  w <> EmptyString -> no_space w = true -> field_end rest ->
  Py.split_ws (S k) (w ++ rest) = w :: Py.split_ws k rest.
Proof.
  intros Hw Hns Hr. unfold Py.split_ws; fold Py.split_ws.
  rewrite (lstrip_app w rest Hw (no_space_lstrip w Hns)).
  destruct (w ++ rest)%string eqn:E; [destruct w; [congruence|discriminate]|].
  rewrite <- E, (field_app w rest Hns Hr). reflexivity.
Qed.

Lemma split_ws_spaces k n s : Py.split_ws k (Py.spaces n ++ s) = Py.split_ws k s.
Proof. destruct k; unfold Py.split_ws; fold Py.split_ws; rewrite lstrip_spaces; reflexivity. Qed.

Lemma split_ws_nil k : Py.split_ws k "" = [].
Proof. destruct k; reflexivity. Qed.

(** The two or three parts of a slot text: the number, the opcode and, when
    there is one, the rest. *)
Lemma split_slot n op k j tail :
  n <> EmptyString -> no_space n = true ->
  op <> EmptyString -> no_space op = true ->
  clean tail ->
  Py.split_ws 2 (Py.strip (Py.spaces k ++ n ++ "  " ++ op ++ Py.spaces j)) = [n; op]
  /\ Py.split_ws 2 (Py.strip (Py.spaces k ++ n ++ "  " ++ op ++ Py.spaces j ++ "  " ++ tail))
     = [n; op; tail].
Proof.
  intros Hn Hnn Hop Hnop Htail.
  pose proof (no_space_clean _ Hn Hnn) as Cn.
  pose proof (no_space_clean _ Hop Hnop) as Cop.
  split.
  - unfold Py.strip. rewrite lstrip_spaces.
    rewrite (lstrip_app n _ Hn (no_space_lstrip n Hnn)).
    assert ((n ++ "  " ++ op ++ Py.spaces j) = ((n ++ "  " ++ op) ++ Py.spaces j))%string as ->.
    { rewrite !string_app_assoc. reflexivity. }
    rewrite rstrip_app_spaces by (apply (clean_app3 n "  " op Cn Cop)).
    rewrite (split_ws_field 1 n ("  " ++ op) Hn Hnn eq_refl).
    change ("  " ++ op)%string with (Py.spaces 2 ++ op)%string.
    rewrite split_ws_spaces.
    rewrite <- (string_app_nil_r op) at 1.
    rewrite (split_ws_field 0 op "" Hop Hnop Logic.I). reflexivity.
  - unfold Py.strip. rewrite lstrip_spaces.
    rewrite (lstrip_app n _ Hn (no_space_lstrip n Hnn)).
    assert ((n ++ "  " ++ op ++ Py.spaces j ++ "  " ++ tail)
            = ((n ++ "  " ++ op ++ Py.spaces j ++ "  ") ++ tail))%string as ->.
    { rewrite !string_app_assoc. reflexivity. }
    rewrite (rstrip_app _ tail (proj1 Htail) (proj2 (proj2 Htail))).
    rewrite !string_app_assoc.
    rewrite (split_ws_field 1 n ("  " ++ op ++ Py.spaces j ++ "  " ++ tail) Hn Hnn eq_refl).
    change ("  " ++ op ++ Py.spaces j ++ "  " ++ tail)%string
      with (Py.spaces 2 ++ op ++ Py.spaces j ++ "  " ++ tail)%string.
    rewrite split_ws_spaces.
    assert (field_end (Py.spaces j ++ "  " ++ tail)) as Hend.
    { destruct j; reflexivity. }
    rewrite (split_ws_field 0 op _ Hop Hnop Hend).
    rewrite split_ws_spaces.
    change ("  " ++ tail)%string with (Py.spaces 2 ++ tail)%string.
    rewrite split_ws_spaces, (split_ws_last tail Htail). reflexivity.
Qed.


Lemma all_chars_weaken (p q : ascii -> bool) s :
  (forall c, p c = true -> q c = true) -> all_chars p s = true -> all_chars q s = true.
Proof.
  intros H. induction s as [|c s IH]; simpl; auto.
  intros Hs. apply andb_prop in Hs. destruct Hs as [Hc Hs].
  rewrite (H c Hc), (IH Hs). reflexivity.
Qed.

Lemma uint_chars d : all_chars numeral_char (NilEmpty.string_of_uint d) = true.
Proof. induction d; simpl; auto. Qed.

Lemma str_int_chars z : all_chars numeral_char (Py.str_int z) = true.
Proof.
  unfold Py.str_int, NilZero.string_of_int, NilZero.string_of_uint.
  destruct (Z.to_int z) as [d|d]; [|simpl]; destruct d; try reflexivity; apply uint_chars.
Qed.

Lemma str_int_nonempty z : Py.str_int z <> EmptyString.
Proof.
  unfold Py.str_int, NilZero.string_of_int, NilZero.string_of_uint.
  destruct (Z.to_int z) as [d|d]; destruct d; discriminate.
Qed.

Lemma numeral_char_no_space c : numeral_char c = true -> negb (Py.is_space c) = true.
Proof.
  unfold numeral_char. intros H. apply orb_prop in H. destruct H as [H|H].
  - unfold Lex.is_digit, Lex.between in H.
    change (N_of_ascii "0") with 48%N in H. change (N_of_ascii "9") with 57%N in H.
    apply andb_prop in H. destruct H as [H1 H2].
    apply N.leb_le in H1. apply N.leb_le in H2.
    unfold Py.is_space. cbv zeta.
    destruct (N.leb_spec (N_of_ascii c) 13); [lia|].
    destruct (N.leb_spec (N_of_ascii c) 32); [lia|].
    destruct (N.eqb_spec (N_of_ascii c) 133); [lia|].
    destruct (N.eqb_spec (N_of_ascii c) 160); [lia|].
    rewrite !andb_false_r. reflexivity.
  - apply Ascii.eqb_eq in H. subst c. reflexivity.
Qed.

Lemma numeral_char_no_semicolon c :
  numeral_char c = true -> negb (Ascii.eqb c ";") = true.
Proof.
  intros H. destruct (Ascii.eqb_spec c ";") as [->|]; [vm_compute in H; discriminate|reflexivity].
Qed.

Lemma str_int_no_space z : no_space (Py.str_int z) = true.
Proof. exact (all_chars_weaken _ _ _ numeral_char_no_space (str_int_chars z)). Qed.

Lemma split_once_None sep s :
  all_chars (fun c => negb (Ascii.eqb c sep)) s = true -> Py.split_once sep s = None.
Proof.
  induction s as [|c s IH]; simpl; [reflexivity|].
  intros H. apply andb_prop in H. destruct H as [Hc Hs].
  apply negb_true_iff in Hc. rewrite Hc, (IH Hs). reflexivity.
Qed.

Lemma split_once_app sep a b :
  Py.split_once sep a = None ->
  Py.split_once sep (a ++ b)
  = match Py.split_once sep b with
    | Some (x, y) => Some ((a ++ x)%string, y)
    | None => None
    end.
Proof.
  induction a as [|c a IH]; simpl.
  - intros _. destruct (Py.split_once sep b) as [[x y]|]; reflexivity.
  - destruct (Ascii.eqb c sep); [discriminate|].
    destruct (Py.split_once sep a) as [[x y]|] eqn:E; [discriminate|]. intros _.
    rewrite (IH eq_refl). destruct (Py.split_once sep b) as [[x y]|]; reflexivity.
Qed.

Lemma strip_after_space c : clean c -> Py.strip (" " ++ c) = c.
Proof. intros H. apply (clean_strip c H). Qed.

Lemma strip_before_spaces a n : clean a -> Py.strip (a ++ Py.spaces n) = a.
Proof.
  intros (Ha & Hl & Hr). unfold Py.strip.
  rewrite (lstrip_app a _ Ha Hl). apply rstrip_app_spaces, Hr.
Qed.

Lemma clean_comment c : clean c -> clean ("; " ++ c).
Proof.
  intros (Hc & _ & Hr). split; [discriminate|]. split; [reflexivity|].
  apply (rstrip_app "; " c Hc Hr).
Qed.

Lemma rjust_spaces w s : Py.rjust w s = (Py.spaces (w - String.length s) ++ s)%string.
Proof. reflexivity. Qed.

Lemma instr_text_bare ip op :
  instr_text ip op [] None = Py.join "  " [Py.rjust 4 (Py.str_int ip); Py.ljust 6 op].
Proof. reflexivity. Qed.

Lemma instr_text_no_comment ip op args :
  instr_text ip op args (Some "") = instr_text ip op args None.
Proof. reflexivity. Qed.

Lemma instr_text_comment ip op c :
  c <> EmptyString ->
  instr_text ip op [] (Some c)
  = Py.join "  " [Py.rjust 4 (Py.str_int ip); Py.ljust 6 op; ("; " ++ c)%string].
Proof.
  intros Hc. unfold instr_text. rewrite (proj2 (String.eqb_neq c "") Hc). reflexivity.
Qed.

Lemma instr_text_args ip op args :
  args <> [] ->
  instr_text ip op args None
  = Py.join "  " [Py.rjust 4 (Py.str_int ip); Py.ljust 6 op; args_text args].
Proof. destruct args; [congruence|reflexivity]. Qed.

Lemma join_comment a b x c :
  Py.join "  " [a; b; x; ("; " ++ c)%string] = Py.join "  " [a; b; (x ++ "  ; " ++ c)%string].
Proof. reflexivity. Qed.

Lemma instr_text_args_comment ip op args c :
  args <> [] -> c <> EmptyString ->
  instr_text ip op args (Some c)
  = Py.join "  " [Py.rjust 4 (Py.str_int ip); Py.ljust 6 op;
                  (args_text args ++ "  ; " ++ c)%string].
Proof.
  intros Ha Hc. unfold instr_text. rewrite (proj2 (String.eqb_neq c "") Hc).
  destruct args as [|a args]; [congruence|].
  exact (join_comment (Py.rjust 4 (Py.str_int ip)) (Py.ljust 6 op) (args_text (a :: args)) c).
Qed.

(** X26.  [print_assembly] reads back what [emit] wrote: for a slot written
    by [emit] with an opcode without white space, operands whose text is
    clean and holds no `;`, and a clean comment, the line printed is the
    slot number, the opcode in a column of 7, the operands in a column of 12
    and, when there is one, the comment after `  ; `. *)
Theorem assembly_line_of_emit idx ip op args comment :
  op <> EmptyString -> no_space op = true ->
  (args <> [] -> clean (args_text args) /\ Py.split_once ";" (args_text args) = None) ->
  (comment_text comment <> EmptyString -> clean (comment_text comment)) ->
  assembly_line idx (instr_text ip op args comment)
  = Some (listing_line idx op (args_text args) (comment_text comment)).
Proof.
  intros Hop Hnop Hargs Hcomment.
  pose proof (str_int_nonempty ip) as Hn. pose proof (str_int_no_space ip) as Hnn.
  set (k := (4 - String.length (Py.str_int ip))%nat).
  set (j := (6 - String.length op)%nat).
  assert (forall tail, clean tail ->
            Py.split_ws 2 (Py.strip (Py.join "  " [Py.rjust 4 (Py.str_int ip); Py.ljust 6 op; tail]))
            = [Py.str_int ip; op; tail]) as Hthree.
  { intros tail Ht.
    destruct (split_slot (Py.str_int ip) op k j tail Hn Hnn Hop Hnop Ht) as [_ H3].
    rewrite <- H3. do 2 f_equal. unfold Py.join, Py.rjust, Py.ljust. fold k. fold j.
    rewrite !string_app_assoc. reflexivity. }
  assert (Py.split_ws 2 (Py.strip (Py.join "  " [Py.rjust 4 (Py.str_int ip); Py.ljust 6 op]))
          = [Py.str_int ip; op]) as Htwo.
  { destruct (split_slot (Py.str_int ip) op k j "x" Hn Hnn Hop Hnop
                ltac:(repeat split; discriminate || reflexivity)) as [H2 _].
    rewrite <- H2. do 2 f_equal. unfold Py.join, Py.rjust, Py.ljust. fold k. fold j.
    rewrite !string_app_assoc. reflexivity. }
  assert (forall A, clean A -> Py.split_once ";" A = None ->
            assembly_line idx
              (Py.join "  " [Py.rjust 4 (Py.str_int ip); Py.ljust 6 op; A])
            = Some (listing_line idx op A "")) as Hargs_only.
  { intros A Ha Hsemi. unfold assembly_line. rewrite (Hthree A Ha), Hsemi.
    cbv iota beta. rewrite (clean_strip A Ha). reflexivity. }
  assert (assembly_line idx (Py.join "  " [Py.rjust 4 (Py.str_int ip); Py.ljust 6 op])
          = Some (listing_line idx op "" "")) as Hbare.
  { unfold assembly_line. rewrite Htwo. reflexivity. }
  assert (forall c, comment = Some c -> c <> EmptyString -> clean c) as Hc.
  { intros c -> Hne. apply Hcomment. exact Hne. }
  destruct args as [|a args'].
  - (* no operand *)
    change (args_text []) with EmptyString.
    destruct comment as [c|]; [destruct (String.eqb_spec c "") as [->|Hne]|].
    + rewrite instr_text_no_comment, instr_text_bare. exact Hbare.
    + specialize (Hc c eq_refl Hne). rewrite (instr_text_comment ip op c Hne).
      unfold assembly_line. rewrite (Hthree _ (clean_comment c Hc)).
      change (Py.split_once ";" ("; " ++ c)) with (Some (EmptyString, (" " ++ c)%string)).
      cbv iota beta. rewrite (strip_after_space c Hc).
      unfold listing_line, comment_text. reflexivity.
    + rewrite instr_text_bare. exact Hbare.
  - (* operands *)
    assert (a :: args' <> []) as Hne_args by discriminate.
    destruct (Hargs Hne_args) as [Ha Hsemi].
    destruct comment as [c|]; [destruct (String.eqb_spec c "") as [->|Hne]|].
    + rewrite instr_text_no_comment, (instr_text_args ip op _ Hne_args).
      apply Hargs_only; assumption.
    + specialize (Hc c eq_refl Hne).
      rewrite (instr_text_args_comment ip op _ c Hne_args Hne).
      unfold assembly_line.
      rewrite (Hthree _ (clean_app3 (args_text (a :: args')) "  ; " c Ha Hc)).
      rewrite (split_once_app ";" (args_text (a :: args')) ("  ; " ++ c) Hsemi).
      change (Py.split_once ";" ("  ; " ++ c)) with (Some ("  ", (" " ++ c)%string)).
      cbv iota beta. rewrite (strip_after_space c Hc).
      rewrite (strip_before_spaces (args_text (a :: args')) 2 Ha
               : Py.strip (args_text (a :: args') ++ "  ") = args_text (a :: args')).
      unfold listing_line, comment_text. reflexivity.
    + rewrite (instr_text_args ip op _ Hne_args). apply Hargs_only; assumption.
Qed.

Lemma assembly_line_of_emit_run :
  assembly_line 4 (instr_text 5 "STO" [AStr "total"] (Some "total = <expr>"))
  = Some (listing_line 4 "STO" (args_text [AStr "total"])
            (comment_text (Some "total = <expr>"))).
Proof.
  apply (assembly_line_of_emit 4 5 "STO" [AStr "total"] (Some "total = <expr>")).
  - discriminate.
  - reflexivity.
  - intros _. repeat split; discriminate || reflexivity.
  - intros _. repeat split; discriminate || reflexivity.
Defined.

(** X27.  The back-patched `JMP0`, stored by [while_statement] in a format
    of its own (`slot JMP0 target`, single spaces, no padding), prints like
    an emitted one: opcode `JMP0` with the exit target as its operand and no
    comment. *)
Theorem assembly_line_of_patch idx patch_slot exit_target :
  assembly_line idx (patch_text patch_slot exit_target)
  = Some (listing_line idx "JMP0" (Py.str_int exit_target) "").
Proof.
  pose proof (no_space_clean _ (str_int_nonempty patch_slot) (str_int_no_space patch_slot))
    as Hp.
  pose proof (no_space_clean _ (str_int_nonempty exit_target) (str_int_no_space exit_target))
    as He.
  unfold assembly_line, patch_text, listing_line.
  rewrite (clean_strip _ (clean_app3 _ " JMP0 " _ Hp He)).
  rewrite (split_ws_field 1 (Py.str_int patch_slot) (" JMP0 " ++ Py.str_int exit_target)
             (proj1 Hp) (str_int_no_space patch_slot) eq_refl).
  change (" JMP0 " ++ Py.str_int exit_target)%string
    with (Py.spaces 1 ++ "JMP0" ++ Py.spaces 1 ++ Py.str_int exit_target)%string.
  rewrite split_ws_spaces.
  rewrite (split_ws_field 0 "JMP0" (Py.spaces 1 ++ Py.str_int exit_target)
             ltac:(discriminate) eq_refl eq_refl).
  rewrite split_ws_spaces, (split_ws_last _ He).
  rewrite (split_once_None ";" _
             (all_chars_weaken _ _ _ numeral_char_no_semicolon (str_int_chars exit_target))).
  cbv iota beta. rewrite (clean_strip _ He). reflexivity.
Qed.

(* ===================================================================== *)
(** ** The listing of a run *)
(* ===================================================================== *)

Lemma rstrip_app_clean a b : Py.rstrip a = a -> Py.rstrip (a ++ b) = (a ++ Py.rstrip b)%string.
Proof.
  induction a as [|c a IH]; [reflexivity|]. simpl.
  destruct (Py.rstrip a) as [|x r] eqn:Er.
  - destruct (Py.is_space c) eqn:Ec; [discriminate|].
    intros H. assert (a = EmptyString) as -> by congruence. simpl.
    destruct (Py.rstrip b); reflexivity.
  - intros H. assert (String x r = a) as Ha by congruence.
    rewrite (IH Ha). destruct a; [discriminate Ha|reflexivity].
Qed.

Lemma field_end_rstrip b : field_end b -> field_end (Py.rstrip b).
Proof.
  destruct b as [|c b]; [auto|]. simpl. intros Hc.
  destruct (Py.rstrip b); [rewrite Hc; exact Logic.I|exact Hc].
Qed.

Lemma opcode_plain op : opcode op -> op <> EmptyString /\ no_space op = true.
Proof.
  unfold opcode, Py.mem. intros H. apply existsb_exists in H.
  destruct H as (o & Hin & Heq). apply String.eqb_eq in Heq. subst o.
  simpl in Hin.
  repeat (destruct Hin as [<-|Hin]; [split; [discriminate|reflexivity]|]).
  destruct Hin.
Qed.

(** A number, white space, an opcode and then nothing or white space: the
    first two fields are the number and the opcode. *)
Lemma printable_shape k m n op b :
  n <> EmptyString -> no_space n = true ->
  opcode op ->
  field_end b ->
  printable (Py.spaces k ++ n ++ Py.spaces (S m) ++ op ++ b).
Proof.
  intros Hn Hnn Hopcode Hb. destruct (opcode_plain op Hopcode) as [Hop Hnop].
  pose proof (no_space_clean _ Hn Hnn) as Cn.
  pose proof (no_space_clean _ Hop Hnop) as Cop.
  exists n, op, (Py.split_ws 0 (Py.rstrip b)).
  split; [|exact Hopcode].
  unfold Py.strip. rewrite lstrip_spaces.
  rewrite (lstrip_app n _ Hn (no_space_lstrip n Hnn)).
  assert ((n ++ Py.spaces (S m) ++ op ++ b) = ((n ++ Py.spaces (S m) ++ op) ++ b))%string as ->.
  { rewrite !string_app_assoc. reflexivity. }
  rewrite (rstrip_app_clean _ b (proj2 (proj2 (clean_app3 n (Py.spaces (S m)) op Cn Cop)))).
  rewrite !string_app_assoc.
  rewrite (split_ws_field 1 n (Py.spaces (S m) ++ op ++ Py.rstrip b) Hn Hnn eq_refl).
  rewrite split_ws_spaces.
  rewrite (split_ws_field 0 op (Py.rstrip b) Hop Hnop (field_end_rstrip b Hb)).
  reflexivity.
Qed.

Lemma cmp_map_opcode relop op : dict_get Parser.cmp_map relop = Some op -> opcode op.
Proof.
  unfold Parser.cmp_map. simpl.
  repeat (destruct (String.eqb relop _); [intros H; inversion H; reflexivity|]).
  discriminate.
Qed.

Lemma join_field_end j (more : list string) :
  field_end (match more with
             | [] => Py.spaces j
             | _ => (Py.spaces j ++ "  " ++ Py.join "  " more)%string
             end).
Proof. destruct more; destruct j; reflexivity. Qed.

Lemma printable_instr_text ip op args comment :
  opcode op -> printable (instr_text ip op args comment).
Proof.
  intros Hop. unfold instr_text.
  set (more := (match args with [] => [] | _ => [Py.join " " (map Arg_str args)] end)
               ++ (match comment with
                   | Some c => if String.eqb c "" then [] else [("; " ++ c)%string]
                   | None => []
                   end)).
  assert (Py.join "  " ([Py.rjust 4 (Py.str_int ip); Py.ljust 6 op] ++ more)
          = (Py.spaces (4 - String.length (Py.str_int ip)) ++ Py.str_int ip
             ++ Py.spaces 2 ++ op
             ++ match more with
                | [] => Py.spaces (6 - String.length op)
                | _ => (Py.spaces (6 - String.length op) ++ "  " ++ Py.join "  " more)%string
                end)%string) as ->.
  { unfold Py.rjust, Py.ljust. destruct more as [|x more]; simpl app.
    - unfold Py.join. rewrite !string_app_assoc. reflexivity.
    - change (Py.join "  " (?a :: ?b :: x :: more)) with (a ++ "  " ++ b ++ "  " ++ Py.join "  " (x :: more))%string.
      rewrite !string_app_assoc. reflexivity. }
  apply printable_shape; auto using str_int_nonempty, str_int_no_space, join_field_end.
Qed.

Lemma printable_patch_text p target : printable (patch_text p target).
Proof.
  unfold patch_text.
  apply (printable_shape 0 0 (Py.str_int p) "JMP0" (" " ++ Py.str_int target));
    auto using str_int_nonempty, str_int_no_space; reflexivity.
Qed.

Lemma listing_inv_match n ty lx : keeps (listing_inv n) (Parser.match_ ty lx).
Proof. apply keeps_match_of. auto. Qed.

Lemma listing_inv_insert n name ty : keeps (listing_inv n) (insert_identifier name ty).
Proof. apply keeps_insert_of. auto. Qed.

Lemma listing_inv_emit n op args c : opcode op -> keeps (listing_inv n) (emit op args c).
Proof.
  intros Hop s (Hlen & Hp & Hfill).
  assert (wf s) as Hwf by (unfold wf; rewrite Hlen; exact Hp).
  destruct (emit op args c s) as [[] s'|e s'|] eqn:E; simpl; auto.
  - apply emit_Ok in E; [|exact Hwf]. destruct E as [Hroom ->].
    split; [simpl; rewrite length_insert; exact Hlen|].
    split; [simpl; lia|].
    rewrite code_emitted by assumption. apply Forall_app. split; [exact Hfill|].
    constructor; [|constructor]. eexists. split; [reflexivity|].
    apply printable_instr_text, Hop.
  - apply emit_Raise in E. destruct E as [_ ->]. repeat split; try lia; auto.
Qed.

Lemma listing_inv_patch n i p target :
  keeps (listing_inv n) (set_instruction i (patch_text p target)).
Proof.
  intros s (Hlen & Hp & Hfill).
  destruct (set_instruction i (patch_text p target) s) as [[] s'|e s'|] eqn:E; simpl; auto.
  - unfold set_instruction in E.
    destruct (Py.setitem (instructions s) i (Some (patch_text p target))) as [l|] eqn:El;
      [|discriminate].
    inversion E; subst s'; clear E. unfold Py.setitem in El.
    assert (exists j, l = <[j := Some (patch_text p target)]> (instructions s)) as [j ->].
    { destruct (_ && _) in El; [inversion El; eauto|].
      destruct (_ && _) in El; [inversion El; eauto|discriminate]. }
    split; [simpl; rewrite length_insert; exact Hlen|]. split; [exact Hp|].
    unfold code in *; simpl.
    apply Forall_lookup. intros k x Hk.
    rewrite Forall_lookup in Hfill.
    apply lookup_take_Some in Hk. destruct Hk as [Hk Hlt].
    destruct (decide (j = k)) as [->|Hne].
    + apply list_lookup_insert_Some in Hk.
      destruct Hk as [(_ & <- & _)|(Hne & _)]; [|contradiction].
      eexists. split; [reflexivity|apply printable_patch_text].
    + rewrite list_lookup_insert_ne in Hk by exact Hne.
      apply (Hfill k x). apply lookup_take_Some. auto.
  - apply set_instruction_Raise in E. destruct E as [_ ->]. repeat split; try lia; auto.
Qed.

(** ** Every parser routine keeps an invariant kept by [emit] on the
    opcodes of the parser and by the back-patch on the text it writes. *)
Section ParserEmits.
Variable I : State -> Prop.
Hypothesis I_match : forall ty lx, keeps I (Parser.match_ ty lx).
Hypothesis I_emit : forall op args c, opcode op -> keeps I (emit op args c).
Hypothesis I_insert : forall name ty, keeps I (insert_identifier name ty).
Hypothesis I_patch :
  forall i p target, keeps I (set_instruction i (patch_text p target)).

Local Ltac prim :=
  match goal with
  | |- keeps _ (emit _ _ _) => apply I_emit; reflexivity
  | |- keeps _ (insert_identifier _ _) => apply I_insert
  | |- keeps _ (Parser.match_ _ _) => apply I_match
  | |- keeps _ (set_instruction _ (patch_text _ _)) => apply I_patch
  end.
Local Ltac go := repeat first [ prim | keeps_step ].

Lemma emits_emit_arith op : keeps I (Parser.emit_arith op).
Proof. unfold Parser.emit_arith. go. Qed.

Lemma emits_expression fuel : keeps I (Parser.expression fuel).
Proof.
  induction fuel as [|n IH]; simpl; [apply keeps_out_of_fuel|].
  go; auto using emits_emit_arith.
Qed.

Lemma emits_condition fuel : keeps I (Parser.condition fuel).
Proof.
  unfold Parser.condition.
  apply keeps_bind; [apply emits_expression|intros _].
  apply keeps_bind; [apply keeps_current|intros t]. cbv zeta.
  apply keeps_bind; [apply I_match|intros _].
  apply keeps_bind; [apply emits_expression|intros _].
  destruct (dict_get Parser.cmp_map (lexeme t)) as [op|] eqn:E; [|apply keeps_raise].
  apply I_emit. exact (cmp_map_opcode _ _ E).
Qed.

Lemma emits_assignment fuel : keeps I (Parser.assignment fuel).
Proof. unfold Parser.assignment. go; auto using emits_expression. Qed.

Lemma emits_scan_statement : keeps I Parser.scan_statement.
Proof. unfold Parser.scan_statement. go; auto. Qed.

Lemma emits_print_statement fuel : keeps I (Parser.print_statement fuel).
Proof. unfold Parser.print_statement. go; auto using emits_expression. Qed.

Lemma emits_return_statement fuel : keeps I (Parser.return_statement fuel).
Proof. unfold Parser.return_statement. go; auto using emits_expression. Qed.

Lemma emits_statements fuel :
  keeps I (Parser.statement fuel)
  /\ (forall terms, keeps I (Parser.statement_list fuel terms))
  /\ keeps I (Parser.compound_statement fuel)
  /\ keeps I (Parser.while_statement fuel)
  /\ keeps I (Parser.if_statement fuel).
Proof.
  induction fuel as [|n (IHs & IHl & IHc & IHw & IHi)]; simpl.
  - repeat split; intros; apply keeps_out_of_fuel.
  - split; [|split; [|split; [|split]]].
    + go; auto using emits_assignment, emits_scan_statement,
        emits_print_statement, emits_return_statement.
    + intros terms. go; auto.
    + go; auto.
    + go; auto using emits_condition.
    + go; auto using emits_condition.
Qed.

Lemma emits_parse_rat25s fuel : keeps I (Parser.parse_rat25s fuel).
Proof.
  unfold Parser.parse_rat25s.
  go; auto using keeps_opt_declaration_list.
  apply emits_statements.
Qed.

End ParserEmits.

Lemma printable_nonempty raw : printable raw -> raw <> EmptyString.
Proof. intros (n & op & rest & H & _) ->. discriminate H. Qed.

Lemma assembly_line_printable idx raw :
  printable raw -> exists line, assembly_line idx raw = Some line /\ numbered idx line.
Proof.
  intros (n & op & rest & H & Hop). unfold assembly_line. rewrite H.
  destruct (Py.split_once ";" match rest with [] => "" | t :: _ => t end) as [[a c]|];
    eexists; (split; [reflexivity|]); exists op; eexists; (split; [exact Hop|reflexivity]).
Qed.

Lemma assembly_loop_printable instrs idxs :
  Forall (fun i => exists raw, instrs !! i = Some (Some raw) /\ printable raw) idxs ->
  exists lines,
    assembly_loop instrs idxs = (lines, None) /\ Forall2 numbered idxs lines.
Proof.
  induction idxs as [|i idxs IH]; intros H.
  - exists []. split; [reflexivity|constructor].
  - inversion H as [|? ? (raw & Hraw & Hp) Hrest]; subst.
    destruct (IH Hrest) as (lines & Hloop & Hall).
    destruct (assembly_line_printable i raw Hp) as (line & Hline & Hnum).
    exists (line :: lines). simpl. rewrite Hraw.
    rewrite (proj2 (String.eqb_neq raw "") (printable_nonempty raw Hp)).
    rewrite Hline, Hloop. split; [reflexivity|constructor; assumption].
Qed.

(** X28.  After any run, [print_assembly] raises nothing and prints, under
    its header, exactly one line for each instruction emitted; the line of
    slot [i] carries the number [i + 1] and then one of the nineteen
    opcodes the parser emits.  Every slot below the program counter, the
    back-patched one included, holds a text with a number and such an
    opcode; `MUL`, `DIV` and `NEG`, which only [term] and [factor] emit,
    never appear. *)
Theorem print_assembly_after_run toks :
  exists s lines,
    final_state (run toks) = Some s
    /\ print_assembly s = (String "010"%char "Assembly Listing:" :: lines, None)
    /\ Z.of_nat (length lines) = instr_ptr s - 1
    /\ forall i line, lines !! i = Some line -> numbered i line.
Proof.
  assert (listing_inv MAX_INSTR (reset toks)) as H0.
  { split; [reflexivity|]. split; [simpl; lia|]. constructor. }
  pose proof (emits_parse_rat25s (listing_inv MAX_INSTR)
                (listing_inv_match _) (listing_inv_emit _) (listing_inv_insert _)
                (listing_inv_patch _)
                (run_fuel toks) (reset toks) H0) as H.
  pose proof (parse_total toks) as Hfuel. unfold run in *.
  assert (forall s, listing_inv MAX_INSTR s ->
            exists lines,
              print_assembly s = (String "010"%char "Assembly Listing:" :: lines, None)
              /\ Z.of_nat (length lines) = instr_ptr s - 1
              /\ forall i line, lines !! i = Some line -> numbered i line) as Hprint.
  { intros s (Hlen & Hp & Hfill).
    destruct (assembly_loop_printable (instructions s) (seq 0 (Z.to_nat (instr_ptr s - 1))))
      as (lines & Hloop & Hall).
    { apply Forall_forall. intros i Hi. apply elem_of_seq in Hi.
      rewrite Forall_lookup in Hfill.
      destruct (lookup_lt_is_Some_2 (code s) i) as [slot Hslot].
      { unfold code. rewrite length_take. lia. }
      destruct (Hfill i slot Hslot) as (raw & -> & Hraw).
      exists raw. split; [|exact Hraw].
      unfold code in Hslot. apply lookup_take_Some in Hslot. tauto. }
    exists lines. unfold print_assembly. rewrite Hloop.
    split; [reflexivity|]. split.
    - rewrite <- (Forall2_length _ _ _ Hall), length_seq. lia.
    - intros i line Hi.
      destruct (Forall2_lookup_r _ _ _ _ _ Hall Hi) as (j & Hj & Hnum).
      apply lookup_seq in Hj. destruct Hj as [-> _]. exact Hnum. }
  destruct (Parser.parse_rat25s (run_fuel toks) (reset toks)) as [[] s|e s|];
    [| |congruence]; simpl in H; destruct (Hprint s H) as (lines & Hl);
    exists s, lines; (split; [reflexivity|exact Hl]).
Qed.

(* ===================================================================== *)
(** ** What a declaration declares *)
(* ===================================================================== *)

Lemma ids_declares fuel ty :
  ty <> EmptyString ->
  forall s s',
    Parser.ids fuel (Some ty) s = Ok tt s' ->
    exists names,
      names <> []
      /\ upcoming s = ids_tokens names ++ upcoming s'
      /\ symbol_table s' = symbol_table s ++ entries (Memory_Address s) ty names
      /\ Memory_Address s' = Memory_Address s + Z.of_nat (length names)
      /\ instructions s' = instructions s
      /\ instr_ptr s' = instr_ptr s.
Proof.
  intros Hty. destruct ty as [|c r]; [congruence|]. clear Hty.
  induction fuel as [|n IH]; intros s s' H; [discriminate|].
  simpl in H.
  apply bind_Ok in H. destruct H as (cur & ? & Hg & H).
  apply gets_Ok in Hg. destruct Hg as [-> ->].
  apply bind_Ok in H. destruct H as ([] & s1 & Hfirst & H).
  destruct (current_token s) as [t|] eqn:Ht; [|discriminate].
  destruct (String.eqb_spec (token_type t) "identifier") as [Htype|]; [|discriminate].
  cbv zeta in Hfirst.
  apply bind_Ok in Hfirst. destruct Hfirst as ([] & sa & Hins & Hm).
  apply insert_identifier_Ok in Hins. destruct Hins as [_ Hsa].
  apply match_Ok_skip in Hm.
  assert (upcoming s = mkToken "identifier" (lexeme t) :: upcoming s1) as Hu.
  { rewrite (current_token_upcoming _ _ Ht), (Token_eta t), Htype, Hm, Hsa. reflexivity. }
  assert (symbol_table s1
          = symbol_table s ++ [(lexeme t, (Memory_Address s, String c r))]) as Htab
      by (rewrite Hm, Hsa; reflexivity).
  assert (Memory_Address s1 = Memory_Address s + 1) as Hmem by (rewrite Hm, Hsa; reflexivity).
  assert (instructions s1 = instructions s) as Hins by (rewrite Hm, Hsa; reflexivity).
  assert (instr_ptr s1 = instr_ptr s) as Hptr by (rewrite Hm, Hsa; reflexivity).
  clear Hm Hsa.
  apply bind_Ok in H. destruct H as (cur & ? & Hg & H).
  apply gets_Ok in Hg. destruct Hg as [-> ->].
  assert (forall (Hstop : s' = s1),
            exists names,
              names <> []
              /\ upcoming s = ids_tokens names ++ upcoming s'
              /\ symbol_table s' = symbol_table s ++ entries (Memory_Address s) (String c r) names
              /\ Memory_Address s' = Memory_Address s + Z.of_nat (length names)
              /\ instructions s' = instructions s
              /\ instr_ptr s' = instr_ptr s) as Hone.
  { intros ->. exists [lexeme t]. simpl. repeat split; auto; try discriminate. }
  destruct (current_token s1) as [t1|] eqn:Ht1;
    [|apply ret_Ok in H; destruct H as [_ ->]; apply Hone; reflexivity].
  destruct (is_tok "separator" "," t1) eqn:Hcomma;
    [|apply ret_Ok in H; destruct H as [_ ->]; apply Hone; reflexivity].
  clear Hone.
  apply bind_Ok in H. destruct H as ([] & s2 & Hm & H).
  apply match_Ok_token in Hm. destruct Hm as [Hu1 Hs2].
  destruct (IH _ _ H) as (names & Hne & Hu2 & Htab2 & Hmem2 & Hins2 & Hptr2).
  exists (lexeme t :: names).
  split; [discriminate|].
  split.
  { rewrite Hu, Hu1, Hu2. destruct names as [|x names]; [congruence|reflexivity]. }
  split.
  { rewrite Htab2, Hs2. simpl. rewrite Htab, Hmem, <- app_assoc. reflexivity. }
  split; [rewrite Hmem2, Hs2; simpl; lia|].
  split; [rewrite Hins2, Hs2; exact Hins|].
  rewrite Hptr2, Hs2. exact Hptr.
Qed.

(** A successful [declaration] adds its names to the end of the table, at
    consecutive addresses from [Memory_Address]. *)
Lemma declaration_adds fuel s s' :
  Parser.declaration fuel s = Ok tt s' ->
  exists ty names,
    names <> []
    /\ symbol_table s' = symbol_table s ++ entries (Memory_Address s) ty names
    /\ Memory_Address s' = Memory_Address s + Z.of_nat (length names).
Proof.
  intros H. unfold Parser.declaration, Parser.qualifier in H.
  apply bind_Ok in H. destruct H as (t & ? & Hcur & H).
  apply current_Ok in Hcur. destruct Hcur as [-> Ht]. cbv zeta in H.
  apply bind_Ok in H. destruct H as ([] & s1 & Hq & H).
  apply bind_Ok in Hq. destruct Hq as (t' & ? & Hcur & Hq).
  apply current_Ok in Hcur. destruct Hcur as [-> Ht'].
  assert (t' = t) as -> by congruence.
  destruct (Py.mem (lexeme t) ["integer"; "boolean"]) eqn:Hmem; [|discriminate].
  apply match_Ok_skip in Hq.
  assert (lexeme t <> EmptyString) as Hne.
  { intros Hl. rewrite Hl in Hmem. discriminate. }
  destruct (ids_declares fuel (lexeme t) Hne _ _ H)
    as (names & Hnames & _ & Htab & Hmem2 & _ & _).
  exists (lexeme t), names. rewrite Hq in Htab, Hmem2. simpl in *. auto.
Qed.

(** C7.  In the state a run from reset stops in, the addresses of the symbol
    table, in declaration order, are 10000, 10001, ...: they start at the
    base, are unique and strictly increasing, and the counter is the base
    plus the number of declarations.  A successful [insert_identifier]
    appends one entry at the current counter and adds exactly one to it; a
    failing one changes nothing; and it does succeed on every name that is
    not in the table.  A successful [declaration] adds its names, one or
    more, at consecutive addresses from the counter.  In the run of
    `$$ integer a, b; boolean c; $$ a = 1; $$` the three names receive
    10000, 10001 and 10002 and the counter ends at 10003. *)
Theorem symbol_addresses_sequential :
  (forall toks, exists s,
      final_state (run toks) = Some s
      /\ addresses s = seqZ 10000 (Z.of_nat (length (symbol_table s)))
      /\ Memory_Address s = 10000 + Z.of_nat (length (symbol_table s))
      /\ NoDup (addresses s)
      /\ StronglySorted Z.lt (addresses s))
  /\ (forall name ty s,
        match insert_identifier name ty s with
        | Ok _ s' =>
            symbol_table s' = symbol_table s ++ [(name, (Memory_Address s, ty))]
            /\ Memory_Address s' = Memory_Address s + 1
        | Raise _ s' => s' = s
        | OutOfFuel => False
        end)
  /\ (forall name ty s,
        dict_get (symbol_table s) name = None ->
        insert_identifier name ty s
        = Ok tt (mkState (tokens s) (current_token_index s)
                   (symbol_table s ++ [(name, (Memory_Address s, ty))])
                   (Memory_Address s + 1) (instructions s) (instr_ptr s)))
  /\ (forall fuel s s',
        Parser.declaration fuel s = Ok tt s' ->
        exists ty names,
          names <> []
          /\ symbol_table s' = symbol_table s ++ entries (Memory_Address s) ty names
          /\ Memory_Address s' = Memory_Address s + Z.of_nat (length names))
  /\ (exists s,
        compile "$$ integer a, b; boolean c; $$ a = 1; $$" = Ok tt s
        /\ symbol_table s =
             [("a", (10000, "integer")); ("b", (10001, "integer"));
              ("c", (10002, "boolean"))]
        /\ Memory_Address s = 10003).
Proof.
  split; [|split; [|split; [|split]]].
  - intros toks.
    pose proof (table_ok_parse_rat25s (run_fuel toks) (reset toks) (table_ok_reset toks)) as H.
    pose proof (parse_total toks) as Hfuel. unfold run in *.
    destruct (Parser.parse_rat25s (run_fuel toks) (reset toks)) as [[] s|e s|];
      [| |congruence]; simpl in *; exists s; destruct H as [Ha Hm];
      (split; [reflexivity|]); rewrite Ha;
      repeat split; auto using NoDup_seqZ, seqZ_strictly_sorted.
  - intros name ty s.
    destruct (insert_identifier name ty s) as [[] s'|e s'|] eqn:E.
    + apply insert_identifier_Ok in E. destruct E as [_ ->]. simpl. auto.
    + apply insert_identifier_Raise in E. apply E.
    + revert E. unfold insert_identifier, bind, is_declared, gets, modify, raise.
      destruct (is_declared_in (symbol_table s) name); discriminate.
  - intros name ty s Hnew.
    unfold insert_identifier, bind, is_declared, gets, is_declared_in, modify.
    rewrite Hnew. rewrite dict_set_new by exact Hnew. reflexivity.
  - exact declaration_adds.
  - vm_compute. eexists. repeat split; reflexivity.
Qed.

Lemma symbol_addresses_sequential_run :
  exists ty names,
    names <> []
    /\ symbol_table (after (Parser.declaration 10%nat) (declaring "integer a, b, c;"))
       = symbol_table (declaring "integer a, b, c;")
           ++ entries (Memory_Address (declaring "integer a, b, c;")) ty names
    /\ Memory_Address (after (Parser.declaration 10%nat) (declaring "integer a, b, c;"))
       = Memory_Address (declaring "integer a, b, c;") + Z.of_nat (length names).
Proof.
  apply (proj1 (proj2 (proj2 (proj2 symbol_addresses_sequential))) 10%nat
           (declaring "integer a, b, c;")
           (after (Parser.declaration 10%nat) (declaring "integer a, b, c;"))).
  vm_compute. reflexivity.
Defined.

(** X29.  A successful [declaration] has read a type keyword, `integer` or
    `boolean`, and a list of one or more identifiers separated by commas;
    it has added them to the end of the symbol table in the order they are
    written, each with that type, at consecutive addresses starting at
    [Memory_Address], and has left the instruction array alone. *)
Theorem declaration_declares fuel s s' :
  Parser.declaration fuel s = Ok tt s' ->
  exists ty names,
    (ty = "integer" \/ ty = "boolean")
    /\ names <> []
    /\ upcoming s = mkToken "keyword" ty :: ids_tokens names ++ upcoming s'
    /\ symbol_table s' = symbol_table s ++ entries (Memory_Address s) ty names
    /\ Memory_Address s' = Memory_Address s + Z.of_nat (length names)
    /\ instructions s' = instructions s
    /\ instr_ptr s' = instr_ptr s.
Proof.
  intros H. unfold Parser.declaration, Parser.qualifier in H.
  apply bind_Ok in H. destruct H as (t & ? & Hcur & H).
  apply current_Ok in Hcur. destruct Hcur as [-> Ht]. cbv zeta in H.
  apply bind_Ok in H. destruct H as ([] & s1 & Hq & H).
  apply bind_Ok in Hq. destruct Hq as (t' & ? & Hcur & Hq).
  apply current_Ok in Hcur. destruct Hcur as [-> Ht'].
  assert (t' = t) as -> by congruence.
  destruct (Py.mem (lexeme t) ["integer"; "boolean"]) eqn:Hmem; [|discriminate].
  apply match_Ok_upcoming in Hq. destruct Hq as (t0 & Hu & Hty & _ & Hs1).
  assert (t0 = t) as ->.
  { apply upcoming_cons in Hu. destruct Hu as [Hu _]. congruence. }
  assert (lexeme t = "integer" \/ lexeme t = "boolean") as Hkind.
  { unfold Py.mem in Hmem. simpl in Hmem.
    destruct (String.eqb_spec (lexeme t) "integer"); [left; assumption|].
    destruct (String.eqb_spec (lexeme t) "boolean"); [right; assumption|discriminate]. }
  assert (lexeme t <> EmptyString) as Hne by (destruct Hkind as [-> | ->]; discriminate).
  destruct (ids_declares fuel (lexeme t) Hne _ _ H)
    as (names & Hnames & Hu2 & Htab & Hmem2 & Hins & Hptr).
  exists (lexeme t), names.
  split; [exact Hkind|]. split; [exact Hnames|].
  split; [rewrite Hu, Hu2, (Token_eta t), Hty; reflexivity|].
  rewrite Hs1 in Htab, Hmem2, Hins, Hptr. simpl in *. auto.
Qed.

Lemma declaration_declares_run :
  exists ty names,
    (ty = "integer" \/ ty = "boolean")
    /\ names <> []
    /\ upcoming (declaring "boolean p, q, r;")
       = mkToken "keyword" ty :: ids_tokens names
           ++ upcoming (after (Parser.declaration 10) (declaring "boolean p, q, r;"))
    /\ symbol_table (after (Parser.declaration 10) (declaring "boolean p, q, r;"))
       = symbol_table (declaring "boolean p, q, r;")
           ++ entries (Memory_Address (declaring "boolean p, q, r;")) ty names
    /\ Memory_Address (after (Parser.declaration 10) (declaring "boolean p, q, r;"))
       = Memory_Address (declaring "boolean p, q, r;") + Z.of_nat (length names)
    /\ instructions (after (Parser.declaration 10) (declaring "boolean p, q, r;"))
       = instructions (declaring "boolean p, q, r;")
    /\ instr_ptr (after (Parser.declaration 10) (declaring "boolean p, q, r;"))
       = instr_ptr (declaring "boolean p, q, r;").
Proof.
  apply (declaration_declares 10 (declaring "boolean p, q, r;")
           (after (Parser.declaration 10) (declaring "boolean p, q, r;"))).
  vm_compute. reflexivity.
Defined.

(* ===================================================================== *)
(** ** The symbol table listing of a run *)
(* ===================================================================== *)

Lemma table_inv_finds s :
  table_inv s ->
  Forall (fun entry => dict_get (symbol_table s) (fst entry) = Some (snd entry))
    (symbol_table s).
Proof.
  intros [Hn _]. unfold names in Hn.
  induction (symbol_table s) as [|[k v] d IH]; [constructor|].
  simpl in Hn. apply NoDup_cons in Hn. destruct Hn as [Hk Hd].
  constructor; [simpl; rewrite String.eqb_refl; reflexivity|].
  eapply Forall_impl; [apply IH, Hd|]. intros [k' v'] Hget. simpl in *.
  destruct (String.eqb_spec k' k) as [->|_]; [|exact Hget].
  exfalso. apply Hk. clear -Hget. induction d as [|[k0 v0] d IH]; [discriminate|].
  simpl in *. destruct (String.eqb_spec k k0) as [->|_]; [left|right; auto].
Qed.

(** X30.  After any run from reset, [print_symbol_table] prints its three
    header lines and then one row for each declared name, in declaration
    order: row [i] shows a name, the address 10000 + [i] and the type
    `integer` or `boolean`, and that name looks up to exactly that address
    and type.  The number of rows is [Memory_Address] - 10000. *)
Theorem print_symbol_table_after_run toks :
  exists s rows,
    final_state (run toks) = Some s
    /\ print_symbol_table s
       = [String "010"%char "Symbol Table:";
          "Identifier      Memory Address     Type";
          "----------------------------------------"] ++ rows
    /\ Z.of_nat (length rows) = Memory_Address s - 10000
    /\ forall (i : nat) row,
         rows !! i = Some row ->
         exists name ty,
           (ty = "integer" \/ ty = "boolean")
           /\ dict_get (symbol_table s) name = Some (10000 + Z.of_nat i, ty)
           /\ row = (Py.ljust 15 name ++ Py.ljust 18 (Py.str_int (10000 + Z.of_nat i))
                     ++ ty)%string.
Proof.
  pose proof (table_ok_parse_rat25s (run_fuel toks) (reset toks) (table_ok_reset toks)) as Hok.
  assert (table_inv (reset toks)) as H0 by (split; constructor).
  pose proof (keeps_parse_rat25s_by_declaration table_inv (fun _ => True)
                table_inv_match table_inv_emit table_inv_declaration
                (fun _ _ => Logic.I) (fun p text _ => table_inv_set_instruction (p - 1) text)
                (run_fuel toks) (reset toks) H0) as Hinv.
  pose proof (parse_total toks) as Hfuel. unfold run in *.
  assert (forall s, table_ok s -> table_inv s ->
            Z.of_nat (length (map symbol_table_row (symbol_table s))) = Memory_Address s - 10000
            /\ forall (i : nat) row,
                 map symbol_table_row (symbol_table s) !! i = Some row ->
                 exists name ty,
                   (ty = "integer" \/ ty = "boolean")
                   /\ dict_get (symbol_table s) name = Some (10000 + Z.of_nat i, ty)
                   /\ row = (Py.ljust 15 name
                             ++ Py.ljust 18 (Py.str_int (10000 + Z.of_nat i)) ++ ty)%string)
    as Hrows.
  { intros s [Haddr Hmem] Hti. split; [rewrite length_map; lia|].
    intros i row Hrow. rewrite list_lookup_fmap in Hrow.
    destruct (symbol_table s !! i) as [[name [addr ty]]|] eqn:Hi; [|discriminate].
    simpl in Hrow. inversion Hrow; subst row; clear Hrow.
    assert (addr = 10000 + Z.of_nat i) as ->.
    { assert (addresses s !! i = Some addr) as Ha.
      { unfold addresses. rewrite list_lookup_fmap, Hi. reflexivity. }
      rewrite Haddr in Ha. apply lookup_seqZ in Ha. lia. }
    pose proof (table_inv_finds s Hti) as Hfind.
    rewrite Forall_lookup in Hfind. specialize (Hfind i _ Hi). simpl in Hfind.
    destruct Hti as [_ Hty]. rewrite Forall_lookup in Hty. specialize (Hty i _ Hi).
    simpl in Hty. exists name, ty. auto. }
  destruct (Parser.parse_rat25s (run_fuel toks) (reset toks)) as [[] s|e s|];
    [| |congruence]; simpl in Hok, Hinv;
    exists s, (map symbol_table_row (symbol_table s));
    (split; [reflexivity|]); (split; [reflexivity|]); apply Hrows; assumption.
Qed.
